(** * figma_ios_bfs_tool: the decision-state workflow engine

    A shallow embedding of [scripts/figma_ios_bfs_tool.py]: fact
    extraction, tree indexing, the breadth-first order, the traversal
    cursor, the decision store, the constraint hint, the validator and the
    export-time absorption, followed by the properties of the
    specification that concern them.

    Conventions of the embedding.
    - A JSON value is a [json]; a Python [dict] is an association list in
      insertion order, read by first match ([Dict.get]) and written in place
      or appended ([Dict.set]), as Python's ordered dicts behave.
    - A Python [str] is a [string]; one [ascii] stands for one character,
      so the text is that of the first 256 code points. White space is
      Python's on those; case mapping is that of ASCII.
    - A Python [float] is a binary64 [float]; a Python [int] is a [Z].
    - An exception is a [Raise] with its message; a function that can raise
      returns a [result], and [let*] passes the exception on. [float()] of
      an integer beyond the binary64 range raises [OverflowError], which
      fact extraction, indexing and [cmd_init] let through.
    - The interpreter's recursion limit is a parameter of [skeleton_tree],
      whose recursion a state can drive as deep as the requested depth;
      [build_export_tree] takes its recursion budget as fuel. The input
      tree itself is taken as parsed, and within that limit.
    - In-place mutation is modelled by returning the updated value. *)

From Stdlib Require Import List String Ascii ZArith Bool Arith Lia.
From Stdlib Require Import Floats DecimalString.
Import ListNotations.

Set Warnings "-register-all".
Set Default Proof Using "Type".

Local Open Scope string_scope.
Local Open Scope list_scope.
Local Open Scope nat_scope.

Infix "^^" := String.append (at level 60, right associativity).

(** ** Strings *)

Module Str.

Definition code (c : ascii) : nat := nat_of_ascii c.

Definition is_upper (c : ascii) : bool := (65 <=? code c) && (code c <=? 90).
Definition is_lower (c : ascii) : bool := (97 <=? code c) && (code c <=? 122).
Definition is_digit (c : ascii) : bool := (48 <=? code c) && (code c <=? 57).

(** The characters [str.strip] removes, those for which [str.isspace]
    holds: tab, line feed, vertical tab, form feed, carriage return, the
    four separators 28..31, the space, the next-line control 133 and the
    no-break space 160. *)
Definition is_space (c : ascii) : bool :=
  ((9 <=? code c) && (code c <=? 13))
  || ((28 <=? code c) && (code c <=? 32))
  || (code c =? 133) || (code c =? 160).

Definition upper_char (c : ascii) : ascii :=
  if is_lower c then ascii_of_nat (code c - 32) else c.

Definition lower_char (c : ascii) : ascii :=
  if is_upper c then ascii_of_nat (code c + 32) else c.

Fixpoint map (f : ascii -> ascii) (s : string) : string :=
  match s with
  | EmptyString => EmptyString
  | String c s' => String (f c) (map f s')
  end.

Definition upper (s : string) : string := map upper_char s.
Definition lower (s : string) : string := map lower_char s.

Definition is_empty (s : string) : bool :=
  match s with EmptyString => true | _ => false end.

Fixpoint lstrip (s : string) : string :=
  match s with
  | EmptyString => EmptyString
  | String c s' => if is_space c then lstrip s' else s
  end.

Fixpoint rstrip (s : string) : string :=
  match s with
  | EmptyString => EmptyString
  | String c s' =>
      let r := rstrip s' in
      if is_space c && is_empty r then EmptyString else String c r
  end.

Definition strip (s : string) : string := rstrip (lstrip s).

(** [s[:n]] for [n >= 0]. *)
Fixpoint take (n : nat) (s : string) : string :=
  match n, s with
  | S n', String c s' => String c (take n' s')
  | _, _ => EmptyString
  end.

(** [s[n:]] for [n >= 0]. *)
Fixpoint drop (n : nat) (s : string) : string :=
  match n, s with
  | S n', String _ s' => drop n' s'
  | _, _ => s
  end.

(** [s.split(sep)] for a one-character separator. *)
Fixpoint split (sep : ascii) (s : string) : list string :=
  match s with
  | EmptyString => [EmptyString]
  | String c s' =>
      let parts := split sep s' in
      if Ascii.eqb c sep then EmptyString :: parts
      else match parts with
           | p :: ps => String c p :: ps
           | [] => [String c EmptyString]
           end
  end.

(** [s.split(sep, 1)] when [sep in s]: the text before the first
    separator and the text after it; [None] when [sep] does not occur. *)
Fixpoint split1 (sep : ascii) (s : string) : option (string * string) :=
  match s with
  | EmptyString => None
  | String c s' =>
      if Ascii.eqb c sep then Some (EmptyString, s')
      else match split1 sep s' with
           | Some (a, b) => Some (String c a, b)
           | None => None
           end
  end.

(** [s.replace(a, b)] for single characters. *)
Definition replace (a b : ascii) (s : string) : string :=
  map (fun c => if Ascii.eqb c a then b else c) s.

Definition startswith (p s : string) : bool := String.prefix p s.

(** Decimal text of a Python [int]. *)
Definition of_Z (z : Z) : string := NilZero.string_of_int (Z.to_int z).

Fixpoint mem (s : string) (l : list string) : bool :=
  match l with
  | [] => false
  | x :: l' => String.eqb s x || mem s l'
  end.

End Str.

(** ** Binary64 numbers *)

Module Flt.

(** [float(z)] for a Python [int]: the nearest binary64, ties to even. *)
Definition of_Z (z : Z) : float :=
  SF2Prim (binary_normalize prec emax z 0 false).

(** [int(f)] when [f.is_integer()], [None] otherwise (fractions,
    infinities and NaN). *)
Definition to_Z (f : float) : option Z :=
  match Prim2SF f with
  | S754_zero _ => Some 0%Z
  | S754_finite s m e =>
      let mag :=
        if (0 <=? e)%Z then Some (Z.pos m * 2 ^ e)%Z
        else if (Z.pos m mod 2 ^ (- e) =? 0)%Z
             then Some (Z.pos m / 2 ^ (- e))%Z
             else None in
      match mag with
      | Some v => Some (if s then (- v)%Z else v)
      | None => None
      end
  | _ => None
  end.

Definition neqb (a b : float) : bool := negb (PrimFloat.eqb a b).

End Flt.

(** ** JSON values and Python dicts *)

Inductive json : Type :=
| JNull
| JBool (b : bool)
| JInt (z : Z)
| JFloat (f : float)
| JStr (s : string)
| JArr (items : list json)
| JObj (fields : list (string * json)).

Module Dict.

Definition t (V : Type) : Type := list (string * V).

Section Ops.
Context {V : Type}.

(** [d.get(k)]: [None] when the key is absent. *)
Fixpoint get (k : string) (d : t V) : option V :=
  match d with
  | [] => None
  | (k', v) :: d' => if String.eqb k k' then Some v else get k d'
  end.

(** [k in d]. *)
Definition mem (k : string) (d : t V) : bool :=
  match get k d with Some _ => true | None => false end.

(** [d[k] = v]: an existing key keeps its place, a new one goes last. *)
Fixpoint set (k : string) (v : V) (d : t V) : t V :=
  match d with
  | [] => [(k, v)]
  | (k', v') :: d' =>
      if String.eqb k k' then (k', v) :: d' else (k', v') :: set k v d'
  end.

(** [d.pop(k, None)], the value dropped. *)
Fixpoint remove (k : string) (d : t V) : t V :=
  match d with
  | [] => []
  | (k', v') :: d' =>
      if String.eqb k k' then d' else (k', v') :: remove k d'
  end.

Definition keys (d : t V) : list string := List.map fst d.

(** The continuation [f] applied to the value under [k], [dflt] when
    the key is absent. *)
Fixpoint with_field {A : Type} (k : string) (f : V -> A) (dflt : A)
    (d : t V) : A :=
  match d with
  | [] => dflt
  | (k', v) :: d' =>
      if String.eqb k k' then f v else with_field k f dflt d'
  end.

(** The value under [k] rewritten by [f]; nothing when absent. *)
Fixpoint update (k : string) (f : V -> V) (d : t V) : t V :=
  match d with
  | [] => []
  | (k', v) :: d' =>
      if String.eqb k k' then (k', f v) :: d'
      else (k', v) :: update k f d'
  end.
End Ops.

End Dict.

Definition dict : Type := Dict.t json.

(** ** Python built-ins on JSON values *)

(** [d.get(k)] with Python's [None] for a missing key. *)
Definition getn (k : string) (d : dict) : json :=
  match Dict.get k d with Some v => v | None => JNull end.

(** [d.get(k, dflt)]. *)
Definition get_or (k : string) (dflt : json) (d : dict) : json :=
  match Dict.get k d with Some v => v | None => dflt end.

(** [bool(v)]. *)
Definition truthy (v : json) : bool :=
  match v with
  | JNull => false
  | JBool b => b
  | JInt z => negb (z =? 0)%Z
  | JFloat f => Flt.neqb f 0
  | JStr s => negb (Str.is_empty s)
  | JArr l => match l with [] => false | _ => true end
  | JObj m => match m with [] => false | _ => true end
  end.

(** [a or b]. *)
Definition py_or (a b : json) : json := if truthy a then a else b.

Definition is_number (value : json) : bool :=
  match value with
  | JInt _ | JFloat _ => true
  | _ => false
  end.

(** [float(v)] on a number, where it returns: on every float, and on
    an [int] within the binary64 range. [checked_float] below is
    [float(v)] with the exception it raises beyond that range; fact
    extraction goes through it. The hints read the frame facts, which
    fact extraction stored as floats ([workflow_frames_are_floats]). *)
Definition py_float (v : json) : float :=
  match v with
  | JInt z => Flt.of_Z z
  | JFloat f => f
  | _ => nan
  end.

(** [isinstance(v, str) and v]: the string when it is a non-empty one. *)
Definition nonempty_str (v : json) : option string :=
  match v with
  | JStr s => if Str.is_empty s then None else Some s
  | _ => None
  end.

(** [isinstance(v, str) and v.strip()]: the stripped text when non-empty. *)
Definition stripped_str (v : json) : option string :=
  match v with
  | JStr s => if Str.is_empty (Str.strip s) then None else Some (Str.strip s)
  | _ => None
  end.

(** Optional and conditional entries of a dict under construction. *)
Definition opt_entry (k : string) (o : option json) : dict :=
  match o with Some v => [(k, v)] | None => [] end.

Definition dict_or_none (d : dict) : option dict :=
  match d with [] => None | _ => Some d end.

(** ** Node records and the persisted state *)

(** The record [index_tree] stores for every included node (the source's
    [NodeRecord]; [type] is a reserved word, hence [type_]). *)
Module NodeRecord.
Record t : Type := mk {
  id : string;
  name : string;
  type_ : string;
  parent_id : option string;
  depth : nat;
  child_ids : list string;
  facts : dict
}.
End NodeRecord.

Definition node_map : Type := Dict.t NodeRecord.t.

(** The state document [cmd_init] writes and every other command loads:
    [{version, uiSystem, rootId, nodes, bfs, decisions}]. The version is
    the constant [STATE_VERSION] throughout and is left out. *)
Record State : Type := mkState {
  uiSystem : string;
  rootId : string;
  nodes : node_map;
  bfs : list string;
  decisions : dict
}.

(** What one command run leaves behind: its exit status, the lines it
    printed on stderr, the JSON it printed on stdout and the state it saved
    (when it saved one). *)
Record Run : Type := mkRun {
  exit_code : Z;
  stderr : list string;
  stdout : option json;
  saved : option State
}.

(** The value a function returns, or the exception it raises, with its
    message. *)
Inductive result (A : Type) : Type :=
| Ok (a : A)
| Raise (msg : string).
Arguments Ok {A} a.
Arguments Raise {A} msg.

(** Sequencing: the first exception raised goes through. *)
Definition bind {A B : Type} (r : result A) (f : A -> result B) : result B :=
  match r with
  | Ok a => f a
  | Raise msg => Raise msg
  end.

Notation "'let*' x ':=' r 'in' k" := (bind r (fun x => k))
  (at level 10, x name, r at level 100, k at level 200).

(** The value under [Ok], [dflt] for a [Raise]. *)
Definition returned {A : Type} (dflt : A) (r : result A) : A :=
  match r with
  | Ok a => a
  | Raise _ => dflt
  end.

(** The message of Python's [OverflowError] for [float(n)]. *)
Definition INT_TOO_LARGE : string := "int too large to convert to float".

(** [float(n)] raises on an [int] whose nearest binary64, ties to even,
    is out of range: from 2^1024 - 2^970 on, in magnitude. *)
Definition float_overflows (v : json) : bool :=
  match v with
  | JInt z => PrimFloat.is_infinity (Flt.of_Z z)
  | _ => false
  end.

(** [float(v)], called on numbers only. *)
Definition checked_float (v : json) : result float :=
  if float_overflows v then Raise INT_TOO_LARGE else Ok (py_float v).

Section Tool.

(** Python's [repr] of a float, a list or a dict: a built-in of the
    runtime, of which nothing is assumed. *)
Variable py_repr : json -> string.

(** Python's [float(s)] on a string, [None] standing for [ValueError]:
    likewise a built-in of which nothing is assumed. *)
Variable py_parse_float : string -> option float.

(** The interpreter's recursion limit, as the number of calls of
    [skeleton_tree] it lets nest below the first one, and the message of
    the [RecursionError] it raises beyond: set by the runtime, and
    nothing is assumed of them. *)
Variable recursion_limit : nat.
Variable recursion_error : string.

(** [str(v)]. *)
Definition py_str (v : json) : string :=
  match v with
  | JStr s => s
  | JNull => "None"
  | JBool true => "True"
  | JBool false => "False"
  | JInt z => Str.of_Z z
  | _ => py_repr v
  end.

(** *** Fact extraction *)

(** [re.sub(r"([a-z0-9])([A-Z])", r"\1 \2", s)]. *)
Fixpoint camel_split (s : string) : string :=
  match s with
  | EmptyString => EmptyString
  | String c s' =>
      match s' with
      | String c2 _ =>
          if (Str.is_lower c || Str.is_digit c) && Str.is_upper c2
          then String c (String " " (camel_split s'))
          else String c (camel_split s')
      | EmptyString => String c EmptyString
      end
  end.

(** [re.findall(r"[a-z0-9]+", s)], [cur] being the run in progress. *)
Fixpoint alnum_runs (s : string) (cur : string) : list string :=
  let flush := if Str.is_empty cur then [] else [cur] in
  match s with
  | EmptyString => flush
  | String c s' =>
      if Str.is_lower c || Str.is_digit c
      then alnum_runs s' (cur ^^ String c EmptyString)
      else flush ++ alnum_runs s' EmptyString
  end.

Definition name_tokens (raw : json) : list string :=
  match raw with
  | JNull => []
  | _ =>
      let s := py_str raw in
      let s := camel_split s in
      let s := Str.replace "_" " " (Str.replace "-" " " (Str.replace "/" " " s)) in
      alnum_runs (Str.lower s) EmptyString
  end.

Fixpoint first_visible_paint (paints : list json) (want : string)
    : option dict :=
  match paints with
  | [] => None
  | JObj p :: rest =>
      match get_or "visible" (JBool true) p with
      | JBool false => first_visible_paint rest want
      | _ =>
          if String.eqb (Str.upper (py_str (get_or "type" (JStr "") p))) want
          then Some p
          else first_visible_paint rest want
      end
  | _ :: rest => first_visible_paint rest want
  end.

Definition pick_first_visible_paint (paints : json) (paint_type : string)
    : option dict :=
  match paints with
  | JArr ps => first_visible_paint ps (Str.upper paint_type)
  | _ => None
  end.

(** [not paint] for an optional dict. *)
Definition no_paint (paint : option dict) : bool :=
  match paint with
  | None | Some [] => true
  | Some _ => false
  end.

Definition color_spec (color_obj : json) : option dict :=
  match color_obj with
  | JObj c =>
      let token := getn "colorVariableName" c in
      let hex_rgba := getn "hexRGBA" c in
      dict_or_none
        (opt_entry "token" (option_map JStr (stripped_str token))
         ++ opt_entry "fallbackHex" (option_map JStr (stripped_str hex_rgba)))
  | _ => None
  end.

(** [{k: float(v)}] when [v] is a number, and, with [skip], a number
    whose float is other than [skip]. *)
Definition num_entry (k : string) (v : json) : result dict :=
  if is_number v then
    let* f := checked_float v in
    Ok [(k, JFloat f)]
  else Ok [].

Definition num_entry_unless (skip : float) (k : string) (v : json)
    : result dict :=
  if is_number v then
    let* f := checked_float v in
    Ok (if Flt.neqb f skip then [(k, JFloat f)] else [])
  else Ok [].

Definition extract_solid_fill_color (node : dict) : result (option dict) :=
  let paint := pick_first_visible_paint (getn "fills" node) "SOLID" in
  if no_paint paint then Ok None
  else match paint with
       | Some p =>
           match color_spec (getn "color" p) with
           | Some c =>
               let* opacity :=
                 num_entry_unless 1 "opacity" (getn "opacity" p) in
               Ok (Some ([("color", JObj c)] ++ opacity))
           | None => Ok None
           end
       | None => Ok None
       end.

Definition extract_solid_stroke (node : dict) : result (option dict) :=
  let paint := pick_first_visible_paint (getn "strokes" node) "SOLID" in
  if no_paint paint then Ok None
  else match paint with
       | Some p =>
           match color_spec (getn "color" p) with
           | Some c =>
               let weight :=
                 get_or "strokeWeight" (getn "strokeWidth" node) node in
               let align := getn "strokeAlign" node in
               let* width := num_entry_unless 0 "width" weight in
               let* opacity :=
                 num_entry_unless 1 "opacity" (getn "opacity" p) in
               Ok (Some ([("color", JObj c)]
                         ++ width
                         ++ opt_entry "align"
                              (option_map JStr (nonempty_str align))
                         ++ opacity))
           | None => Ok None
           end
       | None => Ok None
       end.

Definition extract_image (node : dict) : result (option dict) :=
  let paint := pick_first_visible_paint (getn "fills" node) "IMAGE" in
  let image_hash :=
    match paint with
    | Some p => py_or (getn "imageHash" p) (getn "imageRef" p)
    | None => JNull
    end in
  let image_hash :=
    py_or (py_or image_hash (getn "imageHash" node)) (getn "imageRef" node) in
  if no_paint paint && negb (truthy image_hash) then Ok None
  else
    let* of_paint :=
      match paint with
      | Some p =>
          let* opacity := num_entry_unless 1 "opacity" (getn "opacity" p) in
          Ok (opt_entry "scaleMode"
                (option_map JStr (nonempty_str (getn "scaleMode" p)))
              ++ opacity)
      | None => Ok []
      end in
    Ok (dict_or_none
          (opt_entry "imageHash" (option_map JStr (nonempty_str image_hash))
           ++ of_paint)).

Definition extract_font (node : dict) : result (option dict) :=
  let token :=
    py_or (getn "textVariableName" node) (getn "textStyleVariableName" node) in
  let* size := num_entry "size" (getn "fontSize" node) in
  let fallback : dict :=
    opt_entry "name" (option_map JStr (stripped_str (getn "fontName" node)))
    ++ size in
  let* fallback :=
    match getn "style" node with
    | JObj style =>
        let fb1 :=
          if Dict.mem "name" fallback then fallback
          else
            let v := py_or (getn "fontPostScriptName" style)
                           (getn "fontFamily" style) in
            match stripped_str v with
            | Some s => Dict.set "name" (JStr s) fallback
            | None => fallback
            end in
        let* fb2 :=
          if negb (Dict.mem "size" fb1) && is_number (getn "fontSize" style)
          then
            let* f := checked_float (getn "fontSize" style) in
            Ok (Dict.set "size" (JFloat f) fb1)
          else Ok fb1 in
        if is_number (getn "fontWeight" style)
        then
          let* f := checked_float (getn "fontWeight" style) in
          Ok (Dict.set "weight" (JFloat f) fb2)
        else Ok fb2
    | _ => Ok fallback
    end in
  Ok (dict_or_none
        (opt_entry "token" (option_map JStr (stripped_str token))
         ++ match fallback with
            | [] => []
            | _ => [("fallback", JObj fallback)]
            end)).

(** The shadow one effect contributes, if any. *)
Definition shadow_of (eff : json) : result (option json) :=
  match eff with
  | JObj e =>
      match get_or "visible" (JBool true) e with
      | JBool false => Ok None
      | _ =>
          let t := Str.upper (py_str (get_or "type" (JStr "") e)) in
          if String.eqb t "DROP_SHADOW" || String.eqb t "INNER_SHADOW" then
            let* offset :=
              match getn "offset" e with
              | JObj o =>
                  if is_number (getn "x" o) && is_number (getn "y" o)
                  then
                    let* x := checked_float (getn "x" o) in
                    let* y := checked_float (getn "y" o) in
                    Ok [("offset", JObj [("x", JFloat x); ("y", JFloat y)])]
                  else Ok []
              | _ => Ok []
              end in
            let* radius := num_entry "radius" (getn "radius" e) in
            let* spread := num_entry "spread" (getn "spread" e) in
            let* opacity := num_entry_unless 1 "opacity" (getn "opacity" e) in
            Ok (Some (JObj
                  ([("type", JStr t)]
                   ++ opt_entry "color"
                        (option_map JObj (color_spec (getn "color" e)))
                   ++ offset ++ radius ++ spread ++ opacity)))
          else Ok None
      end
  | _ => Ok None
  end.

Fixpoint filter_map {A B : Type} (f : A -> option B) (l : list A) : list B :=
  match l with
  | [] => []
  | x :: l' =>
      match f x with
      | Some y => y :: filter_map f l'
      | None => filter_map f l'
      end
  end.

(** A loop that appends what [f] gives for each item, when it gives
    something. *)
Fixpoint collect {A B : Type} (f : A -> result (option B)) (l : list A)
    : result (list B) :=
  match l with
  | [] => Ok []
  | x :: l' =>
      let* y := f x in
      let* ys := collect f l' in
      Ok (match y with Some y => y :: ys | None => ys end)
  end.

Definition extract_shadows (node : dict) : result (list json) :=
  match getn "effects" node with
  | JArr effects => collect shadow_of effects
  | _ => Ok []
  end.

Definition layout_keys : list string :=
  [ "layoutMode"; "layoutPositioning"; "layoutSizingHorizontal";
    "layoutSizingVertical"; "constraints"; "layoutGrow"; "layoutAlign";
    "itemSpacing"; "paddingLeft"; "paddingRight"; "paddingTop";
    "paddingBottom"; "primaryAxisAlignItems"; "counterAxisAlignItems";
    "layoutWrap" ].

Definition frame_keys : list string :=
  [ "x"; "y"; "width"; "height"; "rotation" ].

(** [{k: v for k in ks if node.get(k) is not None}]. *)
Definition copy_present (ks : list string) (node : dict) : dict :=
  flat_map (fun k => match getn k node with
                     | JNull => []
                     | v => [(k, v)]
                     end) ks.

Definition entry_if_nonempty (k : string) (d : dict) : dict :=
  match d with [] => [] | _ => [(k, JObj d)] end.

(** The characters entries of the [text] facts. *)
Definition text_characters (node : dict) (max_text_len : Z) : dict :=
  let chars := py_or (getn "characters" node) (getn "text" node) in
  match nonempty_str chars with
  | Some s =>
      if (0 <=? max_text_len)%Z
         && (max_text_len <? Z.of_nat (String.length s))%Z
      then [("characters", JStr (Str.take (Z.to_nat max_text_len) s ^^ "..."));
            ("charactersTruncated", JBool true)]
      else [("characters", JStr s)]
  | None => []
  end.

(** The [text] facts of a TEXT node. *)
Definition text_facts (node : dict) (max_text_len : Z) : result dict :=
  let characters := text_characters node max_text_len in
  let* font := extract_font node in
  let* fill := extract_solid_fill_color node in
  Ok (characters
      ++ opt_entry "font" (option_map JObj font)
      ++ match fill with
         | Some fill => [("textColor", getn "color" fill)]
         | None => []
         end).

(** The loop [for k in (...): v = node.get(k); if is_number(v):
    frame[k] = float(v)]. *)
Fixpoint number_entries (ks : list string) (node : dict) : result dict :=
  match ks with
  | [] => Ok []
  | k :: ks' =>
      let* entry := num_entry k (getn k node) in
      let* rest := number_entries ks' node in
      Ok (entry ++ rest)
  end.

Definition node_facts (node : dict) (max_text_len : Z) : result dict :=
  let figma_type := Str.upper (py_str (get_or "type" (JStr "") node)) in
  let* frame := number_entries frame_keys node in
  let layout := copy_present layout_keys node in
  let* bg := extract_solid_fill_color node in
  let* stroke := extract_solid_stroke node in
  let* corner := num_entry_unless 0 "cornerRadius" (getn "cornerRadius" node) in
  let* opacity := num_entry_unless 1 "opacity" (getn "opacity" node) in
  let* shadows := extract_shadows node in
  let style :=
    opt_entry "backgroundColor" (option_map JObj bg)
    ++ opt_entry "stroke" (option_map JObj stroke)
    ++ corner
    ++ opacity
    ++ match getn "clipsContent" node with
       | JBool true => [("clipsContent", JBool true)]
       | _ => []
       end
    ++ match shadows with
       | [] => []
       | _ => [("shadows", JArr shadows)]
       end in
  let* text :=
    if String.eqb figma_type "TEXT" then text_facts node max_text_len
    else Ok [] in
  let* image := extract_image node in
  Ok ([("nameTokens", JArr (List.map JStr (name_tokens (getn "name" node))));
       ("visible", JBool (truthy (get_or "visible" (JBool true) node)));
       ("locked", JBool (truthy (get_or "locked" (JBool false) node)))]
      ++ entry_if_nonempty "frame" frame
      ++ entry_if_nonempty "layout" layout
      ++ entry_if_nonempty "style" style
      ++ entry_if_nonempty "text" text
      ++ opt_entry "image" (option_map JObj image)).

(** *** Tree indexing *)

Definition select_root_node (payload : json) : result dict :=
  match payload with
  | JObj p =>
      match getn "document" p with
      | JObj document => Ok document
      | _ => Ok p
      end
  | _ => Raise "input JSON root must be an object"
  end.

Definition should_include_node (node : dict) (include_invisible : bool)
    : bool :=
  if include_invisible then true
  else truthy (get_or "visible" (JBool true) node).

(** The id a child contributes to its parent's [childIds]: the child is
    an object, is included and has a non-empty string id. *)
Definition listed_child_id (include_invisible : bool) (c : json)
    : option string :=
  match c with
  | JObj cf =>
      if should_include_node cf include_invisible
      then nonempty_str (getn "id" cf)
      else None
  | _ => None
  end.

Definition listed_child_ids (include_invisible : bool) (children_raw : json)
    : list string :=
  match children_raw with
  | JArr cs => filter_map (listed_child_id include_invisible) cs
  | _ => []
  end.

(** The record [visit] stores for a node, given its facts: [rec =
    {"id": ..., "name": ..., "type": ..., "parentId": ..., "depth": ...,
    "childIds": ..., "facts": ...}]. *)
Definition stored_record (include_invisible : bool) (node : dict)
    (node_id : string) (parent_id : option string) (depth : nat)
    (facts : dict) : NodeRecord.t :=
  NodeRecord.mk node_id
    (py_str (get_or "name" (JStr "") node))
    (py_str (get_or "type" (JStr "") node))
    parent_id depth
    (listed_child_ids include_invisible (getn "children" node))
    facts.

(** The inner function [visit] of [index_tree]; the dict [nodes] it
    fills is passed in and returned. A child that is not an object is
    passed over, which is what the last case does. An exception of
    [node_facts] ends the whole traversal. *)
Fixpoint visit (include_invisible : bool) (max_text_len : Z)
    (node : json) (parent_id : option string) (depth : nat)
    (nodes : node_map) {struct node} : result node_map :=
  match node with
  | JObj fields =>
      if negb (should_include_node fields include_invisible) then Ok nodes
      else
        match nonempty_str (getn "id" fields) with
        | None => Ok nodes
        | Some node_id =>
            if Dict.mem node_id nodes then Ok nodes
            else
              match node_facts fields max_text_len with
              | Raise msg => Raise msg
              | Ok facts =>
                  let rec :=
                    stored_record include_invisible fields node_id parent_id
                      depth facts in
                  let nodes1 := Dict.set node_id rec nodes in
                  Dict.with_field "children"
                    (fun v =>
                       match v with
                       | JArr cs =>
                           fold_left
                             (fun acc c =>
                                match acc with
                                | Ok nodes2 =>
                                    visit include_invisible max_text_len c
                                      (Some node_id) (S depth) nodes2
                                | Raise msg => Raise msg
                                end)
                             cs (Ok nodes1)
                       | _ => Ok nodes1
                       end)
                    (Ok nodes1) fields
              end
        end
  | _ => Ok nodes
  end.

Definition index_tree (root : dict) (include_invisible : bool)
    (max_text_len : Z) : result (string * node_map) :=
  match nonempty_str (getn "id" root) with
  | None => Raise "root node is missing a string 'id'"
  | Some root_id =>
      let* nodes :=
        visit include_invisible max_text_len (JObj root) None 0 [] in
      Ok (root_id, nodes)
  end.

(** *** Breadth-first order *)

(** The [while q:] loop of [bfs_order], one iteration per unit of
    [fuel]; [None] when the fuel runs out. *)
Fixpoint bfs_loop (fuel : nat) (nodes : node_map) (q seen order : list string)
    : option (list string) :=
  match q with
  | [] => Some order
  | nid :: q' =>
      match fuel with
      | 0 => None
      | S fuel' =>
          if Str.mem nid seen then bfs_loop fuel' nodes q' seen order
          else
            match Dict.get nid nodes with
            | None => bfs_loop fuel' nodes q' (nid :: seen) order
            | Some rec =>
                bfs_loop fuel' nodes (q' ++ NodeRecord.child_ids rec)
                  (nid :: seen) (order ++ [nid])
            end
      end
  end.

(** Iterations the loop can need: every entry of [nodes] is expanded at
    most once and then enqueues its children. *)
Definition bfs_fuel (nodes : node_map) : nat :=
  S (list_sum
       (List.map (fun kr => S (List.length (NodeRecord.child_ids (snd kr)))) nodes)).

Definition bfs_order (nodes : node_map) (root_id : string)
    : option (list string) :=
  bfs_loop (bfs_fuel nodes) nodes [root_id] [] [].

(** *** The commands that create, read and patch the state *)

Definition fail (code : Z) (msg : string) : Run :=
  mkRun code [msg] None None.

(** [cmd_init] on the parsed input. The loop of [bfs_order] always ends
    within its fuel ([bfs_order_total] below), so the branch for [None] is
    never taken. *)
Definition cmd_init (payload : json) (ui_system state_path : string)
    (include_invisible : bool) (max_text_len : Z) : Run :=
  match select_root_node payload with
  | Raise msg => fail 2 ("error: init failed: " ^^ msg)
  | Ok root =>
      match index_tree root include_invisible max_text_len with
      | Raise msg => fail 2 ("error: init failed: " ^^ msg)
      | Ok (root_id, nodes) =>
          match bfs_order nodes root_id with
          | None => fail 2 "error: init failed: "
          | Some order =>
              mkRun 0 []
                (Some (JObj
                   [("ok", JBool true);
                    ("state", JStr state_path);
                    ("rootId", JStr root_id);
                    ("nodeCount", JInt (Z.of_nat (List.length nodes)));
                    ("bfsCount", JInt (Z.of_nat (List.length order)))]))
                (Some (mkState ui_system root_id nodes order []))
          end
      end
  end.

Fixpoint first_undecided (order : list string) (decided : dict)
    : option string :=
  match order with
  | [] => None
  | nid :: rest =>
      if negb (Str.is_empty nid) && negb (Dict.mem nid decided)
      then Some nid
      else first_undecided rest decided
  end.

Definition _next_node_id (state : State) : option string :=
  first_undecided (bfs state) (decisions state).

(** What [cmd_next] answers: the done signal, the node the cursor is on,
    or a failure on a node id without a record. The context printed
    around the node (skeletons, requirements, hints) is not modelled. *)
Inductive NextAnswer : Type :=
| NextDone
| NextNode (nid : string)
| NextCorrupt (nid : string).

Definition cmd_next (state : State) : NextAnswer :=
  match _next_node_id state with
  | None => NextDone
  | Some nid =>
      match Dict.get nid (nodes state) with
      | Some _ => NextNode nid
      | None => NextCorrupt nid
      end
  end.

(** [{"id": nid, ...fields}] as a patch: the id and the other fields. *)
Definition patch_of_item (item : json) : option (string * json) :=
  match item with
  | JObj fields =>
      match nonempty_str (getn "id" fields) with
      | Some nid => Some (nid, JObj (Dict.remove "id" fields))
      | None => None
      end
  | _ => None
  end.

Definition patch_of_entry (e : string * json) : option (string * json) :=
  match e with
  | (nid, JObj dec) =>
      if Str.is_empty nid then None else Some (nid, JObj dec)
  | _ => None
  end.

Definition normalize_patch_payload (payload : json)
    : result (list (string * json)) :=
  let single (p : dict) :=
    match patch_of_item (JObj p) with
    | Some patch => Ok [patch]
    | None => Raise "unsupported patch JSON shape"
    end in
  match payload with
  | JArr items => Ok (filter_map patch_of_item items)
  | JObj p =>
      match Dict.get "decisions" p with
      | Some (JObj decs) => Ok (filter_map patch_of_entry decs)
      | _ => single p
      end
  | _ => Raise "unsupported patch JSON shape"
  end.

(** The loop of [cmd_apply] over the normalized patches: the decision
    store, the ids applied and the warnings printed, in order. *)
Fixpoint apply_patches (nodes : node_map) (patches : list (string * json))
    (decided : dict) (applied : list string) (warnings : list string)
    : dict * list string * list string :=
  match patches with
  | [] => (decided, applied, warnings)
  | (nid, decision) :: rest =>
      if negb (Dict.mem nid nodes) then
        apply_patches nodes rest decided applied
          (warnings ++
             ["warning: patch references unknown node id " ^^ nid ^^ "; skipped"])
      else
        match decision with
        | JObj _ =>
            apply_patches nodes rest (Dict.set nid decision decided)
              (applied ++ [nid]) warnings
        | _ =>
            apply_patches nodes rest decided applied
              (warnings ++
                 ["warning: decision for " ^^ nid ^^ " is not an object; skipped"])
        end
  end.

Definition cmd_apply (state : State) (patch_payload : json) : Run :=
  match normalize_patch_payload patch_payload with
  | Raise msg => fail 2 ("error: apply failed: " ^^ msg)
  | Ok patches =>
      match apply_patches (nodes state) patches (decisions state) [] [] with
      | (decided, applied, warnings) =>
          mkRun 0 warnings
            (Some (JObj
               [("ok", JBool true);
                ("applied", JArr (List.map JStr applied));
                ("appliedCount", JInt (Z.of_nat (List.length applied)))]))
            (Some (mkState (uiSystem state) (rootId state) (nodes state)
                     (bfs state) decided))
      end
  end.

(** *** The geometric-constraint hint *)

(** [add_pin]: integers are printed without a fraction. *)
Definition add_pin (pins : list string) (key : string) (value : float)
    : list string :=
  match Flt.to_Z value with
  | Some z => pins ++ [key ^^ "=" ^^ Str.of_Z z]
  | None => pins ++ [key ^^ "=" ^^ py_repr (JFloat value)]
  end.

(** The pins of one axis: [lead] and [trail] are the keys of the two
    edges and [mid] the key of the centre; [off], [size] and [extent] are
    the node's offset and size and the parent's size along the axis. *)
Definition axis_pins (pins : list string) (mode lead trail mid : string)
    (off size extent : float) : list string :=
  if String.eqb mode "MIN" then add_pin pins lead off
  else if String.eqb mode "MAX" then
    let inset := (extent - (off + size))%float in
    add_pin pins trail (- inset)%float
  else if String.eqb mode "CENTER" then
    let c := ((off + size / 2) - extent / 2)%float in
    add_pin pins mid c
  else if String.eqb mode "STRETCH" then
    let pins := add_pin pins lead off in
    let inset := (extent - (off + size))%float in
    add_pin pins trail (- inset)%float
  else if String.eqb mode "SCALE" then add_pin pins lead off
  else pins.

(** [part.split("=", 1)[0]]. *)
Definition pin_key (part : string) : string :=
  match Str.split1 "=" part with
  | Some (k, _) => k
  | None => part
  end.

Fixpoint uniq_pins (pins : list string) (seen_keys : list string)
    : list string :=
  match pins with
  | [] => []
  | part :: rest =>
      let k := pin_key part in
      if Str.mem k seen_keys then uniq_pins rest seen_keys
      else part :: uniq_pins rest (k :: seen_keys)
  end.

(** The pins collected from the constraints, before deduplication. *)
Definition collect_pins (layout constraints : dict) (x y w h pw ph : float)
    : list string :=
  let horiz := Str.upper (py_str (get_or "horizontal" (JStr "") constraints)) in
  let vert := Str.upper (py_str (get_or "vertical" (JStr "") constraints)) in
  let pins := axis_pins [] horiz "L" "R" "CX" x w pw in
  let pins := axis_pins pins vert "T" "B" "CY" y h ph in
  let sizing_h :=
    Str.upper (py_str (get_or "layoutSizingHorizontal" (JStr "") layout)) in
  let sizing_v :=
    Str.upper (py_str (get_or "layoutSizingVertical" (JStr "") layout)) in
  let pins :=
    if String.eqb sizing_h "FIXED" || String.eqb sizing_h ""
    then add_pin pins "W" w else pins in
  if String.eqb sizing_v "FIXED" || String.eqb sizing_v ""
  then add_pin pins "H" h else pins.

(** Whether an auto-layout parent positions the child itself: the
    parent's [layoutMode] is HORIZONTAL or VERTICAL and the child's
    [layoutPositioning] is not ABSOLUTE. A parent [layout] that is not an
    object imposes nothing. *)
Definition driven_by_parent (parent_layout : json) (layout : dict) : bool :=
  match parent_layout with
  | JObj pl =>
      let parent_layout_mode :=
        Str.upper (py_str (get_or "layoutMode" (JStr "") pl)) in
      let child_positioning :=
        Str.upper (py_str (get_or "layoutPositioning" (JStr "") layout)) in
      (String.eqb parent_layout_mode "HORIZONTAL"
       || String.eqb parent_layout_mode "VERTICAL")
      && negb (String.eqb child_positioning "ABSOLUTE")
  | _ => false
  end.

Definition compute_constraint_hints (nodes : node_map) (node_id : string)
    (parent_id : option string) : option string :=
  match parent_id with
  | None => None
  | Some pid =>
      if Str.is_empty pid then None
      else
        match Dict.get node_id nodes, Dict.get pid nodes with
        | Some n, Some p =>
            let facts := NodeRecord.facts n in
            let pfacts := NodeRecord.facts p in
            match get_or "layout" (JObj []) facts,
                  get_or "frame" (JObj []) facts,
                  get_or "frame" (JObj []) pfacts with
            | JObj layout, JObj frame, JObj pframe =>
                if driven_by_parent (get_or "layout" (JObj []) pfacts) layout
                then None
                else
                  match getn "constraints" layout with
                  | JObj constraints =>
                      let x := getn "x" frame in
                      let y := getn "y" frame in
                      let w := getn "width" frame in
                      let h := getn "height" frame in
                      let pw := getn "width" pframe in
                      let ph := getn "height" pframe in
                      if is_number x && is_number y && is_number w
                         && is_number h && is_number pw && is_number ph
                      then
                        match collect_pins layout constraints
                                (py_float x) (py_float y) (py_float w)
                                (py_float h) (py_float pw) (py_float ph) with
                        | [] => None
                        | pins =>
                            Some ("pins=" ^^ String.concat ":" (uniq_pins pins []))
                        end
                      else None
                  | _ => None
                  end
            | _, _, _ => None
            end
        | _, _ => None
        end
  end.

(** *** Export-time absorption *)

Definition get_component_base_from_spec (spec_node : json) : option string :=
  match spec_node with
  | JObj d =>
      match getn "component" d with
      | JObj comp => stripped_str (getn "base" comp)
      | _ => None
      end
  | _ => None
  end.

Definition base_component_from_decision (decision : json) : option string :=
  match decision with
  | JObj d =>
      match getn "component" d with
      | JObj comp => stripped_str (getn "base" comp)
      | _ => None
      end
  | _ => None
  end.

(** The dict [get_properties_dict] returns; it also stores an empty dict
    under ["properties"] when the node has none, which [absorb_node]
    accounts for when it writes the properties back. *)
Definition get_properties_dict (spec_node : dict) : dict :=
  match getn "properties" spec_node with
  | JObj props => props
  | _ => []
  end.

Definition child_source_id (child : json) : option string :=
  match child with
  | JObj c =>
      match getn "source" c with
      | JObj src => nonempty_str (getn "id" src)
      | _ => None
      end
  | _ => None
  end.

Definition child_properties (child : json) : dict :=
  match child with
  | JObj c =>
      match getn "properties" c with
      | JObj p => p
      | _ => []
      end
  | _ => []
  end.

(** [(get_component_base_from_spec(c) or "") == base]. *)
Definition has_base (base : string) (c : json) : bool :=
  match get_component_base_from_spec c with
  | Some cbase => String.eqb cbase base
  | None => false
  end.

(** The first index whose child satisfies [p], counting from [i]. *)
Fixpoint find_from (p : json -> bool) (i : nat) (l : list json) : option nat :=
  match l with
  | [] => None
  | c :: rest => if p c then Some i else find_from p (S i) rest
  end.

Definition first_index (p : json -> bool) (l : list json) : option nat :=
  find_from p 0 l.

(** [props[k] = v] guarded by ["k" not in props and ok(v)]. *)
Definition set_if_absent (k : string) (v : option json) (props : dict) : dict :=
  match v with
  | Some v => if Dict.mem k props then props else Dict.set k v props
  | None => props
  end.

(** A value copied together with the id it comes from ([key] and
    [key ^^ "From"]). *)
Definition copy_with_source (key : string) (v : option json) (c : json)
    (props : dict) : dict :=
  match v with
  | Some v =>
      if Dict.mem key props then props
      else
        let props := Dict.set key v props in
        match child_source_id c with
        | Some cid => Dict.set (key ^^ "From") (JStr cid) props
        | None => props
        end
  | None => props
  end.

Definition as_str (v : json) : option json :=
  match v with JStr _ => Some v | _ => None end.

Definition as_dict (v : json) : option json :=
  match v with JObj _ => Some v | _ => None end.

(** The button branches: the first label-class child gives the title,
    the first image-class child the image; both are marked for removal,
    whatever was copied. [uikit] adds the fields only UIKit copies. *)
Definition absorb_into_button (uikit : bool) (label_base image_base : string)
    (children : list json) (props : dict) : dict * list nat :=
  let label_i := first_index (has_base label_base) children in
  let image_i := first_index (has_base image_base) children in
  let '(props, removed) :=
    match label_i with
    | Some i =>
        let c := nth i children JNull in
        let cp := child_properties c in
        let props := copy_with_source "title" (as_str (getn "text" cp)) c props in
        let props :=
          if uikit then
            set_if_absent "titleFont" (as_dict (getn "font" cp))
              (set_if_absent "titleColor" (as_dict (getn "textColor" cp)) props)
          else props in
        (props, [i])
    | None => (props, [])
    end in
  match image_i with
  | Some i =>
      let c := nth i children JNull in
      let cp := child_properties c in
      let props := copy_with_source "image" (as_dict (getn "image" cp)) c props in
      let props :=
        if uikit then
          set_if_absent "imageContentMode" (as_str (getn "contentMode" cp)) props
        else props in
      (props, removed ++ [i])
  | None => (props, removed)
  end.

(** The image branches: a parent without an image of its own takes the
    image of its first image-class child that has one. *)
Definition absorb_into_image (image_base : string) (children : list json)
    (props : dict) : dict * list nat :=
  match getn "image" props with
  | JObj _ => (props, [])
  | _ =>
      let takes (c : json) :=
        has_base image_base c
        && match getn "image" (child_properties c) with
           | JObj _ => true
           | _ => false
           end in
      match first_index takes children with
      | Some i =>
          let c := nth i children JNull in
          let props := Dict.set "image" (getn "image" (child_properties c)) props in
          let props :=
            match child_source_id c with
            | Some cid => Dict.set "imageFrom" (JStr cid) props
            | None => props
            end in
          (props, [i])
      | None => (props, [])
      end
  end.

Fixpoint remove_indices (i : nat) (removed : list nat) (l : list json)
    : list json :=
  match l with
  | [] => []
  | c :: rest =>
      if existsb (Nat.eqb i) removed then remove_indices (S i) removed rest
      else c :: remove_indices (S i) removed rest
  end.

(** What [absorb_children_in_export_tree] does to a node once its
    children have been processed. *)
Definition absorb_node (ui_system : string) (spec_node : dict) : dict :=
  match get_component_base_from_spec (JObj spec_node) with
  | None => spec_node
  | Some base =>
      match getn "children" spec_node with
      | JArr ((_ :: _) as children) =>
          let props := get_properties_dict spec_node in
          let '(props, removed) :=
            if String.eqb ui_system "UIKit" then
              if String.eqb base "UIButton" then
                absorb_into_button true "UILabel" "UIImageView" children props
              else if String.eqb base "UIImageView" then
                absorb_into_image "UIImageView" children props
              else (props, [])
            else if String.eqb ui_system "SwiftUI" then
              if String.eqb base "Button" then
                absorb_into_button false "Text" "Image" children props
              else if String.eqb base "Image" then
                absorb_into_image "Image" children props
              else (props, [])
            else (props, []) in
          let spec_node := Dict.set "properties" (JObj props) spec_node in
          match removed with
          | [] => spec_node
          | _ =>
              Dict.set "children" (JArr (remove_indices 0 removed children))
                spec_node
          end
      | _ => spec_node
      end
  end.

(** [absorb_children_in_export_tree]: the children first, then the node
    itself. *)
Fixpoint absorb_children_in_export_tree (ui_system : string)
    (spec_node : json) {struct spec_node} : json :=
  match spec_node with
  | JObj fields =>
      let fields :=
        Dict.update "children"
          (fun v =>
             match v with
             | JArr children =>
                 JArr (List.map (absorb_children_in_export_tree ui_system)
                         children)
             | _ => v
             end)
          fields in
      JObj (absorb_node ui_system fields)
  | _ => spec_node
  end.

(** *** The validator *)

Definition PINS_ALLOWED_KEYS : list string :=
  [ "L"; "R"; "T"; "B"; "CX"; "CY"; "W"; "H" ].

(** One part of a pins body: the pair it contributes, or its error. *)
Definition parse_pin_part (part : string) : (string * float) + string :=
  match Str.split1 "=" part with
  | None => inr ("pins_bad_part:" ^^ part)
  | Some (key, raw_val) =>
      let key := Str.upper (Str.strip key) in
      let raw_val := Str.strip raw_val in
      if negb (Str.mem key PINS_ALLOWED_KEYS)
      then inr ("pins_unknown_key:" ^^ key)
      else
        match py_parse_float raw_val with
        | None => inr ("pins_bad_value:" ^^ key ^^ "=" ^^ raw_val)
        | Some val => inl (key, val)
        end
  end.

Fixpoint parse_pin_parts (parts : list string) (out : Dict.t float)
    (errors : list string) : Dict.t float * list string :=
  match parts with
  | [] => (out, errors)
  | part :: rest =>
      let part := Str.strip part in
      if Str.is_empty part then parse_pin_parts rest out errors
      else
        match parse_pin_part part with
        | inl (key, val) =>
            parse_pin_parts rest (Dict.set key val out) errors
        | inr e => parse_pin_parts rest out (errors ++ [e])
        end
  end.

Definition parse_pins (pins : json) : option (Dict.t float) * list string :=
  match stripped_str pins with
  | None => (None, ["pins_not_a_string"])
  | Some s =>
      if negb (Str.startswith "pins=" s) then (None, ["pins_missing_prefix"])
      else
        let body := Str.strip (Str.drop 5 s) in
        if Str.is_empty body then (None, ["pins_empty"])
        else
          match parse_pin_parts (Str.split ":" body) [] [] with
          | (out, []) =>
              match out with
              | [] => (None, ["pins_no_pairs"])
              | _ => (Some out, [])
              end
          | (_, errors) => (None, errors)
          end
  end.

(** The findings of [cmd_validate]: the two lists it appends to. *)
Record Findings : Type := mkFindings {
  errors : list json;
  warnings : list json
}.

Definition err (node_id msg : string) (detail : option json) (f : Findings)
    : Findings :=
  mkFindings
    (errors f ++ [JObj ([("nodeId", JStr node_id); ("error", JStr msg)]
                        ++ opt_entry "detail" detail)])
    (warnings f).

Definition warn (node_id msg : string) (detail : option json) (f : Findings)
    : Findings :=
  mkFindings
    (errors f)
    (warnings f ++ [JObj ([("nodeId", JStr node_id); ("warning", JStr msg)]
                          ++ opt_entry "detail" detail)]).

Definition when (b : bool) (g : Findings -> Findings) (f : Findings)
    : Findings :=
  if b then g f else f.

Definition json_is_str (s : string) (v : json) : bool :=
  match v with JStr s' => String.eqb s' s | _ => false end.

Definition LAYOUT_KINDS : list string :=
  [ "root"; "stack"; "stackItem"; "pins"; "list"; "scroll" ].

(** The checks on a [layout] object. *)
Definition check_layout (node_id : string) (layout : dict) (f : Findings)
    : Findings :=
  let kind := getn "kind" layout in
  let f :=
    match kind with
    | JNull => f
    | JStr k =>
        when (negb (Str.mem k LAYOUT_KINDS))
          (warn node_id "layout_kind_unknown" (Some kind)) f
    | _ => err node_id "layout_kind_not_string" None f
    end in
  let f :=
    match getn "pins" layout with
    | JNull => f
    | pins =>
        match snd (parse_pins pins) with
        | [] => f
        | perr =>
            err node_id "invalid_pins_string"
              (Some (JArr (List.map JStr perr))) f
        end
    end in
  when (json_is_str "stack" kind)
    (when (negb (json_is_str "horizontal" (getn "axis" layout)
                 || json_is_str "vertical" (getn "axis" layout)))
       (err node_id "stack_axis_missing_or_invalid" None)) f.

(** The cell sizing rules, for a decision whose [base] is a string. *)
Definition check_cell (node_id : string) (base : string)
    (layout : option dict) (f : Findings) : Findings :=
  if Str.mem (Str.strip base) ["UITableViewCell"; "UICollectionViewCell"] then
    match layout with
    | None => err node_id "cell_missing_layout" None f
    | Some layout =>
        let cs := getn "cellSizing" layout in
        let f :=
          when (negb (json_is_str "selfSizing" cs || json_is_str "fixed" cs))
            (err node_id "cellSizing_missing_or_invalid" None) f in
        when (json_is_str "fixed" cs)
          (when (match getn "fixedSize" layout with
                 | JObj fs =>
                     negb (is_number (getn "width" fs))
                     || negb (is_number (getn "height" fs))
                 | _ => true
                 end)
             (err node_id "fixed_cell_requires_fixedSize_width_height" None)) f
    end
  else f.

(** The first loop of [cmd_validate], for one node id. *)
Definition check_decision (ui_system : string) (decided : dict)
    (node_id : string) (f : Findings) : Findings :=
  match getn node_id decided with
  | JNull => warn node_id "missing_decision" None f
  | JObj dec =>
      match getn "component" dec with
      | JObj comp =>
          let base := getn "base" comp in
          let f :=
            when (match stripped_str base with None => true | Some _ => false end)
              (err node_id "missing_component_base" None) f in
          let layout := getn "layout" dec in
          let f :=
            match layout with
            | JNull | JObj _ => f
            | _ => err node_id "layout_not_object" None f
            end in
          let layout :=
            match layout with JObj l => Some l | _ => None end in
          let f :=
            match layout with
            | Some l => check_layout node_id l f
            | None => f
            end in
          match base with
          | JStr b =>
              when (String.eqb ui_system "UIKit") (check_cell node_id b layout) f
          | _ => f
          end
      | _ => err node_id "missing_component_object" None f
      end
  | _ => err node_id "decision_not_object" None f
  end.

Definition detail_of (fields : dict) : option json := Some (JObj fields).

(** A child under a list container: it must be the matching cell. *)
Definition check_cell_child (decided : dict) (node_id must cid : string)
    (f : Findings) : Findings :=
  match base_component_from_decision (getn cid decided) with
  | None =>
      warn cid "child_missing_decision_under_list_container"
        (detail_of [("parent", JStr node_id); ("mustBe", JStr must)]) f
  | Some cbase =>
      when (negb (String.eqb cbase must))
        (err cid "child_component_must_be_cell"
           (detail_of [("parent", JStr node_id); ("mustBe", JStr must);
                       ("actual", JStr cbase)])) f
  end.

(** A child under a parent that only allows some classes: a warning for
    any other class, nothing for a child without a decision. *)
Definition check_allowed_child (decided : dict) (msg : string)
    (allowed : list string) (node_id cid : string) (f : Findings) : Findings :=
  match base_component_from_decision (getn cid decided) with
  | None => f
  | Some cbase =>
      when (negb (Str.mem cbase allowed))
        (warn cid msg
           (detail_of [("parent", JStr node_id); ("actual", JStr cbase)])) f
  end.

Definition for_each (child_ids : list string)
    (body : string -> Findings -> Findings) (f : Findings) : Findings :=
  fold_left (fun f cid => body cid f) child_ids f.

(** The second loop of [cmd_validate], for one entry of [nodes]. *)
Definition check_children (ui_system : string) (decided : dict)
    (entry : string * NodeRecord.t) (f : Findings) : Findings :=
  let node_id := fst entry in
  let parent_base :=
    match base_component_from_decision (getn node_id decided) with
    | Some b => b
    | None => EmptyString
    end in
  match NodeRecord.child_ids (snd entry) with
  | [] => f
  | child_ids =>
      let f :=
        when (String.eqb ui_system "UIKit")
          (fun f =>
             let f :=
               when (Str.mem parent_base ["UICollectionView"; "UITableView"])
                 (for_each child_ids
                    (check_cell_child decided node_id
                       (if String.eqb parent_base "UICollectionView"
                        then "UICollectionViewCell" else "UITableViewCell")))
                 f in
             when (String.eqb parent_base "UIButton")
               (for_each child_ids
                  (check_allowed_child decided "unexpected_child_under_UIButton"
                     ["UILabel"; "UIImageView"] node_id)) f)
          f in
      when (String.eqb ui_system "SwiftUI")
        (fun f =>
           let f :=
             when (String.eqb parent_base "Button")
               (for_each child_ids
                  (check_allowed_child decided "unexpected_child_under_Button"
                     ["Text"; "Image"; "Label"; "View"] node_id)) f in
           when (String.eqb parent_base "List")
             (for_each child_ids
                (check_allowed_child decided "unexpected_child_under_List"
                   ["View"; "Text"; "Image"; "HStack"; "VStack"; "ZStack"]
                   node_id)) f)
        f
  end.

Definition validate (state : State) : Findings :=
  let ui_system := uiSystem state in
  let f := mkFindings [] [] in
  let f :=
    fold_left (fun f node_id => check_decision ui_system (decisions state) node_id f)
      (Dict.keys (nodes state)) f in
  fold_left (fun f entry => check_children ui_system (decisions state) entry f)
    (nodes state) f.

(** [cmd_validate] on a loaded state: the report it prints and the
    status it returns. *)
Definition cmd_validate (state : State) : Run :=
  let f := validate state in
  let ok := match errors f with [] => true | _ => false end in
  mkRun (if ok then 0 else 1)%Z []
    (Some (JObj [("ok", JBool ok);
                 ("errors", JArr (errors f));
                 ("warnings", JArr (warnings f))]))
    None.

(** *** Skeletons, requirements and hints *)

Definition node_skeleton (nodes : node_map) (node_id : string) : option dict :=
  match Dict.get node_id nodes with
  | Some n =>
      Some [("id", JStr (NodeRecord.id n));
            ("name", JStr (NodeRecord.name n));
            ("type", JStr (NodeRecord.type_ n));
            ("depth", JInt (Z.of_nat (NodeRecord.depth n)));
            ("childCount",
             JInt (Z.of_nat (List.length (NodeRecord.child_ids n))))]
  | None => None
  end.

(** [skeleton_tree] for a depth that has been clamped at zero: the
    source stops at [depth <= 0] and recurses with [depth - 1]. [frames]
    is the number of calls the interpreter still lets nest below this
    one: a call for a child when none is left raises [RecursionError]. *)
Fixpoint skeleton_tree (frames : nat) (nodes : node_map) (node_id : string)
    (depth : nat) {struct depth} : result (option dict) :=
  match node_skeleton nodes node_id with
  | None => Ok None
  | Some sk =>
      match depth with
      | 0 => Ok (Some sk)
      | S depth' =>
          let child_ids :=
            match Dict.get node_id nodes with
            | Some n => NodeRecord.child_ids n
            | None => []
            end in
          let* children :=
            collect
              (fun cid =>
                 match frames with
                 | 0 => Raise recursion_error
                 | S frames' =>
                     let* child_sk :=
                       skeleton_tree frames' nodes cid depth' in
                     Ok (option_map JObj child_sk)
                 end)
              child_ids in
          Ok (Some (Dict.set "children" (JArr children) sk))
      end
  end.

(** The skeletons of the children that have a record, as [cmd_children]
    and [cmd_next] list them. *)
Definition child_skeletons (nodes : node_map) (child_ids : list string)
    : list json :=
  filter_map (fun cid => option_map JObj (node_skeleton nodes cid)) child_ids.

Definition requirements_for_child (parent_decision : json) : dict :=
  match base_component_from_decision parent_decision with
  | None => []
  | Some base =>
      if String.eqb base "UICollectionView" then
        [("mustUseComponentBase", JStr "UICollectionViewCell")]
      else if String.eqb base "UITableView" then
        [("mustUseComponentBase", JStr "UITableViewCell")]
      else if String.eqb base "UIButton" then
        [("allowedComponentBases", JArr [JStr "UILabel"; JStr "UIImageView"]);
         ("role", JStr "button-contained")]
      else if String.eqb base "List" then
        [("hint",
          JStr "List children should be row views (usually custom Views).")]
      else if String.eqb base "Button" then
        [("allowedComponentBases",
          JArr [JStr "Text"; JStr "Image"; JStr "Label"; JStr "View"]);
         ("role", JStr "button-label")]
      else []
  end.

(** [v or {}] when that is a dict. *)
Definition or_empty_dict (v : json) : option dict :=
  if truthy v then match v with JObj d => Some d | _ => None end
  else Some [].

(** [set(str(t) for t in tokens if isinstance(t, str))], as a list. *)
Definition token_set (facts : dict) : list string :=
  match getn "nameTokens" facts with
  | JArr tokens =>
      filter_map (fun t => match t with JStr s => Some s | _ => None end)
        tokens
  | _ => []
  end.

(** [bool(has.intersection(group))]. *)
Definition intersects (has group : list string) : bool :=
  existsb (fun t => Str.mem t group) has.

Definition hint (base : string) (reasons : list string) : dict :=
  [("base", JStr base); ("reasons", JArr (List.map JStr reasons))].

Definition component_hint_from_node_record (node_rec : NodeRecord.t)
    (ui_system : string) : dict :=
  let figma_type := Str.upper (NodeRecord.type_ node_rec) in
  let facts := NodeRecord.facts node_rec in
  let layout :=
    match or_empty_dict (getn "layout" facts) with
    | Some l => l
    | None => []
    end in
  let layout_mode := Str.upper (py_str (get_or "layoutMode" (JStr "") layout)) in
  let has := token_set facts in
  let is_table_hint := intersects has ["table"; "tableview"; "list"; "feed"] in
  let is_collection_hint :=
    intersects has ["collection"; "collectionview"; "grid"; "carousel";
                    "gallery"] in
  let is_scroll_hint :=
    intersects has ["scroll"; "scrollview"; "scroller"; "pager"; "pageview"] in
  let is_button_hint := intersects has ["button"; "btn"; "cta"] in
  let is_icon_hint :=
    intersects has ["icon"; "image"; "img"; "avatar"; "photo"; "logo";
                    "thumbnail"; "thumb"] in
  let is_label_hint :=
    intersects has ["label"; "title"; "subtitle"; "caption"; "headline";
                    "body"; "description"; "text"] in
  let uikit := String.eqb ui_system "UIKit" in
  if String.eqb figma_type "TEXT" then
    hint (if uikit then "UILabel" else "Text") ["figma_type=TEXT"]
  else if String.eqb figma_type "IMAGE" then
    hint (if uikit then "UIImageView" else "Image") ["figma_type=IMAGE"]
  else if String.eqb layout_mode "HORIZONTAL"
          || String.eqb layout_mode "VERTICAL" then
    let reasons := ["layoutMode=" ^^ layout_mode] in
    if uikit then hint "UIStackView" reasons
    else hint (if String.eqb layout_mode "HORIZONTAL" then "HStack"
               else "VStack") reasons
  else if is_table_hint || is_collection_hint || is_scroll_hint then
    let reasons := ["name_suggests_list_or_scroll"] in
    if uikit then
      if is_collection_hint then hint "UICollectionView" reasons
      else if is_table_hint then hint "UITableView" reasons
      else hint "UICollectionView" reasons
    else if is_table_hint && negb is_collection_hint then hint "List" reasons
    else hint "ScrollView" reasons
  else if is_button_hint then
    hint (if uikit then "UIButton" else "Button") ["name_suggests_button"]
  else if is_icon_hint then
    hint (if uikit then "UIImageView" else "Image") ["name_suggests_image"]
  else if is_label_hint then
    hint (if uikit then "UILabel" else "Text") ["name_suggests_text"]
  else hint (if uikit then "UIView" else "View") ["default"].

Definition cell_sizing_hint_from_node_record (node_rec : NodeRecord.t)
    : option dict :=
  let facts := NodeRecord.facts node_rec in
  match or_empty_dict (getn "layout" facts),
        or_empty_dict (getn "frame" facts) with
  | Some layout, Some frame =>
      let h :=
        Str.upper (py_str (get_or "layoutSizingHorizontal" (JStr "") layout)) in
      let v :=
        Str.upper (py_str (get_or "layoutSizingVertical" (JStr "") layout)) in
      if String.eqb h "HUG" || String.eqb v "HUG" then
        Some [("cellSizing", JStr "selfSizing");
              ("reason", JStr "layoutSizingHorizontal/Vertical has HUG")]
      else if is_number (getn "width" frame) && is_number (getn "height" frame)
      then
        Some [("cellSizing", JStr "fixed");
              ("fixedSize",
               JObj [("width", JFloat (py_float (getn "width" frame)));
                     ("height", JFloat (py_float (getn "height" frame)))]);
              ("reason", JStr "no HUG sizing; using frame width/height")]
      else
        Some [("cellSizing", JStr "fixed");
              ("reason", JStr "no HUG sizing; missing frame width/height")]
  | _, _ => None
  end.

Definition content_mode_hint_from_facts (facts : dict) (ui_system : string)
    : option string :=
  match getn "image" facts with
  | JObj image =>
      let scale := Str.upper (py_str (get_or "scaleMode" (JStr "") image)) in
      if Str.is_empty scale then None
      else if String.eqb ui_system "UIKit" then
        if String.eqb scale "FIT" then Some "scaleAspectFit"
        else if String.eqb scale "FILL" then Some "scaleAspectFill"
        else if String.eqb scale "STRETCH" then Some "scaleToFill"
        else if String.eqb scale "TILE" then Some "center"
        else None
      else
        if String.eqb scale "FIT" then Some "aspectRatio(.fit)"
        else if String.eqb scale "FILL" then Some "aspectRatio(.fill)"
        else None
  | _ => None
  end.

(** *** The commands that only read the state *)

Definition or_null (o : option dict) : json :=
  match o with Some d => JObj d | None => JNull end.

(** [cmd_skeleton]: [node_id] is the [--node-id] argument when given,
    [depth] the [--depth] argument. *)
Definition cmd_skeleton (state : State) (node_id : option string) (depth : Z)
    : Run :=
  let node_id :=
    match node_id with
    | Some nid => if Str.is_empty nid then rootId state else nid
    | None => rootId state
    end in
  match skeleton_tree recursion_limit (nodes state) node_id
          (Z.to_nat depth) with
  | Ok (Some sk) => mkRun 0 [] (Some (JObj [("node", JObj sk)])) None
  | Ok None =>
      fail 2 ("error: skeleton failed: " ^^ "unknown node id: " ^^ node_id)
  | Raise msg => fail 2 ("error: skeleton failed: " ^^ msg)
  end.

Definition cmd_children (state : State) (nid : string) : Run :=
  match Dict.get nid (nodes state) with
  | None => fail 2 ("error: children failed: " ^^ "unknown node id: " ^^ nid)
  | Some n =>
      mkRun 0 []
        (Some (JObj [("nodeId", JStr nid);
                     ("children",
                      JArr (child_skeletons (nodes state)
                              (NodeRecord.child_ids n)))]))
        None
  end.

Definition cmd_facts (state : State) (nid : string) : Run :=
  match Dict.get nid (nodes state) with
  | None => fail 2 ("error: facts failed: " ^^ "unknown node id: " ^^ nid)
  | Some n =>
      mkRun 0 []
        (Some (JObj [("nodeId", JStr nid);
                     ("facts", JObj (NodeRecord.facts n))]))
        None
  end.

(** The hints [cmd_next] attaches to a node. Each of them is non-empty
    when it is there, so the source's truth tests only tell a hint from
    [None]. *)
Definition next_hints (state : State) (nid : string) (n : NodeRecord.t)
    (req : dict) : dict :=
  let ui_system := uiSystem state in
  opt_entry "pinsCandidate"
    (option_map JStr
       (compute_constraint_hints (nodes state) nid (NodeRecord.parent_id n)))
  ++ [("componentHint", JObj (component_hint_from_node_record n ui_system))]
  ++ (if String.eqb ui_system "UIKit"
         && (json_is_str "UITableViewCell" (getn "mustUseComponentBase" req)
             || json_is_str "UICollectionViewCell"
                  (getn "mustUseComponentBase" req))
      then opt_entry "cellSizingHint"
             (option_map JObj (cell_sizing_hint_from_node_record n))
      else [])
  ++ opt_entry "contentModeHint"
       (option_map JStr
          (content_mode_hint_from_facts (NodeRecord.facts n) ui_system)).

(** The context [cmd_next] prints for the node [nid] with record [n]. *)
Definition next_context (state : State) (nid : string) (n : NodeRecord.t)
    : dict :=
  let parent_sk :=
    match NodeRecord.parent_id n with
    | Some pid => or_null (node_skeleton (nodes state) pid)
    | None => JNull
    end in
  let parent_decision :=
    match NodeRecord.parent_id n with
    | Some pid => getn pid (decisions state)
    | None => JNull
    end in
  let req := requirements_for_child parent_decision in
  [("uiSystem", JStr (uiSystem state));
   ("node", or_null (node_skeleton (nodes state) nid));
   ("parent", parent_sk);
   ("parentDecision", parent_decision);
   ("requirements", JObj req);
   ("facts", JObj (NodeRecord.facts n));
   ("children",
    JArr (child_skeletons (nodes state) (NodeRecord.child_ids n)));
   ("hints", JObj (next_hints state nid n req))].

(** [cmd_next] with all it prints. *)
Definition cmd_next_run (state : State) : Run :=
  match _next_node_id state with
  | None => mkRun 0 [] (Some (JObj [("done", JBool true)])) None
  | Some nid =>
      match Dict.get nid (nodes state) with
      | Some n => mkRun 0 [] (Some (JObj (next_context state nid n))) None
      | None => fail 2 ("error: next failed: " ^^ "corrupt node record: " ^^ nid)
      end
  end.

Definition cmd_status (state : State) : Run :=
  let total := Z.of_nat (List.length (nodes state)) in
  let decided := Z.of_nat (List.length (decisions state)) in
  let remaining := Z.max 0 (total - decided) in
  mkRun 0 []
    (Some (JObj
       [("uiSystem", JStr (uiSystem state));
        ("rootId", JStr (rootId state));
        ("nodeCount", JInt total);
        ("decidedCount", JInt decided);
        ("remainingCount", JInt remaining);
        ("bfsCount", JInt (Z.of_nat (List.length (bfs state))));
        ("nextNodeId",
         match _next_node_id state with
         | Some nid => JStr nid
         | None => JNull
         end)]))
    None.

(** *** Export *)

(** [Some] of all the values when none is missing. *)
Fixpoint all_some {A : Type} (l : list (option A)) : option (list A) :=
  match l with
  | [] => Some []
  | None :: _ => None
  | Some a :: l' =>
      match all_some l' with
      | Some r => Some (a :: r)
      | None => None
      end
  end.

(** What [build_export_tree] puts in [out] before the children: the
    source identity, then the keys of the decision when it is a non-empty
    object, the undecided marker otherwise. *)
Definition export_head (state : State) (node_id : string) : dict :=
  let n := Dict.get node_id (nodes state) in
  let field (f : NodeRecord.t -> string) : json :=
    match n with Some r => JStr (f r) | None => JNull end in
  let source :=
    [("id", field NodeRecord.id); ("name", field NodeRecord.name);
     ("type", field NodeRecord.type_)] in
  let out := [("source", JObj source)] in
  match getn node_id (decisions state) with
  | JObj ((_ :: _) as decision) =>
      fold_left (fun out kv => Dict.set (fst kv) (snd kv) out) decision out
  | _ =>
      Dict.set "warnings" (JArr [JStr "missing_decision"])
        (Dict.set "component" (JObj [("base", JStr "__UNDECIDED__")]) out)
  end.

(** [build_export_tree], one unit of [fuel] per nested call; [None]
    when the recursion has not ended within the fuel. *)
Fixpoint build_export_tree (fuel : nat) (state : State) (node_id : string)
    : option json :=
  match fuel with
  | 0 => None
  | S fuel' =>
      let child_ids :=
        match Dict.get node_id (nodes state) with
        | Some n => NodeRecord.child_ids n
        | None => []
        end in
      match all_some
              (List.map (build_export_tree fuel' state)
                 (filter (fun cid => Dict.mem cid (nodes state)) child_ids)) with
      | Some children_out =>
          Some (JObj (Dict.set "children" (JArr children_out)
                        (export_head state node_id)))
      | None => None
      end
  end.

(** [cmd_export] on a loaded state, the JSON it prints or writes being
    the [stdout] of the run. [None] stands for a recursion that does not
    end within [fuel] calls; the interpreter's recursion limit, which
    turns that into a failure, is not modelled. *)
Definition cmd_export (fuel : nat) (state : State) (no_absorb : bool)
    : option Run :=
  match build_export_tree fuel state (rootId state) with
  | None => None
  | Some tree =>
      let root :=
        if no_absorb then tree
        else absorb_children_in_export_tree (uiSystem state) tree in
      Some (mkRun 0 []
              (Some (JObj [("uiSystem", JStr (uiSystem state));
                           ("root", root)]))
              None)
  end.

(** *** Vocabulary of the properties *)

(** The facts [node_facts] returns for a node, and none where it
    raises; the record made of them. *)
Definition facts_of (node : dict) (max_text_len : Z) : dict :=
  returned [] (node_facts node max_text_len).

Definition node_record (include_invisible : bool) (max_text_len : Z)
    (node : dict) (node_id : string) (parent_id : option string)
    (depth : nat) : NodeRecord.t :=
  stored_record include_invisible node node_id parent_id depth
    (facts_of node max_text_len).

(** The state a run saved, for the commands that save one. *)
Definition init_saves (payload : json) (ui_system state_path : string)
    (include_invisible : bool) (max_text_len : Z) (s : State) : Prop :=
  saved (cmd_init payload ui_system state_path include_invisible max_text_len)
  = Some s.

Definition apply_saves (s : State) (patch_payload : json) (s' : State) : Prop :=
  saved (cmd_apply s patch_payload) = Some s'.

(** The states of a workflow: the one [cmd_init] saves, and those
    [cmd_apply] saves from it. *)
Inductive reachable : State -> Prop :=
| reach_init payload ui_system state_path include_invisible max_text_len s :
    init_saves payload ui_system state_path include_invisible max_text_len s ->
    reachable s
| reach_apply s patch_payload s' :
    reachable s -> apply_saves s patch_payload s' -> reachable s'.

(** Any number of further [cmd_apply] runs. *)
Inductive applies : State -> State -> Prop :=
| applies_none s : applies s s
| applies_more s patch_payload s' s'' :
    apply_saves s patch_payload s' -> applies s' s'' -> applies s s''.

Definition decided (s : State) (nid : string) : bool :=
  Dict.mem nid (decisions s).

(** [nid] is the first id of the breadth-first order without an entry
    in the decision store. *)
Definition first_without_entry (s : State) (nid : string) : Prop :=
  exists before after,
    bfs s = before ++ nid :: after
    /\ Forall (fun x => decided s x = true) before
    /\ decided s nid = false.

(** One round of the workflow: a decision [d] for the node [next]
    returns is applied, as a one-element list patch; nothing happens once
    [next] answers done. *)
Definition decide_next (s : State) (d : dict) : State :=
  match _next_node_id s with
  | Some nid =>
      match saved (cmd_apply s (JArr [JObj (("id", JStr nid) :: d)])) with
      | Some s' => s'
      | None => s
      end
  | None => s
  end.

(** The ids a patch list touches: those [cmd_apply] reports as applied. *)
Definition touched (nodes : node_map) (patches : list (string * json))
    : list string :=
  snd (fst (apply_patches nodes patches [] [] [])).

(** The entry a patch list holds for [nid]: the decision of its last
    applied patch for that id. *)
Fixpoint patch_entry (nodes : node_map) (patches : list (string * json))
    (nid : string) : option json :=
  match patches with
  | [] => None
  | (k, decision) :: rest =>
      match patch_entry nodes rest nid with
      | Some d => Some d
      | None =>
          match decision with
          | JObj _ =>
              if String.eqb nid k && Dict.mem k nodes then Some decision
              else None
          | _ => None
          end
      end
  end.

(** [a] occurs in [l], and [b] occurs somewhere after it. *)
Definition strictly_before (a b : string) (l : list string) : Prop :=
  exists l1 l2 l3, l = l1 ++ a :: l2 ++ b :: l3.

(** Every record with a [parentId] has its parent's record in the map,
    at a strictly lower depth. *)
Definition parents_shallower (nodes : node_map) : Prop :=
  forall x r p,
    Dict.get x nodes = Some r -> NodeRecord.parent_id r = Some p ->
    exists rp, Dict.get p nodes = Some rp
               /\ NodeRecord.depth rp < NodeRecord.depth r.

(** Every record with a [parentId] comes after its parent in [order]. *)
Definition parents_first (nodes : node_map) (order : list string) : Prop :=
  forall x r p,
    Dict.get x nodes = Some r -> NodeRecord.parent_id r = Some p ->
    strictly_before p x order.

(** The ids of the nodes the traversal can reach, in document order and
    with repetitions: the included objects with a non-empty string id,
    below included objects only. *)
Fixpoint tree_ids (include_invisible : bool) (node : json) {struct node}
    : list string :=
  match node with
  | JObj fields =>
      if negb (should_include_node fields include_invisible) then []
      else
        match nonempty_str (getn "id" fields) with
        | None => []
        | Some node_id =>
            node_id ::
            Dict.with_field "children"
              (fun v =>
                 match v with
                 | JArr cs => flat_map (tree_ids include_invisible) cs
                 | _ => []
                 end)
              [] fields
        end
  | _ => []
  end.

(** The records of a tree without repeated ids, in document order. *)
Fixpoint tree_records (include_invisible : bool) (max_text_len : Z)
    (node : json) (parent_id : option string) (depth : nat) {struct node}
    : node_map :=
  match node with
  | JObj fields =>
      if negb (should_include_node fields include_invisible) then []
      else
        match nonempty_str (getn "id" fields) with
        | None => []
        | Some node_id =>
            (node_id,
             node_record include_invisible max_text_len fields node_id
               parent_id depth) ::
            Dict.with_field "children"
              (fun v =>
                 match v with
                 | JArr cs =>
                     flat_map
                       (fun c =>
                          tree_records include_invisible max_text_len c
                            (Some node_id) (S depth))
                       cs
                 | _ => []
                 end)
              [] fields
        end
  | _ => []
  end.

(** The number entry [k] of a node's [frame] facts. *)
Definition frame_number (nodes : node_map) (node_id k : string) : option float :=
  match Dict.get node_id nodes with
  | Some n =>
      match get_or "frame" (JObj []) (NodeRecord.facts n) with
      | JObj frame =>
          if is_number (getn k frame) then Some (py_float (getn k frame))
          else None
      | _ => None
      end
  | None => None
  end.

Definition has_number (nodes : node_map) (node_id k : string) : bool :=
  match frame_number nodes node_id k with Some _ => true | None => false end.

(** Complete frame geometry: x, y, width and height are numbers. *)
Definition complete_frame (nodes : node_map) (node_id : string) : bool :=
  has_number nodes node_id "x" && has_number nodes node_id "y"
  && has_number nodes node_id "width" && has_number nodes node_id "height".

(** The frame has its two sizes. *)
Definition sized_frame (nodes : node_map) (node_id : string) : bool :=
  has_number nodes node_id "width" && has_number nodes node_id "height".

Definition layout_of (nodes : node_map) (node_id : string) : option dict :=
  match Dict.get node_id nodes with
  | Some n =>
      match get_or "layout" (JObj []) (NodeRecord.facts n) with
      | JObj layout => Some layout
      | _ => None
      end
  | None => None
  end.

(** The node's raw [constraints] object, when its layout facts hold one. *)
Definition constraints_of (nodes : node_map) (node_id : string) : option dict :=
  match layout_of nodes node_id with
  | Some layout =>
      match getn "constraints" layout with
      | JObj constraints => Some constraints
      | _ => None
      end
  | None => None
  end.

Definition has_constraints (nodes : node_map) (node_id : string) : bool :=
  match constraints_of nodes node_id with Some _ => true | None => false end.

(** The constraint of one axis, upper-cased as the code reads it. *)
Definition axis_constraint (nodes : node_map) (node_id axis : string)
    : option string :=
  match constraints_of nodes node_id with
  | Some constraints =>
      Some (Str.upper (py_str (get_or axis (JStr "") constraints)))
  | None => None
  end.

(** The parent is an auto-layout container. *)
Definition auto_layout (nodes : node_map) (parent_id : string) : bool :=
  match layout_of nodes parent_id with
  | Some pl =>
      let m := Str.upper (py_str (get_or "layoutMode" (JStr "") pl)) in
      String.eqb m "HORIZONTAL" || String.eqb m "VERTICAL"
  | None => false
  end.

(** The node opts out of auto-layout positioning. *)
Definition positioned_absolute (nodes : node_map) (node_id : string) : bool :=
  match layout_of nodes node_id with
  | Some layout =>
      String.eqb
        (Str.upper (py_str (get_or "layoutPositioning" (JStr "") layout)))
        "ABSOLUTE"
  | None => false
  end.

(** The node has a parent: a non-empty parent id with a record. *)
Definition has_parent (nodes : node_map) (parent_id : option string) : bool :=
  match parent_id with
  | Some pid => negb (Str.is_empty pid) && Dict.mem pid nodes
  | None => false
  end.

Definition parent_or_empty (parent_id : option string) : string :=
  match parent_id with Some pid => pid | None => EmptyString end.

(** A TEXT node, and the string its facts are taken from. *)
Definition is_text_node (node : dict) : bool :=
  String.eqb (Str.upper (py_str (get_or "type" (JStr "") node))) "TEXT".

Definition node_characters (node : dict) : option string :=
  nonempty_str (py_or (getn "characters" node) (getn "text" node)).

(** The [text] facts stored for a node. *)
Definition stored_text (facts : dict) : dict :=
  match getn "text" facts with
  | JObj t => t
  | _ => []
  end.

(** A string longer than a non-negative limit. *)
Definition over_limit (max_text_len : Z) (s : string) : bool :=
  (0 <=? max_text_len)%Z && (max_text_len <? Z.of_nat (String.length s))%Z.

(** The node an error or a warning of the validator is about. *)
Definition finding_node (item : json) : option string :=
  match item with
  | JObj fields =>
      match getn "nodeId" fields with
      | JStr nid => Some nid
      | _ => None
      end
  | _ => None
  end.

Definition has_decision (s : State) (nid : string) : bool :=
  match getn nid (decisions s) with JNull => false | _ => true end.

(** The children and the properties of an export node. *)
Definition export_children (spec_node : json) : list json :=
  match spec_node with
  | JObj fields =>
      match getn "children" fields with
      | JArr cs => cs
      | _ => []
      end
  | _ => []
  end.

Definition export_property (spec_node : json) (k : string) : option json :=
  match spec_node with
  | JObj fields => Dict.get k (get_properties_dict fields)
  | _ => None
  end.

(** The conditions under which the code computes a pins hint: a parent,
    the node's x, y, width and height, the parent's width and height,
    the node's constraints object, and a parent that is not an
    auto-layout container or a node positioned absolutely. *)
Definition pins_conditions (nodes : node_map) (node_id : string)
    (parent_id : option string) : bool :=
  has_parent nodes parent_id
  && complete_frame nodes node_id
  && sized_frame nodes (parent_or_empty parent_id)
  && has_constraints nodes node_id
  && (negb (auto_layout nodes (parent_or_empty parent_id))
      || positioned_absolute nodes node_id).

(** The same with complete frame geometry asked of the parent too. *)
Definition pins_conditions_complete_parent (nodes : node_map)
    (node_id : string) (parent_id : option string) : bool :=
  has_parent nodes parent_id
  && complete_frame nodes node_id
  && complete_frame nodes (parent_or_empty parent_id)
  && has_constraints nodes node_id
  && (negb (auto_layout nodes (parent_or_empty parent_id))
      || positioned_absolute nodes node_id).

(** An export node as [build_export_tree] lays it out: the source
    identity, the fields of the decision (here its component and, when
    given, its properties) and the children. *)
Definition export_node (source_id name type_ base : string)
    (properties : option dict) (children : list json) : json :=
  JObj ([("source", JObj [("id", JStr source_id); ("name", JStr name);
                          ("type", JStr type_)]);
         ("component", JObj [("base", JStr base)])]
        ++ opt_entry "properties" (option_map JObj properties)
        ++ [("children", JArr children)]).

(** The recursive step of [absorb_children_in_export_tree] on the value
    under ["children"]. *)
Definition absorb_children (ui_system : string) (v : json) : json :=
  match v with
  | JArr children =>
      JArr (List.map (absorb_children_in_export_tree ui_system) children)
  | _ => v
  end.

(** *** Notions the proofs use *)

(** The children list [visit] walks: [node.get("children")] when it
    is a list. *)
Definition children_of (fields : dict) : list json :=
  match Dict.get "children" fields with
  | Some (JArr cs) => cs
  | _ => []
  end.

(** The loop of [visit] over the children of the node [node_id],
    from the map [acc] or the exception already raised. *)
Definition visit_loop (include_invisible : bool) (max_text_len : Z)
    (node_id : string) (depth : nat) (cs : list json)
    (acc : result node_map) : result node_map :=
  fold_left
    (fun acc c =>
       match acc with
       | Ok nodes2 =>
           visit include_invisible max_text_len c (Some node_id) (S depth)
             nodes2
       | Raise msg => Raise msg
       end)
    cs acc.

Definition visit_children (include_invisible : bool) (max_text_len : Z)
    (node_id : string) (depth : nat) (cs : list json) (N : node_map)
    : result node_map :=
  visit_loop include_invisible max_text_len node_id depth cs (Ok N).

(** The map [visit] returns when it returns: the same traversal with
    the record of [node_record] for every node. *)
Fixpoint visit_map (include_invisible : bool) (max_text_len : Z)
    (node : json) (parent_id : option string) (depth : nat)
    (nodes : node_map) {struct node} : node_map :=
  match node with
  | JObj fields =>
      if negb (should_include_node fields include_invisible) then nodes
      else
        match nonempty_str (getn "id" fields) with
        | None => nodes
        | Some node_id =>
            if Dict.mem node_id nodes then nodes
            else
              let rec :=
                node_record include_invisible max_text_len fields node_id
                  parent_id depth in
              let nodes1 := Dict.set node_id rec nodes in
              Dict.with_field "children"
                (fun v =>
                   match v with
                   | JArr cs =>
                       fold_left
                         (fun acc c =>
                            visit_map include_invisible max_text_len c
                              (Some node_id) (S depth) acc)
                         cs nodes1
                   | _ => nodes1
                   end)
                nodes1 fields
        end
  | _ => nodes
  end.

Definition visit_map_children (include_invisible : bool) (max_text_len : Z)
    (node_id : string) (depth : nat) (cs : list json) (N : node_map)
    : node_map :=
  fold_left
    (fun acc c =>
       visit_map include_invisible max_text_len c (Some node_id) (S depth) acc)
    cs N.


(** A result that, when it is an exception, is the overflow of
    [float]. *)
Definition overflow_only {A : Type} (r : result A) : Prop :=
  match r with
  | Ok _ => True
  | Raise msg => msg = INT_TOO_LARGE
  end.

(** The properties of a UIKit button once it has absorbed the label
    [cl] and the image [ci], from the properties [props] it had. *)
Definition uikit_button_properties (cl ci : json) (props : dict) : dict :=
  let cp := child_properties cl in
  let props := copy_with_source "title" (as_str (getn "text" cp)) cl props in
  let props :=
    set_if_absent "titleFont" (as_dict (getn "font" cp))
      (set_if_absent "titleColor" (as_dict (getn "textColor" cp)) props) in
  let cp := child_properties ci in
  let props := copy_with_source "image" (as_dict (getn "image" cp)) ci props in
  set_if_absent "imageContentMode" (as_str (getn "contentMode" cp)) props.

(** The facts of every record are facts [node_facts] returned: they
    hold the name tokens, which the placeholder of [facts_of] lacks. *)
Definition all_extracted (N : node_map) : Prop :=
  forall x r,
    Dict.get x N = Some r ->
    Dict.mem "nameTokens" (NodeRecord.facts r) = true.

(** The size of a JSON tree, for induction on its children. *)
Fixpoint json_size (j : json) : nat :=
  match j with
  | JArr l => S (list_sum (List.map json_size l))
  | JObj m => S (list_sum (List.map (fun kv => json_size (snd kv)) m))
  | _ => 1
  end.

(** The warning of the first loop for a node without a decision. *)
Definition missing_decision_warning (nid : string) : json :=
  JObj [("nodeId", JStr nid); ("warning", JStr "missing_decision")].

(** No record sits under the empty id. *)
Definition keys_nonempty (N : node_map) : Prop :=
  forall k, In k (Dict.keys N) -> k <> EmptyString.

(** A record's parent has a record, one level up. *)
Definition parents_exact (N : node_map) : Prop :=
  forall x r p,
    Dict.get x N = Some r -> NodeRecord.parent_id r = Some p ->
    exists rp, Dict.get p N = Some rp
               /\ NodeRecord.depth r = S (NodeRecord.depth rp).

(** Every record of [N] is still the record of its id in [N']. *)
Definition kept (N N' : node_map) : Prop :=
  forall k r, Dict.get k N = Some r -> Dict.get k N' = Some r.

(** [visit] is called at depth [d] below a parent that has its record,
    one level up. *)
Definition parent_at (N : node_map) (pid : option string) (d : nat) : Prop :=
  forall p, pid = Some p ->
            exists rp, Dict.get p N = Some rp /\ d = S (NodeRecord.depth rp).

(** What every call of [visit] preserves. *)
Definition index_ok (N : node_map) : Prop :=
  keys_nonempty N /\ parents_exact N.

(** The entries of [N] still to expand, each with its children: what
    bounds the iterations left. *)
Definition pending (N : node_map) (seen : list string) : nat :=
  list_sum
    (List.map
       (fun kr : string * NodeRecord.t =>
          if Str.mem (fst kr) seen then 0
          else S (List.length (NodeRecord.child_ids (snd kr))))
       N).

(** The shape of the states of a workflow: the order has no repeated
    id, and every id in it is a non-empty string with a record. *)
Definition wf_state (s : State) : Prop :=
  NoDup (bfs s)
  /\ forall x, In x (bfs s) -> x <> EmptyString /\ Dict.mem x (nodes s) = true.

(** The ids of the order still without a decision. *)
Definition undecided_count (s : State) : nat :=
  List.length (filter (fun x => negb (decided s x)) (bfs s)).

(** The characters of a name token, and strings made of them only. *)
Definition is_token_char (c : ascii) : bool :=
  Str.is_lower c || Str.is_digit c.

Fixpoint all_chars (p : ascii -> bool) (s : string) : bool :=
  match s with
  | EmptyString => true
  | String c s' => p c && all_chars p s'
  end.

Definition is_token (t : string) : bool :=
  negb (Str.is_empty t) && all_chars is_token_char t.

(** The [frame] facts stored for a node. *)
Definition stored_frame (facts : dict) : dict :=
  match getn "frame" facts with
  | JObj t => t
  | _ => []
  end.

(** The text [add_pin] appends for a key and a value. *)
Definition pin_of (key : string) (value : float) : string :=
  match Flt.to_Z value with
  | Some z => key ^^ "=" ^^ Str.of_Z z
  | None => key ^^ "=" ^^ py_repr (JFloat value)
  end.

(** The line [cmd_apply] prints for a patch whose id has no record. *)
Definition unknown_id_warning (nid : string) : string :=
  "warning: patch references unknown node id " ^^ nid ^^ "; skipped".

(** The ids of a patch list with a record, and those without. *)
Definition known_ids (N : node_map) (P : list (string * json)) : list string :=
  filter (fun nid => Dict.mem nid N) (List.map fst P).

Definition unknown_ids (N : node_map) (P : list (string * json)) : list string :=
  filter (fun nid => negb (Dict.mem nid N)) (List.map fst P).

(** A single-object payload that is neither the [decisions] shape nor
    an object with a usable id. *)
Definition lacks_patch_id (p : dict) : bool :=
  match Dict.get "decisions" p with
  | Some (JObj _) => false
  | _ => match nonempty_str (getn "id" p) with
         | Some _ => false
         | None => true
         end
  end.

(** The decision store of a state: no key twice, and every entry an
    object stored under the id of a node. *)
Definition store_ok (s : State) : Prop :=
  NoDup (Dict.keys (decisions s))
  /\ forall k v, In (k, v) (decisions s) ->
                 Dict.mem k (nodes s) = true /\ exists o, v = JObj o.

(** A record with a [parentId] is listed among that parent's
    [childIds]. *)
Definition listed_by_parent (N : node_map) : Prop :=
  forall x r p,
    Dict.get x N = Some r -> NodeRecord.parent_id r = Some p ->
    exists rp, Dict.get p N = Some rp /\ In x (NodeRecord.child_ids rp).

(** Only the root's record has no [parentId]. *)
Definition root_only (N : node_map) (rid : string) : Prop :=
  forall x r,
    Dict.get x N = Some r -> NodeRecord.parent_id r = None -> x = rid.

(** A record is stored under its own id. *)
Definition ids_match (N : node_map) : Prop :=
  forall x r, Dict.get x N = Some r -> NodeRecord.id r = x.

(** Every id a record lists among its [childIds] has a record. *)
Definition children_closed (N : node_map) : Prop :=
  forall p rp c,
    Dict.get p N = Some rp -> In c (NodeRecord.child_ids rp) ->
    Dict.mem c N = true.

(** How [visit] is called: below a parent whose record lists the node,
    or, without a parent, on the root. *)
Definition called_ok (include_invisible : bool) (rid : string) (N : node_map)
    (node : json) (pid : option string) : Prop :=
  match pid with
  | Some p =>
      exists rp,
        Dict.get p N = Some rp
        /\ forall x, listed_child_id include_invisible node = Some x ->
                     In x (NodeRecord.child_ids rp)
  | None => forall x, listed_child_id include_invisible node = Some x -> x = rid
  end.

Definition links_ok (N : node_map) (rid : string) : Prop :=
  NoDup (Dict.keys N) /\ ids_match N /\ listed_by_parent N /\ root_only N rid.

(** The item [err] appends to the error list. *)
Definition error_item (node_id msg : string) (detail : option json) : json :=
  JObj ([("nodeId", JStr node_id); ("error", JStr msg)]
        ++ opt_entry "detail" detail).

(** The message of an error item. *)
Definition error_message (item : json) : option string :=
  match item with
  | JObj fields =>
      match getn "error" fields with
      | JStr msg => Some msg
      | _ => None
      end
  | _ => None
  end.

(** From [f] to [f']: findings are only appended, and the errors
    appended satisfy [Q]. *)
Definition adds (Q : json -> Prop) (f f' : Findings) : Prop :=
  exists e w,
    errors f' = errors f ++ e /\ warnings f' = warnings f ++ w /\ Forall Q e.

(** An entry of the decision store that is neither absent nor an
    object. *)
Definition malformed_entry (decided : dict) (nid : string) : bool :=
  match getn nid decided with
  | JNull | JObj _ => false
  | _ => true
  end.

(** The classes the component hint can name, per UI system. *)
Definition UIKIT_HINT_BASES : list string :=
  [ "UILabel"; "UIImageView"; "UIStackView"; "UICollectionView";
    "UITableView"; "UIButton"; "UIView" ].

Definition SWIFTUI_HINT_BASES : list string :=
  [ "Text"; "Image"; "HStack"; "VStack"; "List"; "ScrollView"; "Button";
    "View" ].

(** A layout that takes its cell sizing from a hint. *)
Definition follows_cell_hint (layout h : dict) : Prop :=
  getn "cellSizing" layout = getn "cellSizing" h
  /\ getn "fixedSize" layout = getn "fixedSize" h.


(** The id a skeleton carries. *)
Definition skeleton_id (sk : json) : option string :=
  match sk with
  | JObj fields =>
      match getn "id" fields with
      | JStr nid => Some nid
      | _ => None
      end
  | _ => None
  end.


(** The number of nodes of an export tree. *)
Fixpoint export_count (t : json) {struct t} : nat :=
  match t with
  | JObj fields =>
      S (Dict.with_field "children"
           (fun v =>
              match v with
              | JArr cs => list_sum (List.map export_count cs)
              | _ => 0
              end)
           0 fields)
  | _ => 0
  end.

(** The fields of an export node. *)
Definition export_fields (t : json) : dict :=
  match t with JObj fields => fields | _ => [] end.

(** The branch of [absorb_children_in_export_tree] taken for a UI
    system and a component base: the properties after it and the indices
    of the children to remove. *)
Definition absorb_step (ui_system base : string) (children : list json)
    (props : dict) : dict * list nat :=
  if String.eqb ui_system "UIKit" then
    if String.eqb base "UIButton" then
      absorb_into_button true "UILabel" "UIImageView" children props
    else if String.eqb base "UIImageView" then
      absorb_into_image "UIImageView" children props
    else (props, [])
  else if String.eqb ui_system "SwiftUI" then
    if String.eqb base "Button" then
      absorb_into_button false "Text" "Image" children props
    else if String.eqb base "Image" then
      absorb_into_image "Image" children props
    else (props, [])
  else (props, []).

Definition is_object (v : json) : bool :=
  match v with JObj _ => true | _ => false end.

(** A property absorption may replace although the parent has it: the
    two source markers, and an [image] that is not an object. *)
Definition replaceable (k : string) (v : json) : bool :=
  String.eqb k "titleFrom" || String.eqb k "imageFrom"
  || (String.eqb k "image" && negb (is_object v)).

(** Characters that are neither white space nor a colon, and strings
    made of them. *)
Definition plain_char (c : ascii) : bool :=
  negb (Str.is_space c) && negb (Ascii.eqb c ":").

Definition plain (s : string) : bool := all_chars plain_char s.

Definition no_space (s : string) : bool :=
  all_chars (fun c => negb (Str.is_space c)) s.

(** The text [add_pin] prints for a value. *)
Definition pin_text (value : float) : string :=
  match Flt.to_Z value with
  | Some z => Str.of_Z z
  | None => py_repr (JFloat value)
  end.

(** A pin as [add_pin] writes it, which [float] reads back. *)
Definition readable_pin (part : string) : Prop :=
  exists key text val,
    part = key ^^ "=" ^^ text
    /\ Str.mem key PINS_ALLOWED_KEYS = true
    /\ plain text = true
    /\ py_parse_float text = Some val.

(** The depth of the record of an id, 0 when it has none. *)
Definition depth_of (N : node_map) (x : string) : nat :=
  match Dict.get x N with
  | Some r => NodeRecord.depth r
  | None => 0
  end.

(** Every id a record lists has a record one level below it. *)
Definition levelled (N : node_map) : Prop :=
  forall p rp c,
    Dict.get p N = Some rp -> In c (NodeRecord.child_ids rp) ->
    depth_of N c = S (depth_of N p).

(** No id of the list is deeper than one that comes after it. *)
Definition depth_sorted (N : node_map) (order : list string) : Prop :=
  forall l1 a l2 b,
    order = l1 ++ a :: l2 -> In b l2 -> depth_of N a <= depth_of N b.

(** The queue of the breadth-first loop holds the rest of one level,
    then what has been found of the next. *)
Definition level_inv (N : node_map) (q order : list string) : Prop :=
  exists d qa qb,
    q = qa ++ qb
    /\ (forall x, In x order -> depth_of N x <= d)
    /\ (forall x, In x qa -> depth_of N x = d)
    /\ (forall x, In x qb -> depth_of N x = S d)
    /\ depth_sorted N order.

(** The nodes the traversal can reach, each with its id, in document
    order: the included objects with a non-empty string id, below included
    objects only. *)
Fixpoint tree_nodes (include_invisible : bool) (node : json) {struct node}
    : list (string * dict) :=
  match node with
  | JObj fields =>
      if negb (should_include_node fields include_invisible) then []
      else
        match nonempty_str (getn "id" fields) with
        | None => []
        | Some node_id =>
            (node_id, fields) ::
            Dict.with_field "children"
              (fun v =>
                 match v with
                 | JArr cs => flat_map (tree_nodes include_invisible) cs
                 | _ => []
                 end)
              [] fields
        end
  | _ => []
  end.

(** The record [r] was made from the node [fields]. *)
Definition record_of (include_invisible : bool) (max_text_len : Z)
    (fields : dict) (r : NodeRecord.t) : Prop :=
  NodeRecord.name r = py_str (get_or "name" (JStr "") fields)
  /\ NodeRecord.type_ r = py_str (get_or "type" (JStr "") fields)
  /\ NodeRecord.child_ids r
     = listed_child_ids include_invisible (getn "children" fields)
  /\ node_facts fields max_text_len = Ok (NodeRecord.facts r).

(** No key occurs twice in the list. *)
Definition distinct_keys (ks : list string) : bool :=
  (fix go (l seen : list string) : bool :=
     match l with
     | [] => true
     | k :: l' => negb (Str.mem k seen) && go l' (k :: seen)
     end) ks [].

(** ** Properties *)

(** *** Strings, dicts and JSON trees *)

Lemma str_mem_In (s : string) (l : list string) :
  Str.mem s l = true <-> In s l.
Proof.
  induction l as [|x l IH]; simpl.
  - split; [discriminate | contradiction].
  - rewrite orb_true_iff, IH, String.eqb_eq. split; intros [H|H]; auto.
Qed.

Lemma str_mem_not_In (s : string) (l : list string) :
  Str.mem s l = false <-> ~ In s l.
Proof.
  rewrite <- str_mem_In. destruct (Str.mem s l); split; congruence.
Qed.

Lemma is_empty_true (s : string) : Str.is_empty s = true <-> s = EmptyString.
Proof. destruct s; simpl; split; congruence. Qed.

Lemma is_empty_false (s : string) : Str.is_empty s = false <-> s <> EmptyString.
Proof. destruct s; simpl; split; congruence. Qed.

Lemma nonempty_str_Some (v : json) (s : string) :
  nonempty_str v = Some s -> v = JStr s /\ s <> EmptyString.
Proof.
  destruct v; simpl; try discriminate.
  destruct (Str.is_empty s0) eqn:E; try discriminate.
  intros [= <-]. split; [reflexivity | now apply is_empty_false].
Qed.

Section DictFacts.
Context {V : Type}.
Implicit Types (d : Dict.t V) (k : string) (v : V).

Lemma get_set_eq k v d : Dict.get k (Dict.set k v d) = Some v.
Proof.
  induction d as [|[k' v'] d IH]; simpl.
  - now rewrite String.eqb_refl.
  - destruct (String.eqb k k') eqn:E; simpl; rewrite E; auto.
Qed.

Lemma get_set_ne k k' v d :
  k <> k' -> Dict.get k' (Dict.set k v d) = Dict.get k' d.
Proof.
  intros Hne. induction d as [|[k0 v0] d IH]; simpl.
  - destruct (String.eqb_spec k' k); congruence.
  - destruct (String.eqb_spec k k0) as [->|Hk]; simpl.
    + destruct (String.eqb_spec k' k0); congruence.
    + now rewrite IH.
Qed.

Lemma get_set k k' v d :
  Dict.get k' (Dict.set k v d)
  = if String.eqb k' k then Some v else Dict.get k' d.
Proof.
  destruct (String.eqb_spec k' k) as [->|Hne].
  - apply get_set_eq.
  - apply get_set_ne. congruence.
Qed.

Lemma mem_set k k' v d :
  Dict.mem k' (Dict.set k v d) = String.eqb k' k || Dict.mem k' d.
Proof.
  unfold Dict.mem. rewrite get_set. now destruct (String.eqb k' k).
Qed.

Lemma set_fresh k v d :
  Dict.mem k d = false -> Dict.set k v d = d ++ [(k, v)].
Proof.
  unfold Dict.mem. induction d as [|[k' v'] d IH]; simpl; auto.
  destruct (String.eqb k k'); [discriminate|].
  intros H. now rewrite IH.
Qed.

Lemma get_app k d d' :
  Dict.get k (d ++ d')
  = match Dict.get k d with Some v => Some v | None => Dict.get k d' end.
Proof.
  induction d as [|[k' v'] d IH]; simpl; auto.
  now destruct (String.eqb k k').
Qed.

Lemma mem_keys k d : Dict.mem k d = true <-> In k (Dict.keys d).
Proof.
  unfold Dict.mem, Dict.keys. induction d as [|[k' v'] d IH]; simpl.
  - split; [discriminate | contradiction].
  - destruct (String.eqb_spec k k') as [->|Hne].
    + split; auto.
    + rewrite IH. split; [auto | intros [H|H]; congruence].
Qed.

Lemma mem_false_keys k d : Dict.mem k d = false <-> ~ In k (Dict.keys d).
Proof.
  rewrite <- mem_keys. destruct (Dict.mem k d); split; congruence.
Qed.

Lemma get_Some_mem k v d : Dict.get k d = Some v -> Dict.mem k d = true.
Proof. unfold Dict.mem. now intros ->. Qed.

Lemma get_In k v d : Dict.get k d = Some v -> In (k, v) d.
Proof.
  induction d as [|[k' v'] d IH]; simpl; [discriminate|].
  destruct (String.eqb_spec k k') as [->|Hne].
  - intros [= ->]. now left.
  - intros H. right. auto.
Qed.

Lemma In_get k v d :
  NoDup (Dict.keys d) -> In (k, v) d -> Dict.get k d = Some v.
Proof.
  unfold Dict.keys. induction d as [|[k' v'] d IH]; simpl; [contradiction|].
  intros Hnd [H|H]; inversion Hnd as [|? ? Hnotin Hnd']; subst.
  - injection H as -> ->. now rewrite String.eqb_refl.
  - destruct (String.eqb_spec k k') as [->|Hne]; auto.
    exfalso. apply Hnotin. change k' with (fst (k', v)). now apply in_map.
Qed.

Lemma with_field_get {A : Type} k (f : V -> A) (dflt : A) d :
  Dict.with_field k f dflt d
  = match Dict.get k d with Some v => f v | None => dflt end.
Proof.
  induction d as [|[k' v'] d IH]; simpl; auto.
  now destruct (String.eqb k k').
Qed.

Lemma get_update k k' (f : V -> V) d :
  Dict.get k' (Dict.update k f d)
  = if String.eqb k' k then option_map f (Dict.get k d) else Dict.get k' d.
Proof.
  induction d as [|[k0 v0] d IH]; simpl.
  - now destruct (String.eqb k' k).
  - destruct (String.eqb_spec k k0) as [->|Hk]; simpl.
    + destruct (String.eqb_spec k' k0); auto.
    + rewrite IH. destruct (String.eqb_spec k' k0) as [->|Hk'].
      * destruct (String.eqb_spec k0 k); congruence.
      * reflexivity.
Qed.
End DictFacts.

Lemma getn_set (k k' : string) (v : json) (d : dict) :
  getn k' (Dict.set k v d) = if String.eqb k' k then v else getn k' d.
Proof. unfold getn. rewrite get_set. now destruct (String.eqb k' k). Qed.

Lemma json_size_item (c : json) (cs : list json) :
  In c cs -> json_size c < json_size (JArr cs).
Proof.
  simpl. induction cs as [|x cs IH]; simpl; [contradiction|].
  intros [->|H]; [lia | apply IH in H; lia].
Qed.

Lemma json_size_field (k : string) (v : json) (fields : dict) :
  Dict.get k fields = Some v -> json_size v < json_size (JObj fields).
Proof.
  simpl. induction fields as [|[k' v'] d IH]; simpl; [discriminate|].
  destruct (String.eqb k k').
  - intros [= ->]. lia.
  - intros H. apply IH in H. lia.
Qed.

(** Induction on a tree of nodes: a property holds of a value once it
    holds of the members of its [children] list. *)
Lemma node_tree_ind (P : json -> Prop) :
  (forall j,
      (forall fields cs c,
          j = JObj fields -> Dict.get "children" fields = Some (JArr cs) ->
          In c cs -> P c) ->
      P j) ->
  forall j, P j.
Proof.
  intros step j.
  assert (H : forall n j, json_size j < n -> P j).
  { induction n as [|n IH]; intros j' Hlt; [lia|].
    apply step. intros fields cs c -> Hget Hin. apply IH.
    apply json_size_field in Hget. apply json_size_item in Hin. lia. }
  apply (H (S (json_size j))). lia.
Qed.

(** *** The validator: errors are about decided nodes, warnings stay *)

Section ValidatorFacts.
Variable decided_ : dict.

(** An error item names a node that has a decision. *)
Definition about_decided (item : json) : Prop :=
  exists nid, finding_node item = Some nid /\ getn nid decided_ <> JNull.

(** From [f] to [f']: errors stay about decided nodes, and no warning
    is lost. *)
Definition good (f f' : Findings) : Prop :=
  (Forall about_decided (errors f) -> Forall about_decided (errors f'))
  /\ incl (warnings f) (warnings f').

Definition step_ok (g : Findings -> Findings) : Prop :=
  forall f, good f (g f).

Lemma good_refl f : good f f.
Proof. split; [auto | apply incl_refl]. Qed.

Lemma good_trans f1 f2 f3 : good f1 f2 -> good f2 f3 -> good f1 f3.
Proof.
  intros [E1 W1] [E2 W2]. split; [auto | eapply incl_tran; eauto].
Qed.

Lemma step_err nid msg detail :
  getn nid decided_ <> JNull -> step_ok (err nid msg detail).
Proof.
  intros Hn f. split; simpl.
  - intros H. apply Forall_app. split; [assumption|].
    constructor; [|constructor]. now exists nid.
  - apply incl_refl.
Qed.

Lemma step_warn nid msg detail : step_ok (warn nid msg detail).
Proof.
  intros f. split; simpl; [auto | apply incl_appl, incl_refl].
Qed.

Lemma step_when b g : step_ok g -> step_ok (when b g).
Proof. intros H f. unfold when. destruct b; [apply H | apply good_refl]. Qed.

Lemma step_for_each child_ids body :
  (forall cid, step_ok (body cid)) -> step_ok (for_each child_ids body).
Proof.
  intros H. unfold for_each.
  induction child_ids as [|c cs IH]; intros f; simpl.
  - apply good_refl.
  - eapply good_trans; [apply H | apply IH].
Qed.

Ltac good_chain :=
  lazymatch goal with
  | |- good ?f ?f => apply good_refl
  | |- good ?f (err _ _ _ ?x) =>
      apply good_trans with x; [good_chain | apply step_err; congruence]
  | |- good ?f (warn _ _ _ ?x) =>
      apply good_trans with x; [good_chain | apply step_warn]
  end.

Ltac split_cases :=
  repeat match goal with
         | |- context [match ?x with _ => _ end] => destruct x eqn:?
         end.

Lemma step_check_layout nid layout :
  getn nid decided_ <> JNull -> step_ok (check_layout nid layout).
Proof.
  intros Hn f. unfold check_layout, when. split_cases; good_chain.
Qed.

Lemma step_check_cell nid base layout :
  getn nid decided_ <> JNull -> step_ok (check_cell nid base layout).
Proof.
  intros Hn f. unfold check_cell, when. split_cases; good_chain.
Qed.

Lemma step_check_decision ui_system nid :
  step_ok (check_decision ui_system decided_ nid).
Proof.
  intros f. unfold check_decision.
  destruct (getn nid decided_) as [| | | | | |dec] eqn:E;
    try (good_chain; fail).
  assert (Hn : getn nid decided_ <> JNull) by congruence.
  destruct (getn "component" dec) as [| | | | | |comp];
    try (good_chain; fail).
  set (f1 := when _ _ f).
  assert (H1 : good f f1).
  { subst f1. unfold when. split_cases; good_chain. }
  set (f2 := match getn "layout" dec with
             | JNull | JObj _ => f1
             | _ => err nid "layout_not_object" None f1
             end).
  assert (H2 : good f1 f2).
  { subst f2. split_cases; good_chain. }
  set (lay := match getn "layout" dec with JObj l => Some l | _ => None end).
  set (f3 := match lay with Some l => check_layout nid l f2 | None => f2 end).
  assert (H3 : good f2 f3).
  { subst f3. destruct lay; [now apply step_check_layout | apply good_refl]. }
  apply good_trans with f3;
    [eapply good_trans; [exact H1 | eapply good_trans; eauto]|].
  destruct (getn "base" comp); try apply good_refl.
  apply step_when. now apply step_check_cell.
Qed.

Lemma base_component_not_null v b :
  base_component_from_decision v = Some b -> v <> JNull.
Proof. destruct v; simpl; congruence. Qed.

Lemma step_check_cell_child node_id must cid :
  step_ok (check_cell_child decided_ node_id must cid).
Proof.
  intros f. unfold check_cell_child, when.
  destruct (base_component_from_decision (getn cid decided_)) eqn:E.
  - apply base_component_not_null in E. split_cases; good_chain.
  - good_chain.
Qed.

Lemma step_check_allowed_child msg allowed node_id cid :
  step_ok (check_allowed_child decided_ msg allowed node_id cid).
Proof.
  intros f. unfold check_allowed_child, when. split_cases; good_chain.
Qed.

Lemma step_check_children ui_system entry :
  step_ok (check_children ui_system decided_ entry).
Proof.
  intros f. unfold check_children.
  destruct (NodeRecord.child_ids (snd entry)) as [|c cs] eqn:E;
    [apply good_refl|].
  eapply good_trans.
  - apply step_when. intros f0. eapply good_trans.
    + apply step_when, step_for_each. intros cid.
      apply step_check_cell_child.
    + apply step_when, step_for_each. intros cid.
      apply step_check_allowed_child.
  - apply step_when. intros f0. eapply good_trans.
    + apply step_when, step_for_each. intros cid.
      apply step_check_allowed_child.
    + apply step_when, step_for_each. intros cid.
      apply step_check_allowed_child.
Qed.

Lemma good_fold {A : Type} (body : A -> Findings -> Findings) (l : list A) :
  (forall a, step_ok (body a)) ->
  step_ok (fun f => fold_left (fun f a => body a f) l f).
Proof.
  intros H. induction l as [|a l IH]; intros f; simpl.
  - apply good_refl.
  - eapply good_trans; [apply H | apply IH].
Qed.

Lemma first_loop_warns ui_system (ids : list string) nid f :
  In nid ids -> getn nid decided_ = JNull ->
  In (missing_decision_warning nid)
     (warnings (fold_left (fun f a => check_decision ui_system decided_ a f)
                  ids f)).
Proof.
  revert f. induction ids as [|a ids IH]; intros f; simpl; [contradiction|].
  intros [->|Hin] Hnull.
  - apply (good_fold (check_decision ui_system decided_) ids
             (step_check_decision ui_system)).
    unfold check_decision. rewrite Hnull. simpl.
    apply in_or_app. right. now left.
  - now apply IH.
Qed.
End ValidatorFacts.

Lemma validate_good (state : State) :
  good (decisions state) (mkFindings [] []) (validate state).
Proof.
  unfold validate. eapply good_trans.
  - apply (good_fold (decisions state)
             (check_decision (uiSystem state) (decisions state))).
    apply step_check_decision.
  - apply (good_fold (decisions state)
             (check_children (uiSystem state) (decisions state))).
    apply step_check_children.
Qed.

(** C9. The report of [cmd_validate] has [ok = true] exactly when its
    error list is empty, and the exit status is non-zero (it is 1) exactly
    when an error is present. Every error is about a node that has a
    decision: a node without a recorded decision gets the
    [missing_decision] warning and no error, so a store in which no id has
    a decision always validates with [ok = true] and status 0. *)
Theorem C9_validate_ok_iff_no_errors (state : State) :
  let r := cmd_validate state in
  exists ok errs warns,
    stdout r = Some (JObj [("ok", JBool ok); ("errors", JArr errs);
                           ("warnings", JArr warns)])
    /\ (ok = true <-> errs = [])
    /\ (exit_code r = 0%Z <-> errs = [])
    /\ (exit_code r <> 0%Z <-> errs <> [])
    /\ (exit_code r = 0%Z \/ exit_code r = 1%Z)
    /\ (forall nid,
           has_decision state nid = false ->
           (In nid (Dict.keys (nodes state)) ->
            In (missing_decision_warning nid) warns)
           /\ Forall (fun e => finding_node e <> Some nid) errs)
    /\ ((forall nid, has_decision state nid = false) ->
        ok = true /\ exit_code r = 0%Z).
Proof.
  pose proof (validate_good state) as [Herr Hwarn].
  specialize (Herr (Forall_nil _)).
  assert (Hmiss : forall nid, has_decision state nid = false ->
                              getn nid (decisions state) = JNull).
  { intros nid. unfold has_decision.
    destruct (getn nid (decisions state)); congruence. }
  simpl. unfold cmd_validate.
  exists (match errors (validate state) with [] => true | _ => false end),
    (errors (validate state)), (warnings (validate state)).
  simpl. split; [reflexivity|].
  assert (Hnone : forall nid, has_decision state nid = false ->
                    Forall (fun e => finding_node e <> Some nid)
                      (errors (validate state))).
  { intros nid Hnid. apply Hmiss in Hnid.
    eapply Forall_impl; [|exact Herr].
    intros e (nid' & Hfn & Hdec) Heq. congruence. }
  repeat split.
  - destruct (errors (validate state)); congruence.
  - intros ->. reflexivity.
  - destruct (errors (validate state)); congruence.
  - intros ->. reflexivity.
  - destruct (errors (validate state)); congruence.
  - destruct (errors (validate state)); [congruence | intros _; discriminate].
  - destruct (errors (validate state)); auto.
  - intros Hin. unfold validate.
    apply (good_fold (decisions state)
             (check_children (uiSystem state) (decisions state))
             (nodes state) (step_check_children _ _)).
    apply first_loop_warns; auto.
  - now apply Hnone.
  - destruct (errors (validate state)) as [|e errs] eqn:E; [reflexivity|].
    inversion Herr as [|? ? (nid & _ & Hdec) _]; subst.
    specialize (H nid). apply Hmiss in H. contradiction.
  - destruct (errors (validate state)) as [|e errs] eqn:E; [reflexivity|].
    inversion Herr as [|? ? (nid & _ & Hdec) _]; subst.
    specialize (H nid). apply Hmiss in H. contradiction.
Qed.

(** *** The decision store under [cmd_apply] *)

Lemma applied_shift (N : node_map) (P : list (string * json)) :
  forall D A W,
    snd (fst (apply_patches N P D A W)) = A ++ touched N P.
Proof.
  unfold touched.
  assert (H : forall D A W D' W',
             snd (fst (apply_patches N P D A W))
             = A ++ snd (fst (apply_patches N P D' [] W'))).
  { induction P as [|[k dec] rest IH]; intros D A W D' W'; simpl.
    - now rewrite app_nil_r.
    - destruct (Dict.mem k N); simpl; [|apply IH].
      destruct dec; try apply IH.
      rewrite (IH _ (A ++ [k]) _ [] []), (IH _ [k] _ [] []).
      now rewrite <- app_assoc. }
  intros D A W. apply H.
Qed.

Lemma touched_cons (N : node_map) k dec rest :
  touched N ((k, dec) :: rest)
  = match dec with
    | JObj _ => if Dict.mem k N then k :: touched N rest else touched N rest
    | _ => touched N rest
    end.
Proof.
  unfold touched at 1. simpl.
  destruct (Dict.mem k N); simpl;
    destruct dec; try (rewrite applied_shift; reflexivity).
Qed.

Lemma patch_entry_touched (N : node_map) (P : list (string * json)) id :
  In id (touched N P) <-> exists d, patch_entry N P id = Some d.
Proof.
  induction P as [|[k dec] rest IH]; simpl.
  - unfold touched. simpl. split; [contradiction | intros [d Hd]; discriminate].
  - rewrite touched_cons.
    destruct (patch_entry N rest id) as [d0|] eqn:E.
    + split; [intros _; now exists d0|].
      intros _. assert (Hin : In id (touched N rest)) by (apply IH; eauto).
      destruct dec; auto. destruct (Dict.mem k N); simpl; auto.
    + assert (Hnot : ~ In id (touched N rest)).
      { intros H. apply IH in H. destruct H; discriminate. }
      destruct dec;
        try (split; [intros H; now destruct (Hnot H)
                    | intros [d Hd]; discriminate]).
      destruct (Dict.mem k N) eqn:Hk; rewrite ?andb_false_r, ?andb_true_r;
        [|split; [intros H; now destruct (Hnot H)
                 | intros [d Hd]; discriminate]].
      destruct (String.eqb_spec id k) as [->|Hne]; simpl.
      * split; [intros _; now exists (JObj fields) | intros _; now left].
      * split; [intros [H|H]; [congruence | now destruct (Hnot H)]
               | intros [d Hd]; discriminate].
Qed.

Lemma patch_entry_In (N : node_map) (P : list (string * json)) id d :
  patch_entry N P id = Some d ->
  In (id, d) P /\ Dict.mem id N = true /\ exists fields, d = JObj fields.
Proof.
  induction P as [|[k dec] rest IH]; simpl; [discriminate|].
  destruct (patch_entry N rest id) as [d0|].
  - intros [= ->]. destruct IH as (H1 & H2 & H3); auto.
  - destruct dec; try discriminate.
    destruct (String.eqb_spec id k) as [->|Hne]; simpl; [|discriminate].
    destruct (Dict.mem k N) eqn:Hk; [|discriminate].
    intros [= <-]. repeat split; eauto.
Qed.

Lemma apply_patches_store (N : node_map) (P : list (string * json)) id :
  forall D A W,
    Dict.get id (fst (fst (apply_patches N P D A W)))
    = match patch_entry N P id with
      | Some d => Some d
      | None => Dict.get id D
      end.
Proof.
  induction P as [|[k dec] rest IH]; intros D A W; simpl; [reflexivity|].
  destruct (Dict.mem k N) eqn:Hk; simpl.
  - destruct dec; rewrite IH;
      try (destruct (patch_entry N rest id); reflexivity).
    destruct (patch_entry N rest id); [reflexivity|].
    rewrite get_set, andb_true_r. now destruct (String.eqb id k).
  - rewrite IH. destruct (patch_entry N rest id); [reflexivity|].
    destruct dec; try reflexivity. now rewrite andb_false_r.
Qed.

(** What a successful [cmd_apply] saves and prints. *)
Lemma cmd_apply_saves (s s' : State) (payload : json) P :
  normalize_patch_payload payload = Ok P ->
  apply_saves s payload s' ->
  uiSystem s' = uiSystem s /\ rootId s' = rootId s /\ nodes s' = nodes s
  /\ bfs s' = bfs s
  /\ (forall id,
         Dict.get id (decisions s')
         = match patch_entry (nodes s) P id with
           | Some d => Some d
           | None => Dict.get id (decisions s)
           end)
  /\ stdout (cmd_apply s payload)
     = Some (JObj [("ok", JBool true);
                   ("applied", JArr (List.map JStr (touched (nodes s) P)));
                   ("appliedCount",
                    JInt (Z.of_nat (List.length (touched (nodes s) P))))]).
Proof.
  unfold apply_saves, cmd_apply. intros ->.
  pose proof (apply_patches_store (nodes s) P) as Hst.
  pose proof (applied_shift (nodes s) P (decisions s) [] []) as Hap.
  destruct (apply_patches (nodes s) P (decisions s) [] [])
    as [[D A] W] eqn:E.
  simpl in Hap. subst A. simpl. intros [= <-]. simpl.
  repeat split. intros id. specialize (Hst id (decisions s) [] []).
  now rewrite E in Hst.
Qed.

Lemma apply_saves_normalizes (s s' : State) (payload : json) :
  apply_saves s payload s' ->
  exists P, normalize_patch_payload payload = Ok P.
Proof.
  unfold apply_saves, cmd_apply.
  destruct (normalize_patch_payload payload); [eauto | discriminate].
Qed.

Lemma apply_keeps_entries (s s' : State) (payload : json) id :
  apply_saves s payload s' ->
  Dict.mem id (decisions s) = true -> Dict.mem id (decisions s') = true.
Proof.
  intros Hs. destruct (apply_saves_normalizes _ _ _ Hs) as [P HP].
  destruct (cmd_apply_saves _ _ _ _ HP Hs) as (_ & _ & _ & _ & Hst & _).
  unfold Dict.mem. rewrite Hst.
  now destruct (patch_entry (nodes s) P id).
Qed.

(** C3. Two patches applied in turn. When the ids they touch are
    disjoint, the store holds exactly the entries of the first patch, the
    entries of the second and the untouched entries it held before. For an
    id the second patch touches, the stored value is the decision of the
    second patch, whole, whatever the first patch held for it. No entry
    present before an apply is absent after it. The ids a patch touches
    are those the command reports as applied. *)
Theorem C3_patches_merge (s s1 s2 : State) (p1 p2 : json)
    (P1 P2 : list (string * json)) :
  normalize_patch_payload p1 = Ok P1 ->
  normalize_patch_payload p2 = Ok P2 ->
  apply_saves s p1 s1 -> apply_saves s1 p2 s2 ->
  let N := nodes s in
  ((forall id, In id (touched N P1) -> In id (touched N P2) -> False) ->
   forall id d,
     Dict.get id (decisions s2) = Some d <->
     (patch_entry N P1 id = Some d \/ patch_entry N P2 id = Some d
      \/ (~ In id (touched N P1) /\ ~ In id (touched N P2)
          /\ Dict.get id (decisions s) = Some d)))
  /\ (forall id,
         In id (touched N P2) ->
         exists d, In (id, d) P2 /\ patch_entry N P2 id = Some d
                   /\ Dict.get id (decisions s2) = Some d)
  /\ (forall id,
         Dict.mem id (decisions s) = true ->
         Dict.mem id (decisions s1) = true
         /\ Dict.mem id (decisions s2) = true)
  /\ stdout (cmd_apply s p1)
     = Some (JObj [("ok", JBool true);
                   ("applied", JArr (List.map JStr (touched N P1)));
                   ("appliedCount", JInt (Z.of_nat (List.length (touched N P1))))])
  /\ stdout (cmd_apply s1 p2)
     = Some (JObj [("ok", JBool true);
                   ("applied", JArr (List.map JStr (touched N P2)));
                   ("appliedCount", JInt (Z.of_nat (List.length (touched N P2))))]).
Proof.
  intros HP1 HP2 Hs1 Hs2 N.
  destruct (cmd_apply_saves _ _ _ _ HP1 Hs1) as (_ & _ & HN1 & _ & Hst1 & Hout1).
  destruct (cmd_apply_saves _ _ _ _ HP2 Hs2) as (_ & _ & _ & _ & Hst2 & Hout2).
  rewrite HN1 in Hst2, Hout2. fold N in Hst1, Hst2, Hout1, Hout2.
  repeat split; auto.
  - intros Hget. rewrite Hst2, Hst1 in Hget.
    destruct (patch_entry N P2 id) as [d2|] eqn:E2; [injection Hget as ->; auto|].
    destruct (patch_entry N P1 id) as [d1|] eqn:E1; [injection Hget as ->; auto|].
    right. right. repeat split; auto.
    + intros Hin. apply patch_entry_touched in Hin. destruct Hin. congruence.
    + intros Hin. apply patch_entry_touched in Hin. destruct Hin. congruence.
  - intros Hcases. rewrite Hst2, Hst1.
    destruct Hcases as [H1|[H2|(Hn1 & Hn2 & Hold)]].
    + destruct (patch_entry N P2 id) as [d2|] eqn:E2.
      * exfalso. apply (H id); apply patch_entry_touched; eauto.
      * now rewrite H1.
    + now rewrite H2.
    + destruct (patch_entry N P2 id) as [d2|] eqn:E2.
      * exfalso. apply Hn2. apply patch_entry_touched; eauto.
      * destruct (patch_entry N P1 id) as [d1|] eqn:E1; auto.
        exfalso. apply Hn1. apply patch_entry_touched; eauto.
  - intros id Hin. apply patch_entry_touched in Hin. destruct Hin as [d Hd].
    exists d. repeat split; auto.
    + now apply patch_entry_In in Hd.
    + now rewrite Hst2, Hd.
  - eapply apply_keeps_entries; eauto.
  - eapply apply_keeps_entries; [exact Hs2|].
    eapply apply_keeps_entries; eauto.
Qed.

(** *** Fact extraction and its exception *)

Lemma bind_ok {A B : Type} (r : result A) (f : A -> result B) (b : B) :
  bind r f = Ok b -> exists a, r = Ok a /\ f a = Ok b.
Proof. destruct r as [a|msg]; simpl; [eauto | discriminate]. Qed.

Lemma overflow_only_bind {A B : Type} (r : result A) (f : A -> result B) :
  overflow_only r -> (forall a, overflow_only (f a)) ->
  overflow_only (bind r f).
Proof. destruct r as [a|msg]; simpl; auto. Qed.

Lemma checked_float_overflow (v : json) : overflow_only (checked_float v).
Proof. unfold checked_float. now destruct (float_overflows v). Qed.

Lemma checked_float_ok (v : json) (f : float) :
  checked_float v = Ok f -> float_overflows v = false /\ f = py_float v.
Proof.
  unfold checked_float. destruct (float_overflows v); [discriminate|].
  now intros [= <-].
Qed.

Ltac overflow_step :=
  first
    [ exact I
    | apply checked_float_overflow
    | apply overflow_only_bind; [|intros ?]
    | match goal with
      | |- overflow_only (if ?c then _ else _) => destruct c
      | |- overflow_only (match ?x with _ => _ end) => destruct x
      end ].

Lemma num_entry_overflow (k : string) (v : json) :
  overflow_only (num_entry k v).
Proof. unfold num_entry. repeat overflow_step. Qed.

Lemma num_entry_unless_overflow (skip : float) (k : string) (v : json) :
  overflow_only (num_entry_unless skip k v).
Proof. unfold num_entry_unless. repeat overflow_step. Qed.

Lemma number_entries_overflow (ks : list string) (node : dict) :
  overflow_only (number_entries ks node).
Proof.
  induction ks as [|k ks IH]; simpl; [exact I|].
  apply overflow_only_bind; [apply num_entry_overflow|]. intros e.
  apply overflow_only_bind; [exact IH|]. intros r. exact I.
Qed.

Lemma extract_solid_fill_color_overflow (node : dict) :
  overflow_only (extract_solid_fill_color node).
Proof.
  unfold extract_solid_fill_color.
  destruct (no_paint _); [exact I|].
  destruct (pick_first_visible_paint _ _) as [p|]; [|exact I].
  destruct (color_spec _); [|exact I].
  apply overflow_only_bind; [apply num_entry_unless_overflow|].
  intros o. exact I.
Qed.

Lemma extract_solid_stroke_overflow (node : dict) :
  overflow_only (extract_solid_stroke node).
Proof.
  unfold extract_solid_stroke.
  destruct (no_paint _); [exact I|].
  destruct (pick_first_visible_paint _ _) as [p|]; [|exact I].
  destruct (color_spec _); [|exact I]. cbv zeta.
  apply overflow_only_bind; [apply num_entry_unless_overflow|]. intros w.
  apply overflow_only_bind; [apply num_entry_unless_overflow|]. intros o.
  exact I.
Qed.

Lemma extract_image_overflow (node : dict) :
  overflow_only (extract_image node).
Proof.
  unfold extract_image. cbv zeta.
  destruct (no_paint _ && negb _); [exact I|].
  apply overflow_only_bind; [|intros o; exact I].
  destruct (pick_first_visible_paint _ _) as [p|]; [|exact I].
  apply overflow_only_bind; [apply num_entry_unless_overflow|].
  intros o. exact I.
Qed.

Lemma extract_font_overflow (node : dict) :
  overflow_only (extract_font node).
Proof.
  unfold extract_font. cbv zeta.
  apply overflow_only_bind; [apply num_entry_overflow|]. intros size.
  apply overflow_only_bind; [|intros fb; exact I].
  destruct (getn "style" node); try exact I.
  apply overflow_only_bind.
  - destruct (negb _ && is_number _); [|exact I].
    apply overflow_only_bind; [apply checked_float_overflow|].
    intros f. exact I.
  - intros fb2. destruct (is_number _); [|exact I].
    apply overflow_only_bind; [apply checked_float_overflow|].
    intros f. exact I.
Qed.

Lemma shadow_of_overflow (eff : json) : overflow_only (shadow_of eff).
Proof.
  unfold shadow_of. destruct eff as [| | | | | |e]; try exact I.
  assert (H : overflow_only
                (let t := Str.upper (py_str (get_or "type" (JStr "") e)) in
                 if String.eqb t "DROP_SHADOW" || String.eqb t "INNER_SHADOW"
                 then
                   let* offset :=
                     match getn "offset" e with
                     | JObj o =>
                         if is_number (getn "x" o) && is_number (getn "y" o)
                         then
                           let* x := checked_float (getn "x" o) in
                           let* y := checked_float (getn "y" o) in
                           Ok [("offset",
                                JObj [("x", JFloat x); ("y", JFloat y)])]
                         else Ok []
                     | _ => Ok []
                     end in
                   let* radius := num_entry "radius" (getn "radius" e) in
                   let* spread := num_entry "spread" (getn "spread" e) in
                   let* opacity :=
                     num_entry_unless 1 "opacity" (getn "opacity" e) in
                   Ok (Some (JObj
                         ([("type", JStr t)]
                          ++ opt_entry "color"
                               (option_map JObj (color_spec (getn "color" e)))
                          ++ offset ++ radius ++ spread ++ opacity)))
                 else Ok None)).
  { cbv zeta. destruct (_ || _); [|exact I].
    apply overflow_only_bind.
    - destruct (getn "offset" e); try exact I.
      destruct (_ && _); [|exact I].
      apply overflow_only_bind; [apply checked_float_overflow|]. intros x.
      apply overflow_only_bind; [apply checked_float_overflow|]. intros y.
      exact I.
    - intros offset.
      apply overflow_only_bind; [apply num_entry_overflow|]. intros radius.
      apply overflow_only_bind; [apply num_entry_overflow|]. intros spread.
      apply overflow_only_bind; [apply num_entry_unless_overflow|].
      intros opacity. exact I. }
  destruct (get_or "visible" (JBool true) e) as [|[]| | | | |]; try exact H.
  exact I.
Qed.

Lemma collect_overflow {A B : Type} (f : A -> result (option B))
    (l : list A) :
  (forall x, overflow_only (f x)) -> overflow_only (collect f l).
Proof.
  intros Hf. induction l as [|x l IH]; simpl; [exact I|].
  apply overflow_only_bind; [apply Hf|]. intros y.
  apply overflow_only_bind; [exact IH|]. intros ys. exact I.
Qed.

Lemma extract_shadows_overflow (node : dict) :
  overflow_only (extract_shadows node).
Proof.
  unfold extract_shadows. destruct (getn "effects" node); try exact I.
  apply collect_overflow, shadow_of_overflow.
Qed.

Lemma text_facts_overflow (node : dict) (mtl : Z) :
  overflow_only (text_facts node mtl).
Proof.
  unfold text_facts. cbv zeta.
  apply overflow_only_bind; [apply extract_font_overflow|]. intros font.
  apply overflow_only_bind; [apply extract_solid_fill_color_overflow|].
  intros fill. exact I.
Qed.

(** [node_facts] raises nothing but the overflow of [float]. *)
Lemma node_facts_overflow (node : dict) (mtl : Z) :
  overflow_only (node_facts node mtl).
Proof.
  unfold node_facts. cbv zeta.
  apply overflow_only_bind; [apply number_entries_overflow|]. intros frame.
  apply overflow_only_bind; [apply extract_solid_fill_color_overflow|].
  intros bg.
  apply overflow_only_bind; [apply extract_solid_stroke_overflow|].
  intros stroke.
  apply overflow_only_bind; [apply num_entry_unless_overflow|]. intros corner.
  apply overflow_only_bind; [apply num_entry_unless_overflow|]. intros opacity.
  apply overflow_only_bind; [apply extract_shadows_overflow|]. intros shadows.
  apply overflow_only_bind;
    [destruct (String.eqb _ "TEXT"); [apply text_facts_overflow | exact I]|].
  intros text.
  apply overflow_only_bind; [apply extract_image_overflow|]. intros image.
  exact I.
Qed.

(** The facts [node_facts] returns, piece by piece. *)
Lemma node_facts_ok (node : dict) (mtl : Z) (facts : dict) :
  node_facts node mtl = Ok facts ->
  exists frame style text image,
    number_entries frame_keys node = Ok frame
    /\ (if String.eqb (Str.upper (py_str (get_or "type" (JStr "") node)))
             "TEXT"
        then text_facts node mtl = Ok text
        else text = [])
    /\ facts
       = [("nameTokens",
           JArr (List.map JStr (name_tokens (getn "name" node))));
          ("visible", JBool (truthy (get_or "visible" (JBool true) node)));
          ("locked", JBool (truthy (get_or "locked" (JBool false) node)))]
         ++ entry_if_nonempty "frame" frame
         ++ entry_if_nonempty "layout" (copy_present layout_keys node)
         ++ entry_if_nonempty "style" style
         ++ entry_if_nonempty "text" text
         ++ opt_entry "image" image.
Proof.
  unfold node_facts. cbv zeta. intros H.
  apply bind_ok in H. destruct H as (frame & Hframe & H).
  apply bind_ok in H. destruct H as (bg & _ & H).
  apply bind_ok in H. destruct H as (stroke & _ & H).
  apply bind_ok in H. destruct H as (corner & _ & H).
  apply bind_ok in H. destruct H as (opacity & _ & H).
  apply bind_ok in H. destruct H as (shadows & _ & H).
  apply bind_ok in H. destruct H as (text & Htext & H).
  apply bind_ok in H. destruct H as (image & _ & H).
  injection H as <-.
  eexists frame, _, text, _. split; [exact Hframe|]. split; [|reflexivity].
  destruct (String.eqb _ "TEXT"); [exact Htext | now injection Htext].
Qed.

Lemma node_facts_extracted (node : dict) (mtl : Z) (facts : dict) :
  node_facts node mtl = Ok facts -> Dict.mem "nameTokens" facts = true.
Proof.
  intros H. apply node_facts_ok in H.
  destruct H as (frame & style & text & image & _ & _ & ->). reflexivity.
Qed.

Lemma facts_of_ok (node : dict) (mtl : Z) (facts : dict) :
  node_facts node mtl = Ok facts -> facts_of node mtl = facts.
Proof. unfold facts_of. now intros ->. Qed.

Lemma facts_of_extracted (node : dict) (mtl : Z) :
  Dict.mem "nameTokens" (facts_of node mtl) = true ->
  node_facts node mtl = Ok (facts_of node mtl).
Proof.
  unfold facts_of. destruct (node_facts node mtl); [reflexivity|discriminate].
Qed.

(** *** Tree indexing *)

Section IndexFacts.
Variables (inv : bool) (mtl : Z).

Lemma visit_map_obj fields pid d N :
  visit_map inv mtl (JObj fields) pid d N
  = if negb (should_include_node fields inv) then N
    else match nonempty_str (getn "id" fields) with
         | None => N
         | Some node_id =>
             if Dict.mem node_id N then N
             else visit_map_children inv mtl node_id d (children_of fields)
                    (Dict.set node_id
                       (node_record inv mtl fields node_id pid d) N)
         end.
Proof.
  cbn [visit_map]. unfold visit_map_children, children_of.
  destruct (negb (should_include_node fields inv)); [reflexivity|].
  destruct (nonempty_str (getn "id" fields)); [|reflexivity].
  destruct (Dict.mem s N); [reflexivity|].
  rewrite with_field_get.
  destruct (Dict.get "children" fields) as [[]|]; reflexivity.
Qed.

Lemma visit_map_other node pid d N :
  (forall fields, node <> JObj fields) -> visit_map inv mtl node pid d N = N.
Proof. destruct node; intros H; try reflexivity. now destruct (H fields). Qed.
End IndexFacts.

Section IndexInvariant.
Variables (inv : bool) (mtl : Z).

Lemma kept_refl N : kept N N.
Proof. now intros k r. Qed.

Lemma kept_trans N1 N2 N3 : kept N1 N2 -> kept N2 N3 -> kept N1 N3.
Proof. intros H1 H2 k r H. auto. Qed.

Lemma kept_set N nid rec :
  Dict.mem nid N = false -> kept N (Dict.set nid rec N).
Proof.
  intros Hf k r Hk. rewrite get_set.
  destruct (String.eqb_spec k nid) as [->|]; auto.
  apply get_Some_mem in Hk. congruence.
Qed.

Lemma index_ok_set N nid fields pid d :
  index_ok N -> parent_at N pid d -> nid <> EmptyString ->
  Dict.mem nid N = false ->
  index_ok (Dict.set nid (node_record inv mtl fields nid pid d) N).
Proof.
  intros [Hk Hp] Hpar Hne Hfresh. split.
  - intros k. rewrite (set_fresh _ _ _ Hfresh). unfold Dict.keys.
    rewrite map_app, in_app_iff. simpl. intros [H|[<-|[]]]; auto.
  - intros x r p Hx Hpx. rewrite get_set in Hx.
    destruct (String.eqb_spec x nid) as [->|Hxn].
    + injection Hx as <-. simpl in Hpx.
      destruct (Hpar p Hpx) as (rp & Hrp & Hd).
      exists rp. split; [|exact Hd]. now apply kept_set.
    + destruct (Hp x r p Hx Hpx) as (rp & Hrp & Hd).
      exists rp. split; [|exact Hd]. now apply kept_set.
Qed.

Lemma visit_map_preserves :
  forall node pid d N,
    index_ok N -> parent_at N pid d ->
    index_ok (visit_map inv mtl node pid d N)
    /\ kept N (visit_map inv mtl node pid d N).
Proof.
  induction node as [node IH] using node_tree_ind.
  intros pid d N HN Hpar.
  destruct node as [| | | | | |fields];
    try (split; [exact HN | apply kept_refl]).
  rewrite visit_map_obj.
  destruct (negb (should_include_node fields inv));
    [split; [exact HN | apply kept_refl]|].
  destruct (nonempty_str (getn "id" fields)) as [nid|] eqn:Hid;
    [|split; [exact HN | apply kept_refl]].
  destruct (Dict.mem nid N) eqn:Hfresh;
    [split; [exact HN | apply kept_refl]|].
  apply nonempty_str_Some in Hid. destruct Hid as [_ Hne].
  set (rec := node_record inv mtl fields nid pid d).
  assert (Hloop : forall cs N1,
             (forall c, In c cs -> In c (children_of fields)) ->
             index_ok N1 -> Dict.get nid N1 = Some rec ->
             index_ok (visit_map_children inv mtl nid d cs N1)
             /\ kept N1 (visit_map_children inv mtl nid d cs N1)).
  { induction cs as [|c cs IHcs]; intros N1 Hsub HN1 Hrec; simpl.
    - split; [exact HN1 | apply kept_refl].
    - assert (Hc : In c (children_of fields)) by (apply Hsub; now left).
      unfold children_of in Hc.
      destruct (Dict.get "children" fields) as [[| | | | |items|]|] eqn:Hch;
        try contradiction.
      destruct (IH fields items c eq_refl Hch Hc (Some nid) (S d) N1 HN1)
        as [HN2 Hkept].
      { intros p [= <-]. exists rec. split; [exact Hrec | reflexivity]. }
      destruct (IHcs (visit_map inv mtl c (Some nid) (S d) N1)) as [HN3 Hk3]; auto.
      { intros c' Hc'. apply Hsub. now right. }
      split; [exact HN3 | eapply kept_trans; eauto]. }
  destruct (Hloop (children_of fields) (Dict.set nid rec N)) as [H1 H2]; auto.
  - now apply index_ok_set.
  - apply get_set_eq.
  - split; [exact H1|]. eapply kept_trans; [|exact H2]. now apply kept_set.
Qed.

(** A node whose id already has a record is passed over, with all
    that is below it. *)
Lemma visit_map_duplicate fields nid pid d N :
  nonempty_str (getn "id" fields) = Some nid ->
  Dict.mem nid N = true ->
  visit_map inv mtl (JObj fields) pid d N = N.
Proof.
  intros Hid Hmem. rewrite visit_map_obj, Hid, Hmem.
  now destruct (negb (should_include_node fields inv)).
Qed.

Lemma parents_exact_shallower N : parents_exact N -> parents_shallower N.
Proof.
  intros H x r p Hx Hp. destruct (H x r p Hx Hp) as (rp & Hrp & Hd).
  exists rp. split; [exact Hrp | lia].
Qed.

Lemma visit_obj fields pid d N :
  visit inv mtl (JObj fields) pid d N
  = if negb (should_include_node fields inv) then Ok N
    else match nonempty_str (getn "id" fields) with
         | None => Ok N
         | Some node_id =>
             if Dict.mem node_id N then Ok N
             else
               match node_facts fields mtl with
               | Raise msg => Raise msg
               | Ok facts =>
                   visit_children inv mtl node_id d (children_of fields)
                     (Dict.set node_id
                        (stored_record inv fields node_id pid d facts) N)
               end
         end.
Proof.
  cbn [visit]. unfold visit_children, visit_loop, children_of.
  destruct (negb (should_include_node fields inv)); [reflexivity|].
  destruct (nonempty_str (getn "id" fields)); [|reflexivity].
  destruct (Dict.mem s N); [reflexivity|].
  destruct (node_facts fields mtl); [|reflexivity].
  rewrite with_field_get.
  destruct (Dict.get "children" fields) as [[]|]; reflexivity.
Qed.

Lemma visit_loop_raise nid d cs msg :
  visit_loop inv mtl nid d cs (Raise msg) = Raise msg.
Proof. induction cs as [|c cs IH]; simpl; [reflexivity | exact IH]. Qed.

Lemma visit_children_cons nid d c cs N :
  visit_children inv mtl nid d (c :: cs) N
  = visit_loop inv mtl nid d cs (visit inv mtl c (Some nid) (S d) N).
Proof. reflexivity. Qed.

(** A node whose id already has a record is passed over, with all
    that is below it. *)
Lemma visit_duplicate fields nid pid d N :
  nonempty_str (getn "id" fields) = Some nid ->
  Dict.mem nid N = true ->
  visit inv mtl (JObj fields) pid d N = Ok N.
Proof.
  intros Hid Hmem. rewrite visit_obj, Hid, Hmem.
  now destruct (negb (should_include_node fields inv)).
Qed.

(** When [visit] returns, it returns the map of [visit_map], and the
    facts of every record it added were returned by [node_facts]; when
    it raises, it is with the overflow of [float]. *)
Lemma visit_cases :
  forall node pid d N,
    match visit inv mtl node pid d N with
    | Ok N' =>
        N' = visit_map inv mtl node pid d N
        /\ (all_extracted N -> all_extracted N')
    | Raise msg => msg = INT_TOO_LARGE
    end.
Proof.
  induction node as [node IH] using node_tree_ind.
  intros pid d N.
  destruct node as [| | | | | |fields]; try (split; [reflexivity | auto]).
  rewrite visit_obj, visit_map_obj.
  destruct (negb (should_include_node fields inv)); [split; auto|].
  destruct (nonempty_str (getn "id" fields)) as [nid|]; [|split; auto].
  destruct (Dict.mem nid N); [split; auto|].
  pose proof (node_facts_overflow fields mtl) as Hover.
  unfold node_record.
  destruct (node_facts fields mtl) as [facts|msg] eqn:Hfacts; [|exact Hover].
  rewrite (facts_of_ok _ _ _ Hfacts).
  set (rec := stored_record inv fields nid pid d facts).
  assert (Hloop : forall cs M,
             (forall c, In c cs -> In c (children_of fields)) ->
             match visit_children inv mtl nid d cs M with
             | Ok M' =>
                 M' = visit_map_children inv mtl nid d cs M
                 /\ (all_extracted M -> all_extracted M')
             | Raise msg => msg = INT_TOO_LARGE
             end).
  { induction cs as [|c cs IHcs]; intros M Hsub.
    - split; [reflexivity | auto].
    - rewrite visit_children_cons.
      assert (Hc : In c (children_of fields)) by (apply Hsub; now left).
      unfold children_of in Hc.
      destruct (Dict.get "children" fields) as [[| | | | |items|]|] eqn:Hch;
        try contradiction.
      pose proof (IH fields items c eq_refl Hch Hc (Some nid) (S d) M) as Hv.
      destruct (visit inv mtl c (Some nid) (S d) M) as [M1|msg] eqn:E.
      + destruct Hv as [-> Hext].
        pose proof (IHcs (visit_map inv mtl c (Some nid) (S d) M)
                      (fun c' Hc' => Hsub c' (or_intror Hc'))) as Hrest.
        fold (visit_children inv mtl nid d cs
                (visit_map inv mtl c (Some nid) (S d) M)).
        destruct (visit_children inv mtl nid d cs
                    (visit_map inv mtl c (Some nid) (S d) M)) as [M'|msg'].
        * destruct Hrest as [-> Hext']. split; [reflexivity | auto].
        * exact Hrest.
      + rewrite visit_loop_raise. exact Hv. }
  pose proof (Hloop (children_of fields) (Dict.set nid rec N)
                (fun c Hc => Hc)) as H.
  destruct (visit_children inv mtl nid d (children_of fields)
              (Dict.set nid rec N)) as [N'|msg]; [|exact H].
  destruct H as [-> Hext]. split; [reflexivity|].
  intros HN. apply Hext. intros x r. rewrite get_set.
  destruct (String.eqb x nid).
  - intros [= <-]. simpl. eapply node_facts_extracted; eauto.
  - apply HN.
Qed.

Lemma visit_returns node pid d N N' :
  visit inv mtl node pid d N = Ok N' ->
  N' = visit_map inv mtl node pid d N
  /\ (all_extracted N -> all_extracted N').
Proof.
  intros H. pose proof (visit_cases node pid d N) as Hc.
  now rewrite H in Hc.
Qed.

Lemma visit_overflow node pid d N : overflow_only (visit inv mtl node pid d N).
Proof.
  pose proof (visit_cases node pid d N) as Hc.
  destruct (visit inv mtl node pid d N); [exact I | exact Hc].
Qed.

Lemma index_tree_root root rid N :
  index_tree root inv mtl = Ok (rid, N) ->
  nonempty_str (getn "id" root) = Some rid
  /\ visit inv mtl (JObj root) None 0 [] = Ok N.
Proof.
  unfold index_tree.
  destruct (nonempty_str (getn "id" root)) as [r|]; [|discriminate].
  destruct (visit inv mtl (JObj root) None 0 []); simpl; [|discriminate].
  now intros [= <- <-].
Qed.

Lemma index_tree_overflow root :
  match index_tree root inv mtl with
  | Ok _ => True
  | Raise msg =>
      (nonempty_str (getn "id" root) = None
       /\ msg = "root node is missing a string 'id'")
      \/ (nonempty_str (getn "id" root) <> None /\ msg = INT_TOO_LARGE)
  end.
Proof.
  unfold index_tree.
  destruct (nonempty_str (getn "id" root)) as [r|]; [|now left].
  pose proof (visit_overflow (JObj root) None 0 []) as H.
  destruct (visit inv mtl (JObj root) None 0 []); simpl; [exact I|].
  right. split; [discriminate | exact H].
Qed.

Lemma index_tree_extracted root rid N :
  index_tree root inv mtl = Ok (rid, N) -> all_extracted N.
Proof.
  intros H. apply index_tree_root in H. destruct H as [_ H].
  apply visit_returns in H. destruct H as [_ H]. apply H.
  intros x r. discriminate.
Qed.

Lemma index_tree_ok root rid N :
  index_tree root inv mtl = Ok (rid, N) ->
  rid <> EmptyString /\ index_ok N
  /\ N = visit_map inv mtl (JObj root) None 0 [].
Proof.
  intros H. apply index_tree_root in H. destruct H as [Hid H].
  apply visit_returns in H. destruct H as [-> _].
  apply nonempty_str_Some in Hid.
  destruct (visit_map_preserves (JObj root) None 0 []) as [Hok _].
  - split; [intros k []|]. intros x r0 p Hx. discriminate.
  - intros p. discriminate.
  - split; [exact (proj2 Hid)|]. split; [exact Hok | reflexivity].
Qed.
End IndexInvariant.

(** *** The breadth-first order *)

Lemma snoc_split {A : Type} (l l1 l2 : list A) (a x : A) :
  l ++ [a] = l1 ++ x :: l2 ->
  (l1 = l /\ x = a /\ l2 = [])
  \/ exists l2', l2 = l2' ++ [a] /\ l = l1 ++ x :: l2'.
Proof.
  destruct l2 as [|y l2 _] using rev_ind; intros H.
  - left. apply app_inj_tail in H. destruct H as [-> ->]. auto.
  - right. exists l2. split.
    + change (l1 ++ x :: l2 ++ [y]) with (l1 ++ (x :: l2) ++ [y]) in H.
      rewrite app_assoc in H. apply app_inj_tail in H. now destruct H as [_ ->].
    + change (l1 ++ x :: l2 ++ [y]) with (l1 ++ (x :: l2) ++ [y]) in H.
      rewrite app_assoc in H. apply app_inj_tail in H. now destruct H as [-> _].
Qed.

Lemma pending_mono (N : node_map) nid seen :
  pending N (nid :: seen) <= pending N seen.
Proof.
  unfold pending. induction N as [|[k r] M IHM]; simpl in *; auto.
  destruct (String.eqb k nid); simpl; destruct (Str.mem k seen); lia.
Qed.

Lemma pending_hit (N : node_map) nid rec seen :
  Dict.get nid N = Some rec -> Str.mem nid seen = false ->
  pending N (nid :: seen) + S (List.length (NodeRecord.child_ids rec))
  <= pending N seen.
Proof.
  induction N as [|[k r] M IHM]; simpl; [discriminate|].
  destruct (String.eqb_spec nid k) as [<-|Hne].
  - intros [= ->] Hs. pose proof (pending_mono M nid seen) as Hm.
    unfold pending in *. simpl in *. rewrite String.eqb_refl, Hs. simpl. lia.
  - intros Hg Hs. specialize (IHM Hg Hs). unfold pending in *. simpl in *.
    destruct (String.eqb_spec k nid); [congruence|]. simpl.
    destruct (Str.mem k seen); lia.
Qed.

Section BfsFacts.
Variables (N : node_map) (rid : string).

(** [p]'s record lists [x] among its [childIds]. *)
Definition lists (p x : string) : Prop :=
  exists rp, Dict.get p N = Some rp /\ In x (NodeRecord.child_ids rp).

(** What holds of the queue, the seen set and the order at the head
    of every iteration of the loop. *)
Record bfs_inv (q seen order : list string) : Prop := mk_bfs_inv {
  inv_nodup : NoDup order;
  inv_seen : forall x, In x order -> In x seen /\ Dict.mem x N = true;
  inv_order : forall x, In x seen -> Dict.mem x N = true -> In x order;
  inv_closed : forall p x, In p order -> lists p x -> In x seen \/ In x q;
  inv_struct : forall l1 x l2,
      order = l1 ++ x :: l2 -> x = rid \/ exists p, In p l1 /\ lists p x;
  inv_queue : forall x,
      In x q -> x = rid \/ exists p, In p order /\ lists p x;
  inv_root : In rid q \/ In rid seen
}.

Lemma bfs_inv_init : bfs_inv [rid] [] [].
Proof.
  constructor; simpl.
  - constructor.
  - intros x [].
  - intros x [].
  - intros p x [].
  - intros l1 x l2 H. now destruct l1.
  - intros x [<-|[]]. now left.
  - left. now left.
Qed.

Lemma bfs_inv_skip nid q seen order :
  bfs_inv (nid :: q) seen order -> In nid seen -> bfs_inv q seen order.
Proof.
  intros [H1 H2 H3 H4 H5 H6 H7] Hs. constructor; auto.
  - intros p x Hp Hl. destruct (H4 p x Hp Hl) as [H|[<-|H]]; auto.
  - intros x Hx. apply H6. now right.
  - destruct H7 as [[<-|H]|H]; auto.
Qed.

Lemma bfs_inv_unknown nid q seen order :
  bfs_inv (nid :: q) seen order -> Dict.get nid N = None ->
  bfs_inv q (nid :: seen) order.
Proof.
  intros [H1 H2 H3 H4 H5 H6 H7] Hn. constructor; auto.
  - intros x Hx. destruct (H2 x Hx). split; [now right | assumption].
  - intros x [<-|Hx] Hm; auto. unfold Dict.mem in Hm. now rewrite Hn in Hm.
  - intros p x Hp Hl. destruct (H4 p x Hp Hl) as [H|[<-|H]];
      [left; now right | left; now left | now right].
  - intros x Hx. apply H6. now right.
  - destruct H7 as [[<-|H]|H]; [right; now left | now left | right; now right].
Qed.

Lemma bfs_inv_expand nid rec q seen order :
  bfs_inv (nid :: q) seen order -> ~ In nid seen ->
  Dict.get nid N = Some rec ->
  bfs_inv (q ++ NodeRecord.child_ids rec) (nid :: seen) (order ++ [nid]).
Proof.
  intros [H1 H2 H3 H4 H5 H6 H7] Hs Hn. constructor.
  - apply NoDup_app; [exact H1 | repeat constructor; auto | ].
    intros x Hx [<-|[]]. apply Hs. now apply H2.
  - intros x Hx. apply in_app_or in Hx. destruct Hx as [Hx|[<-|[]]].
    + destruct (H2 x Hx). split; [now right | assumption].
    + split; [now left | eapply get_Some_mem; eauto].
  - intros x [<-|Hx] Hm; apply in_or_app; [right; now left | left; auto].
  - intros p x Hp Hl. apply in_app_or in Hp. destruct Hp as [Hp|[<-|[]]].
    + destruct (H4 p x Hp Hl) as [H|[<-|H]].
      * left; now right.
      * left; now left.
      * right. apply in_or_app. now left.
    + destruct Hl as (rp & Hrp & Hx). rewrite Hn in Hrp. injection Hrp as <-.
      right. apply in_or_app. now right.
  - intros l1 x l2 Heq. apply snoc_split in Heq.
    destruct Heq as [(-> & -> & ->)|(l2' & -> & Heq)].
    + apply H6. now left.
    + eapply H5; eauto.
  - intros x Hx. apply in_app_or in Hx. destruct Hx as [Hx|Hx].
    + destruct (H6 x (or_intror Hx)) as [H|(p & Hp & Hl)]; auto.
      right. exists p. split; [apply in_or_app; now left | exact Hl].
    + right. exists nid. split; [apply in_or_app; right; now left|].
      now exists rec.
  - destruct H7 as [[<-|H]|H].
    + right; now left.
    + left. apply in_or_app. now left.
    + right; now right.
Qed.

Lemma bfs_loop_inv :
  forall fuel q seen order res,
    bfs_loop fuel N q seen order = Some res ->
    bfs_inv q seen order -> exists seen', bfs_inv [] seen' res.
Proof.
  induction fuel as [|fuel IH]; intros q seen order res; destruct q as [|nid q];
    simpl; try discriminate.
  - intros [= <-] H. eauto.
  - intros [= <-] H. eauto.
  - destruct (Str.mem nid seen) eqn:Hs.
    + intros Hr Hi. eapply IH; [exact Hr|].
      eapply bfs_inv_skip; [exact Hi|]. now apply str_mem_In.
    + apply str_mem_not_In in Hs.
      destruct (Dict.get nid N) as [rec|] eqn:Hn; intros Hr Hi.
      * eapply IH; [exact Hr|]. now apply bfs_inv_expand.
      * eapply IH; [exact Hr|]. now apply bfs_inv_unknown.
Qed.

Lemma bfs_loop_total :
  forall fuel q seen order,
    List.length q + pending N seen <= fuel ->
    exists res, bfs_loop fuel N q seen order = Some res.
Proof.
  induction fuel as [|fuel IH]; intros q seen order Hle;
    destruct q as [|nid q]; simpl in *; eauto; try lia.
  destruct (Str.mem nid seen) eqn:Hs.
  - apply IH. lia.
  - destruct (Dict.get nid N) as [rec|] eqn:Hn.
    + apply IH. rewrite length_app.
      pose proof (pending_hit N nid rec seen Hn Hs). lia.
    + apply IH. pose proof (pending_mono N nid seen). lia.
Qed.

Lemma bfs_order_total : exists order, bfs_order N rid = Some order.
Proof.
  unfold bfs_order. apply bfs_loop_total. unfold bfs_fuel, pending. simpl.
  apply le_n_S. apply Nat.eq_le_incl. f_equal.
Qed.

Lemma bfs_order_inv order :
  bfs_order N rid = Some order -> exists seen, bfs_inv [] seen order.
Proof.
  intros H. eapply bfs_loop_inv; [exact H | apply bfs_inv_init].
Qed.
End BfsFacts.

(** *** The traversal cursor *)

Lemma init_saves_inv payload ui path inv mtl s :
  init_saves payload ui path inv mtl s ->
  exists root,
    select_root_node payload = Ok root
    /\ index_tree root inv mtl = Ok (rootId s, nodes s)
    /\ bfs_order (nodes s) (rootId s) = Some (bfs s)
    /\ decisions s = [] /\ uiSystem s = ui.
Proof.
  unfold init_saves, cmd_init.
  destruct (select_root_node payload) as [root|]; [|discriminate].
  destruct (index_tree root inv mtl) as [[rid N]|] eqn:Hidx; [|discriminate].
  destruct (bfs_order N rid) as [order|] eqn:Hbfs; [|discriminate].
  simpl. intros [= <-]. simpl. exists root. auto.
Qed.

Lemma init_wf payload ui path inv mtl s :
  init_saves payload ui path inv mtl s -> wf_state s.
Proof.
  intros H. apply init_saves_inv in H.
  destruct H as (root & _ & Hidx & Hbfs & _ & _).
  apply index_tree_ok in Hidx. destruct Hidx as (_ & [Hkeys _] & _).
  apply bfs_order_inv in Hbfs. destruct Hbfs as [seen Hinv].
  split; [apply (inv_nodup _ _ _ _ _ Hinv)|].
  intros x Hx. destruct (inv_seen _ _ _ _ _ Hinv x Hx) as [_ Hm].
  split; [|exact Hm]. apply Hkeys. now apply mem_keys.
Qed.

Lemma apply_wf s payload s' :
  apply_saves s payload s' -> wf_state s -> wf_state s'.
Proof.
  intros Hs. destruct (apply_saves_normalizes _ _ _ Hs) as [P HP].
  destruct (cmd_apply_saves _ _ _ _ HP Hs) as (_ & _ & HN & HB & _).
  unfold wf_state. now rewrite HN, HB.
Qed.

Lemma reachable_wf s : reachable s -> wf_state s.
Proof.
  induction 1; [eapply init_wf | eapply apply_wf]; eauto.
Qed.

Lemma first_undecided_Some order D nid :
  first_undecided order D = Some nid ->
  exists before after,
    order = before ++ nid :: after
    /\ Forall (fun x => x = EmptyString \/ Dict.mem x D = true) before
    /\ nid <> EmptyString /\ Dict.mem nid D = false.
Proof.
  induction order as [|x order IH]; simpl; [discriminate|].
  destruct (Str.is_empty x) eqn:He; simpl.
  - intros H. destruct (IH H) as (b & a & -> & Hb & Hn).
    exists (x :: b), a. split; [reflexivity|]. split; [|exact Hn].
    constructor; [left; now apply is_empty_true | exact Hb].
  - destruct (Dict.mem x D) eqn:Hm; simpl.
    + intros H. destruct (IH H) as (b & a & -> & Hb & Hn).
      exists (x :: b), a. split; [reflexivity|]. split; [|exact Hn].
      constructor; [now right | exact Hb].
    + intros [= <-]. exists [], order. repeat split; auto.
      now apply is_empty_false.
Qed.

Lemma first_undecided_at before nid after D :
  Forall (fun x => Dict.mem x D = true) before ->
  nid <> EmptyString -> Dict.mem nid D = false ->
  first_undecided (before ++ nid :: after) D = Some nid.
Proof.
  intros Hb Hne Hm. induction Hb as [|x before Hx Hb IH]; simpl.
  - apply is_empty_false in Hne. now rewrite Hne, Hm.
  - now rewrite Hx, andb_false_r.
Qed.

Lemma first_undecided_None order D :
  (forall x, In x order -> x <> EmptyString) ->
  first_undecided order D = None <->
  Forall (fun x => Dict.mem x D = true) order.
Proof.
  intros Hne. induction order as [|x order IH]; simpl.
  - split; auto.
  - assert (Hx : Str.is_empty x = false)
      by (apply is_empty_false, Hne; now left).
    rewrite Hx. simpl. destruct (Dict.mem x D) eqn:Hm; simpl.
    + rewrite IH by (intros y Hy; apply Hne; now right).
      split; [now constructor | now inversion 1].
    + split; [discriminate | inversion 1; congruence].
Qed.

Lemma next_first_without_entry s nid :
  wf_state s -> _next_node_id s = Some nid <-> first_without_entry s nid.
Proof.
  intros [Hnd Hin]. unfold _next_node_id, first_without_entry, decided. split.
  - intros H. apply first_undecided_Some in H.
    destruct H as (b & a & Heq & Hb & _ & Hm). exists b, a.
    repeat split; auto. apply Forall_forall. intros x Hx.
    rewrite Forall_forall in Hb. destruct (Hb x Hx) as [->|]; auto.
    exfalso. apply (Hin EmptyString); [|reflexivity].
    rewrite Heq. apply in_or_app. now left.
  - intros (b & a & Heq & Hb & Hm). rewrite Heq.
    apply first_undecided_at; auto.
    apply Hin. rewrite Heq. apply in_or_app. right. now left.
Qed.

Lemma next_None s :
  wf_state s ->
  _next_node_id s = None <-> Forall (fun x => decided s x = true) (bfs s).
Proof.
  intros [_ Hin]. unfold _next_node_id, decided.
  apply first_undecided_None. intros x Hx. now apply Hin.
Qed.

Lemma next_in_bfs s nid :
  _next_node_id s = Some nid -> In nid (bfs s) /\ decided s nid = false.
Proof.
  intros H. apply first_undecided_Some in H.
  destruct H as (b & a & Heq & _ & _ & Hm). split; [|exact Hm].
  rewrite Heq. apply in_or_app. right. now left.
Qed.

Lemma cmd_next_answer s :
  wf_state s ->
  cmd_next s = match _next_node_id s with
               | Some nid => NextNode nid
               | None => NextDone
               end.
Proof.
  intros [_ Hin]. unfold cmd_next.
  destruct (_next_node_id s) as [nid|] eqn:E; [|reflexivity].
  apply next_in_bfs in E. destruct E as [E _].
  apply Hin in E. destruct E as [_ E]. unfold Dict.mem in E.
  now destruct (Dict.get nid (nodes s)).
Qed.

Lemma normalize_objects payload P :
  normalize_patch_payload payload = Ok P ->
  Forall (fun kd => exists o, snd kd = JObj o) P.
Proof.
  assert (Hitem : forall item kd,
             patch_of_item item = Some kd -> exists o, snd kd = JObj o).
  { intros item kd. unfold patch_of_item. destruct item; try discriminate.
    destruct (nonempty_str (getn "id" fields)); [|discriminate].
    intros [= <-]. simpl. eauto. }
  assert (Hfm : forall {A} (f : A -> option (string * json)) l,
             (forall a kd, f a = Some kd -> exists o, snd kd = JObj o) ->
             Forall (fun kd => exists o, snd kd = JObj o) (filter_map f l)).
  { intros A f l Hf. induction l as [|a l IH]; simpl; [constructor|].
    destruct (f a) eqn:E; [constructor; eauto | exact IH]. }
  unfold normalize_patch_payload. destruct payload; try discriminate.
  - intros [= <-]. now apply Hfm.
  - destruct (Dict.get "decisions" fields) as [[| | | | | |decs]|];
      try (destruct (patch_of_item (JObj fields)) eqn:E; [|discriminate];
           intros [= <-]; constructor; [eapply Hitem; eauto | constructor]).
    intros [= <-]. apply Hfm. intros [k v] kd. unfold patch_of_entry.
    destruct v; try discriminate. destruct (Str.is_empty k); [discriminate|].
    intros [= <-]. simpl. eauto.
Qed.

Lemma patch_entry_of_member (N : node_map) P nid :
  Forall (fun kd => exists o, snd kd = JObj o) P ->
  In nid (List.map fst P) -> Dict.mem nid N = true ->
  exists d, patch_entry N P nid = Some d.
Proof.
  intros Hobj. induction Hobj as [|[k v] P [o Ho] Hobj IH]; simpl;
    [contradiction|].
  simpl in Ho. subst v. intros [->|Hin] Hm.
  - destruct (patch_entry N P nid); eauto.
    rewrite String.eqb_refl, Hm. simpl. eauto.
  - destruct (IH Hin Hm) as [d ->]. eauto.
Qed.

Lemma applies_keep s s' nid :
  applies s s' -> decided s nid = true ->
  decided s' nid = true /\ bfs s' = bfs s /\ nodes s' = nodes s.
Proof.
  induction 1 as [s|s payload s' s'' Hs _ IH]; intros Hd; [auto|].
  destruct (apply_saves_normalizes _ _ _ Hs) as [P HP].
  destruct (cmd_apply_saves _ _ _ _ HP Hs) as (_ & _ & HN & HB & _).
  destruct IH as (H1 & H2 & H3).
  - unfold decided in *. eapply apply_keeps_entries; eauto.
  - repeat split; congruence.
Qed.

Lemma apply_decides s payload P s' nid :
  normalize_patch_payload payload = Ok P -> In nid (List.map fst P) ->
  Dict.mem nid (nodes s) = true -> apply_saves s payload s' ->
  decided s' nid = true.
Proof.
  intros HP Hin Hm Hs.
  destruct (cmd_apply_saves _ _ _ _ HP Hs) as (_ & _ & _ & _ & Hst & _).
  destruct (patch_entry_of_member (nodes s) P nid) as [d Hd]; auto.
  - eapply normalize_objects; eauto.
  - unfold decided, Dict.mem. now rewrite Hst, Hd.
Qed.

Lemma filter_shrinks {A : Type} (f g : A -> bool) (l : list A) (a : A) :
  (forall x, g x = true -> f x = true) ->
  In a l -> f a = true -> g a = false ->
  List.length (filter g l) < List.length (filter f l).
Proof.
  intros Hgf. 
  assert (Hle : forall l', List.length (filter g l') <= List.length (filter f l')).
  { induction l' as [|x l' IH]; simpl; auto.
    destruct (g x) eqn:Hg; [rewrite (Hgf x Hg); simpl; lia|].
    destruct (f x); simpl; lia. }
  induction l as [|x l IH]; simpl; [contradiction|].
  intros [->|Hin] Hf Hg.
  - rewrite Hf, Hg. simpl. specialize (Hle l). lia.
  - specialize (IH Hin Hf Hg).
    destruct (g x) eqn:Hgx; [rewrite (Hgf x Hgx); simpl; lia|].
    destruct (f x); simpl; lia.
Qed.

Lemma decide_next_apply s nid d :
  wf_state s -> _next_node_id s = Some nid ->
  apply_saves s (JArr [JObj (("id", JStr nid) :: d)]) (decide_next s d)
  /\ normalize_patch_payload (JArr [JObj (("id", JStr nid) :: d)])
     = Ok [(nid, JObj d)].
Proof.
  intros [_ Hin] Hnext. destruct (next_in_bfs _ _ Hnext) as [Hb _].
  destruct (Hin nid Hb) as [Hne Hm].
  assert (Hnorm : normalize_patch_payload (JArr [JObj (("id", JStr nid) :: d)])
                  = Ok [(nid, JObj d)]).
  { apply is_empty_false in Hne. simpl. unfold getn. simpl. now rewrite Hne. }
  split; [|exact Hnorm].
  unfold decide_next, apply_saves. rewrite Hnext.
  unfold cmd_apply. rewrite Hnorm.
  destruct (apply_patches (nodes s) [(nid, JObj d)] (decisions s) [] [])
    as [[D A] W]. reflexivity.
Qed.

Lemma decide_next_progress s d :
  wf_state s ->
  wf_state (decide_next s d)
  /\ (_next_node_id s = None -> decide_next s d = s)
  /\ (forall nid, _next_node_id s = Some nid ->
                  undecided_count (decide_next s d) < undecided_count s).
Proof.
  intros Hwf. destruct (_next_node_id s) as [nid|] eqn:Hnext.
  - destruct (decide_next_apply s nid d Hwf Hnext) as [Hs Hnorm].
    split; [eapply apply_wf; eauto|]. split; [discriminate|].
    intros nid' [= <-].
    destruct (cmd_apply_saves _ _ _ _ Hnorm Hs) as (_ & _ & _ & HB & _).
    destruct (next_in_bfs _ _ Hnext) as [Hb Hund].
    unfold undecided_count. rewrite HB.
    apply filter_shrinks with (a := nid); auto.
    + intros x Hx. apply negb_true_iff in Hx. apply negb_true_iff.
      destruct (decided s x) eqn:E; [|reflexivity].
      unfold decided in *. 
      rewrite (apply_keeps_entries _ _ _ x Hs E) in Hx. discriminate.
    + now rewrite Hund.
    + apply negb_false_iff.
      eapply apply_decides; [exact Hnorm | now left | | exact Hs].
      destruct Hwf as [_ Hin]. now apply Hin.
  - unfold decide_next. rewrite Hnext.
    split; [exact Hwf|]. split; [reflexivity | intros nid; discriminate].
Qed.

Lemma undecided_zero s :
  wf_state s -> undecided_count s = 0 -> _next_node_id s = None.
Proof.
  intros Hwf H0. apply next_None; [exact Hwf|].
  apply Forall_forall. intros x Hx.
  destruct (decided s x) eqn:E; [reflexivity|]. exfalso.
  unfold undecided_count in H0.
  assert (Hin : In x (filter (fun x => negb (decided s x)) (bfs s))).
  { apply filter_In. split; [exact Hx | now rewrite E]. }
  destruct (filter (fun x => negb (decided s x)) (bfs s)); [contradiction|].
  discriminate.
Qed.

Lemma rounds_finish (ds : list dict) :
  forall s, wf_state s -> undecided_count s <= List.length ds ->
            _next_node_id (fold_left decide_next ds s) = None
            /\ wf_state (fold_left decide_next ds s).
Proof.
  induction ds as [|d ds IH]; intros s Hwf Hle; simpl in *.
  - split; [apply undecided_zero; [exact Hwf | lia] | exact Hwf].
  - destruct (decide_next_progress s d Hwf) as (Hwf' & Hnone & Hsome).
    apply IH; [exact Hwf'|].
    destruct (_next_node_id s) as [nid|] eqn:Hnext.
    + specialize (Hsome nid eq_refl). lia.
    + rewrite (Hnone eq_refl).
      assert (H0 : undecided_count s = 0); [|lia].
      unfold undecided_count.
      apply next_None in Hnext; [|exact Hwf].
      induction Hnext as [|x l Hx _ IHl]; simpl; [reflexivity|].
      now rewrite Hx.
Qed.

Lemma undecided_le_nodes s :
  wf_state s -> undecided_count s <= List.length (nodes s).
Proof.
  intros [Hnd Hin]. unfold undecided_count.
  apply Nat.le_trans with (List.length (bfs s)); [apply filter_length_le|].
  replace (List.length (nodes s)) with (List.length (Dict.keys (nodes s)))
    by apply length_map.
  apply NoDup_incl_length; [exact Hnd|].
  intros x Hx. apply mem_keys. now apply Hin.
Qed.

(** C1. In every state of a workflow, [next] returns the first id of the
    breadth-first order without an entry in the decision store, and the
    done signal exactly when every id of the order has one. Once a
    decision for the returned id has been applied, no later state of the
    workflow makes [next] return that id; and after as many rounds of
    deciding the node [next] returns as there are nodes, [next] answers
    done. *)
Theorem C1_cursor_progress (s : State) :
  reachable s ->
  (forall nid, _next_node_id s = Some nid <-> first_without_entry s nid)
  /\ (forall nid, cmd_next s = NextNode nid <-> first_without_entry s nid)
  /\ (_next_node_id s = None
      <-> Forall (fun x => decided s x = true) (bfs s))
  /\ (cmd_next s = NextDone
      <-> Forall (fun x => decided s x = true) (bfs s))
  /\ (forall nid payload P s1 s2,
         _next_node_id s = Some nid ->
         normalize_patch_payload payload = Ok P -> In nid (List.map fst P) ->
         apply_saves s payload s1 -> applies s1 s2 ->
         decided s2 nid = true /\ _next_node_id s2 <> Some nid)
  /\ (forall ds : list dict,
         List.length ds = List.length (nodes s) ->
         _next_node_id (fold_left decide_next ds s) = None
         /\ cmd_next (fold_left decide_next ds s) = NextDone).
Proof.
  intros Hr. pose proof (reachable_wf s Hr) as Hwf.
  pose proof (cmd_next_answer s Hwf) as Hans.
  split; [intros nid; now apply next_first_without_entry|].
  split.
  { intros nid. rewrite <- next_first_without_entry by exact Hwf.
    rewrite Hans. destruct (_next_node_id s); split; congruence. }
  split; [now apply next_None|].
  split.
  { rewrite <- next_None by exact Hwf.
    rewrite Hans. destruct (_next_node_id s); split; congruence. }
  split.
  - intros nid payload P s1 s2 Hnext HP Hin Hs1 Hs2.
    destruct (next_in_bfs _ _ Hnext) as [Hb _].
    destruct Hwf as [_ Hwf]. destruct (Hwf nid Hb) as [_ Hm].
    assert (Hd1 : decided s1 nid = true) by (eapply apply_decides; eauto).
    destruct (applies_keep _ _ nid Hs2 Hd1) as (Hd2 & _ & _).
    split; [exact Hd2|]. intros Hn. apply next_in_bfs in Hn.
    destruct Hn as [_ Hn]. congruence.
  - intros ds Hlen.
    destruct (rounds_finish ds s Hwf) as [Hnone Hwf'].
    + rewrite Hlen. now apply undecided_le_nodes.
    + split; [exact Hnone|]. rewrite (cmd_next_answer _ Hwf'). now rewrite Hnone.
Qed.

(** *** Trees without repeated ids *)

Lemma nodup_app_inv {A : Type} (l1 l2 : list A) :
  NoDup (l1 ++ l2) ->
  NoDup l1 /\ NoDup l2 /\ forall x, In x l1 -> ~ In x l2.
Proof.
  induction l1 as [|a l1 IH]; simpl; intros H.
  - repeat split; [constructor | exact H | intros x []].
  - inversion H as [|? ? Hna Hnd]; subst. destruct (IH Hnd) as (H1 & H2 & H3).
    repeat split; auto.
    + constructor; [|exact H1]. intros Hin. apply Hna, in_or_app. now left.
    + intros x [<-|Hx] Hx2; [apply Hna, in_or_app; now right | eapply H3; eauto].
Qed.

Lemma mem_app {V : Type} (k : string) (d d' : Dict.t V) :
  Dict.mem k (d ++ d') = Dict.mem k d || Dict.mem k d'.
Proof. unfold Dict.mem. rewrite get_app. now destruct (Dict.get k d). Qed.

Lemma keys_app {V : Type} (d d' : Dict.t V) :
  Dict.keys (d ++ d') = Dict.keys d ++ Dict.keys d'.
Proof. apply map_app. Qed.

Section UniqueIds.
Variables (inv : bool) (mtl : Z).

Lemma visit_map_kept :
  forall node pid d N, kept N (visit_map inv mtl node pid d N).
Proof.
  induction node as [node IH] using node_tree_ind. intros pid d N.
  destruct node as [| | | | | |fields]; try apply kept_refl.
  rewrite visit_map_obj.
  destruct (negb (should_include_node fields inv)); [apply kept_refl|].
  destruct (nonempty_str (getn "id" fields)) as [nid|]; [|apply kept_refl].
  destruct (Dict.mem nid N) eqn:Hfresh; [apply kept_refl|].
  eapply kept_trans; [apply kept_set; exact Hfresh|].
  assert (Hloop : forall cs M,
             (forall c, In c cs -> In c (children_of fields)) ->
             kept M (visit_map_children inv mtl nid d cs M)).
  { induction cs as [|c cs IHcs]; intros M Hsub; simpl; [apply kept_refl|].
    eapply kept_trans; [|apply IHcs; intros c' Hc'; apply Hsub; now right].
    assert (Hc : In c (children_of fields)) by (apply Hsub; now left).
    unfold children_of in Hc.
    destruct (Dict.get "children" fields) as [[| | | | |items|]|] eqn:Hch;
      try contradiction.
    eapply IH; eauto. }
  apply Hloop. auto.
Qed.

(** A record, once stored, stays the record of its id. *)
Lemma visit_kept node pid d N N' :
  visit inv mtl node pid d N = Ok N' -> kept N N'.
Proof.
  intros H. apply visit_returns in H. destruct H as [-> _].
  apply visit_map_kept.
Qed.

Lemma tree_ids_obj fields :
  tree_ids inv (JObj fields)
  = if negb (should_include_node fields inv) then []
    else match nonempty_str (getn "id" fields) with
         | None => []
         | Some node_id =>
             node_id :: flat_map (tree_ids inv) (children_of fields)
         end.
Proof.
  cbn [tree_ids]. unfold children_of.
  destruct (negb (should_include_node fields inv)); [reflexivity|].
  destruct (nonempty_str (getn "id" fields)); [|reflexivity].
  rewrite with_field_get.
  destruct (Dict.get "children" fields) as [[]|]; reflexivity.
Qed.

Lemma tree_records_obj fields pid d :
  tree_records inv mtl (JObj fields) pid d
  = if negb (should_include_node fields inv) then []
    else match nonempty_str (getn "id" fields) with
         | None => []
         | Some node_id =>
             (node_id, node_record inv mtl fields node_id pid d)
             :: flat_map
                  (fun c => tree_records inv mtl c (Some node_id) (S d))
                  (children_of fields)
         end.
Proof.
  cbn [tree_records]. unfold children_of.
  destruct (negb (should_include_node fields inv)); [reflexivity|].
  destruct (nonempty_str (getn "id" fields)); [|reflexivity].
  rewrite with_field_get.
  destruct (Dict.get "children" fields) as [[]|]; reflexivity.
Qed.

Lemma child_in_tree fields c :
  In c (children_of fields) ->
  exists cs, Dict.get "children" fields = Some (JArr cs) /\ In c cs.
Proof.
  unfold children_of.
  destruct (Dict.get "children" fields) as [[| | | | |items|]|];
    try contradiction.
  eauto.
Qed.

Lemma keys_tree_records :
  forall node pid d,
    Dict.keys (tree_records inv mtl node pid d) = tree_ids inv node.
Proof.
  induction node as [node IH] using node_tree_ind. intros pid d.
  destruct node as [| | | | | |fields]; try reflexivity.
  rewrite tree_records_obj, tree_ids_obj.
  destruct (negb (should_include_node fields inv)); [reflexivity|].
  destruct (nonempty_str (getn "id" fields)) as [nid|]; [|reflexivity].
  unfold Dict.keys. simpl. f_equal.
  assert (Hloop : forall cs,
             (forall c, In c cs -> In c (children_of fields)) ->
             List.map fst
               (flat_map
                  (fun c => tree_records inv mtl c (Some nid) (S d)) cs)
             = flat_map (tree_ids inv) cs).
  { induction cs as [|c cs IHcs]; intros Hsub; simpl; [reflexivity|].
    rewrite map_app. f_equal.
    - destruct (child_in_tree fields c) as (items & Hch & Hc);
        [apply Hsub; now left|].
      apply (IH fields items c eq_refl Hch Hc).
    - apply IHcs. intros c' Hc'. apply Hsub. now right. }
  apply Hloop. auto.
Qed.

(** On a tree whose ids are distinct and new to [N], [visit] appends
    the records of the tree in document order. *)
Lemma visit_map_fresh :
  forall node pid d N,
    NoDup (tree_ids inv node) ->
    (forall x, In x (tree_ids inv node) -> Dict.mem x N = false) ->
    visit_map inv mtl node pid d N = N ++ tree_records inv mtl node pid d.
Proof.
  induction node as [node IH] using node_tree_ind. intros pid d N Hnd Hnew.
  destruct node as [| | | | | |fields];
    try (simpl; now rewrite app_nil_r).
  rewrite visit_map_obj, tree_records_obj. rewrite tree_ids_obj in Hnd, Hnew.
  destruct (negb (should_include_node fields inv));
    [now rewrite app_nil_r|].
  destruct (nonempty_str (getn "id" fields)) as [nid|];
    [|now rewrite app_nil_r].
  rewrite (Hnew nid) by now left.
  rewrite set_fresh by (apply Hnew; now left).
  inversion Hnd as [|? ? Hnid Hnd']; subst.
  assert (Hloop : forall cs M,
             (forall c, In c cs -> In c (children_of fields)) ->
             NoDup (flat_map (tree_ids inv) cs) ->
             (forall x, In x (flat_map (tree_ids inv) cs) ->
                        Dict.mem x M = false) ->
             visit_map_children inv mtl nid d cs M
             = M ++ flat_map
                      (fun c => tree_records inv mtl c (Some nid) (S d)) cs).
  { induction cs as [|c cs IHcs]; intros M Hsub Hnd0 Hnew0; simpl.
    - now rewrite app_nil_r.
    - simpl in Hnd0, Hnew0.
      destruct (nodup_app_inv _ _ Hnd0) as (Hc1 & Hc2 & Hc3).
      destruct (child_in_tree fields c) as (items & Hch & Hc);
        [apply Hsub; now left|].
      rewrite (IH fields items c eq_refl Hch Hc (Some nid) (S d) M Hc1)
        by (intros x Hx; apply Hnew0, in_or_app; now left).
      rewrite app_assoc. apply IHcs; auto.
      + intros c' Hc'. apply Hsub. now right.
      + intros x Hx. rewrite mem_app.
        rewrite (Hnew0 x) by (apply in_or_app; now right). simpl.
        apply mem_false_keys. rewrite keys_tree_records.
        intros Hx1. exact (Hc3 x Hx1 Hx). }
  rewrite Hloop; auto.
  - now rewrite <- app_assoc.
  - intros x Hx. rewrite mem_app.
    rewrite (Hnew x) by now right. simpl. unfold Dict.mem. simpl.
    destruct (String.eqb_spec x nid) as [->|]; [contradiction | reflexivity].
Qed.
End UniqueIds.

Lemma in_filter_map {A B : Type} (f : A -> option B) (l : list A) (y : B) :
  In y (filter_map f l) <-> exists x, In x l /\ f x = Some y.
Proof.
  induction l as [|a l IH]; simpl.
  - split; [contradiction | intros (x & [] & _)].
  - destruct (f a) as [b|] eqn:E; simpl; rewrite IH; split.
    + intros [<-|(x & Hx & Hf)]; eauto.
    + intros (x & [<-|Hx] & Hf); [left; congruence | eauto].
    + intros (x & Hx & Hf); eauto.
    + intros (x & [<-|Hx] & Hf); [congruence | eauto].
Qed.

Section RecordFacts.
Variables (inv : bool) (mtl : Z).

Lemma listed_child_ids_spec fields x :
  In x (listed_child_ids inv (getn "children" fields))
  <-> exists c, In c (children_of fields) /\ listed_child_id inv c = Some x.
Proof.
  unfold listed_child_ids, children_of, getn.
  destruct (Dict.get "children" fields) as [[| | | | |items|]|];
    try (split; [contradiction | intros (c & [] & _)]).
  apply in_filter_map.
Qed.

Lemma records_head node pid d :
  match listed_child_id inv node with
  | Some nid =>
      exists fields rest,
        node = JObj fields
        /\ tree_records inv mtl node pid d
           = (nid, node_record inv mtl fields nid pid d) :: rest
  | None => tree_records inv mtl node pid d = []
  end.
Proof.
  destruct node as [| | | | | |fields]; try reflexivity.
  rewrite tree_records_obj. unfold listed_child_id.
  destruct (should_include_node fields inv); simpl; [|reflexivity].
  destruct (nonempty_str (getn "id" fields)); eauto.
Qed.

Lemma records_parent :
  forall node pid d x r,
    In (x, r) (tree_records inv mtl node pid d) ->
    (listed_child_id inv node = Some x
     /\ NodeRecord.parent_id r = pid /\ NodeRecord.depth r = d)
    \/ exists p rp,
        NodeRecord.parent_id r = Some p
        /\ In (p, rp) (tree_records inv mtl node pid d)
        /\ NodeRecord.depth r = S (NodeRecord.depth rp)
        /\ In x (NodeRecord.child_ids rp).
Proof.
  induction node as [node IH] using node_tree_ind. intros pid d x r.
  destruct node as [| | | | | |fields]; try contradiction.
  rewrite tree_records_obj. unfold listed_child_id.
  destruct (should_include_node fields inv); simpl; [|contradiction].
  destruct (nonempty_str (getn "id" fields)) as [nid|]; [|contradiction].
  intros [H|H].
  - injection H as <- <-. left. auto.
  - right. apply in_flat_map in H. destruct H as (c & Hc & Hin).
    destruct (child_in_tree fields c Hc) as (items & Hch & Hci).
    destruct (IH fields items c eq_refl Hch Hci _ _ _ _ Hin)
      as [(Hl & Hp & Hd)|(p & rp & Hp & Hprp & Hd & Hx)].
    + exists nid, (node_record inv mtl fields nid pid d).
      split; [exact Hp|]. split; [now left|]. split; [exact Hd|].
      simpl. apply listed_child_ids_spec. eauto.
    + exists p, rp. split; [exact Hp|]. split; [|now split].
      right. apply in_flat_map. eauto.
Qed.

Lemma records_children :
  forall node pid d p rp c,
    In (p, rp) (tree_records inv mtl node pid d) ->
    In c (NodeRecord.child_ids rp) ->
    exists rc, In (c, rc) (tree_records inv mtl node pid d)
               /\ NodeRecord.parent_id rc = Some p.
Proof.
  induction node as [node IH] using node_tree_ind. intros pid d p rp c.
  destruct node as [| | | | | |fields]; try contradiction.
  rewrite tree_records_obj.
  destruct (negb (should_include_node fields inv)); [contradiction|].
  destruct (nonempty_str (getn "id" fields)) as [nid|]; [|contradiction].
  intros [H|H] Hc.
  - injection H as <- <-. simpl in Hc. apply listed_child_ids_spec in Hc.
    destruct Hc as (c' & Hc' & Hl).
    pose proof (records_head c' (Some nid) (S d)) as Hh. rewrite Hl in Hh.
    destruct Hh as (cf & rest & -> & Hrec).
    exists (node_record inv mtl cf c (Some nid) (S d)). split; [|reflexivity].
    right. apply in_flat_map. exists (JObj cf). split; [exact Hc'|].
    rewrite Hrec. now left.
  - apply in_flat_map in H. destruct H as (c' & Hc' & Hin).
    destruct (child_in_tree fields c' Hc') as (items & Hch & Hci).
    destruct (IH fields items c' eq_refl Hch Hci _ _ _ _ _ Hin Hc)
      as (rc & Hrc & Hp).
    exists rc. split; [|exact Hp]. right. apply in_flat_map. eauto.
Qed.

(** On a tree without repeated ids, the breadth-first order lists
    every record, each after its parent. *)
Lemma unique_ids_parents_first root rid N order :
  index_tree root inv mtl = Ok (rid, N) ->
  bfs_order N rid = Some order ->
  NoDup (tree_ids inv (JObj root)) ->
  parents_first N order.
Proof.
  intros Hidx Hbfs Hnd.
  assert (Hrid : nonempty_str (getn "id" root) = Some rid).
  { exact (proj1 (index_tree_root _ _ _ _ _ Hidx)). }
  apply index_tree_ok in Hidx. destruct Hidx as (_ & _ & HN).
  rewrite visit_map_fresh in HN by (auto; intros; reflexivity).
  cbn [app] in HN.
  assert (Hkeys : NoDup (Dict.keys N))
    by (rewrite HN, keys_tree_records; exact Hnd).
  apply bfs_order_inv in Hbfs. destruct Hbfs as [seen Hinv].
  assert (Hroot : forall x r,
             In (x, r) N -> NodeRecord.parent_id r = None -> x = rid).
  { intros x r Hin Hp. rewrite HN in Hin.
    apply records_parent in Hin.
    destruct Hin as [(Hl & _)|(p & rp & Hp' & _)]; [|congruence].
    unfold listed_child_id in Hl.
    destruct (should_include_node root inv); congruence. }
  assert (Hall : forall n x r,
             NodeRecord.depth r = n -> In (x, r) N -> In x order).
  { induction n as [|n IHn]; intros x r Hd Hin.
    - pose proof Hin as Hin'. rewrite HN in Hin'.
      apply records_parent in Hin'.
      destruct Hin' as [(_ & Hp & _)|(p & rp & _ & _ & Hd' & _)]; [|lia].
      rewrite (Hroot x r Hin Hp).
      apply (inv_order _ _ _ _ _ Hinv).
      + destruct (inv_root _ _ _ _ _ Hinv) as [[]|H]; exact H.
      + rewrite <- (Hroot x r Hin Hp). apply mem_keys.
        change x with (fst (x, r)). now apply in_map.
    - pose proof Hin as Hin'. rewrite HN in Hin'.
      apply records_parent in Hin'.
      destruct Hin' as [(_ & _ & Hd')|(p & rp & _ & Hprp & Hd' & Hx)]; [lia|].
      rewrite <- HN in Hprp.
      assert (Hp : In p order) by (apply (IHn p rp); [lia | exact Hprp]).
      apply (inv_order _ _ _ _ _ Hinv).
      + destruct (inv_closed _ _ _ _ _ Hinv p x Hp) as [H|[]]; [|exact H].
        exists rp. split; [now apply In_get | exact Hx].
      + apply mem_keys. change x with (fst (x, r)). now apply in_map. }
  intros x r p Hx Hp. apply get_In in Hx.
  assert (Hxo : In x order) by (eapply Hall; eauto).
  apply in_split in Hxo. destruct Hxo as (l1 & l2 & Ho).
  destruct (inv_struct _ _ _ _ _ Hinv l1 x l2 Ho)
    as [->|(p' & Hp' & rp' & Hrp' & Hlx)].
  - exfalso.
    pose proof (records_head (JObj root) None 0) as Hh.
    unfold listed_child_id in Hh. rewrite HN in Hx.
    destruct (should_include_node root inv);
      [|rewrite Hh in Hx; contradiction].
    rewrite Hrid in Hh. destruct Hh as (f & rest & Hf & Hrec).
    injection Hf as <-.
    rewrite <- HN in Hx. apply In_get in Hx; [|exact Hkeys].
    rewrite HN, Hrec in Hx. simpl in Hx. rewrite String.eqb_refl in Hx.
    injection Hx as <-. discriminate.
  - apply get_In in Hrp'. rewrite HN in Hrp'.
    destruct (records_children _ _ _ _ _ _ Hrp' Hlx) as (rc & Hrc & Hpc).
    rewrite <- HN in Hrc.
    assert (rc = r).
    { apply In_get in Hrc; [|exact Hkeys]. apply In_get in Hx; [|exact Hkeys].
      congruence. }
    subst rc. assert (p' = p) by congruence. subst p'.
    apply in_split in Hp'. destruct Hp' as (la & lb & ->).
    exists la, lb, l2. rewrite Ho. now rewrite <- app_assoc.
Qed.
End RecordFacts.

(** C2 (as amended). For every tree the indexer accepts, duplicates or
    not, the record a [parentId] refers to exists and has a strictly
    lower depth. When no id occurs twice among the nodes the traversal
    reaches, every node with a [parentId] appears in the breadth-first
    order, strictly after its parent. *)
Theorem C2_parents_first (root : dict) (inv : bool) (mtl : Z)
    (rid : string) (N : node_map) (order : list string) :
  index_tree root inv mtl = Ok (rid, N) ->
  bfs_order N rid = Some order ->
  parents_shallower N
  /\ (NoDup (tree_ids inv (JObj root)) -> parents_first N order).
Proof.
  intros Hidx Hbfs. split.
  - apply index_tree_ok in Hidx. destruct Hidx as (_ & [_ Hp] & _).
    now apply parents_exact_shallower.
  - intros Hnd. eapply unique_ids_parents_first; eauto.
Qed.

(** C7 (as amended). A node whose id already has a record is passed over
    together with everything below it: [visit] returns the map as it was,
    raising nothing, and the loop over its siblings goes on from that map;
    a record, once stored, is the record of its id through the rest of the
    indexing, so the first occurrence is the one kept. No warning is
    printed: whenever indexing returns, whatever ids repeat in the tree,
    [cmd_init] ends with status 0, an empty stderr and the indexed state;
    indexing fails for a root without an id or for a number [float]
    refuses, never for a repeated id, and the only line [cmd_init] ever
    prints on stderr is that of a failure. *)
Theorem C7_duplicate_ids_keep_first :
  (forall inv mtl fields nid pid d N,
      nonempty_str (getn "id" fields) = Some nid -> Dict.mem nid N = true ->
      visit inv mtl (JObj fields) pid d N = Ok N)
  /\ (forall inv mtl fields nid p d cs N,
         nonempty_str (getn "id" fields) = Some nid -> Dict.mem nid N = true ->
         visit_children inv mtl p d (JObj fields :: cs) N
         = visit_children inv mtl p d cs N)
  /\ (forall inv mtl node pid d N N' k r,
         visit inv mtl node pid d N = Ok N' ->
         Dict.get k N = Some r -> Dict.get k N' = Some r)
  /\ (forall payload ui path inv mtl root rid N,
         select_root_node payload = Ok root ->
         index_tree root inv mtl = Ok (rid, N) ->
         exists order,
           bfs_order N rid = Some order
           /\ exit_code (cmd_init payload ui path inv mtl) = 0%Z
           /\ stderr (cmd_init payload ui path inv mtl) = []
           /\ saved (cmd_init payload ui path inv mtl)
              = Some (mkState ui rid N order []))
  /\ (forall root inv mtl msg,
         index_tree root inv mtl = Raise msg ->
         msg = "root node is missing a string 'id'" \/ msg = INT_TOO_LARGE)
  /\ (forall payload ui path inv mtl,
         let run := cmd_init payload ui path inv mtl in
         (exit_code run = 0%Z /\ stderr run = [])
         \/ (exit_code run = 2%Z
             /\ exists msg, stderr run = ["error: init failed: " ^^ msg])).
Proof.
  split; [intros; eapply visit_duplicate; eauto|].
  split.
  { intros inv mtl fields nid p d cs N Hid Hm.
    rewrite visit_children_cons.
    now rewrite (visit_duplicate inv mtl fields nid _ _ N Hid Hm). }
  split.
  { intros inv mtl node pid d N N' k r Hv. now apply (visit_kept _ _ _ _ _ _ _ Hv). }
  split.
  { intros payload ui path inv mtl root rid N Hroot Hidx.
    destruct (bfs_order_total N rid) as [order Hbfs].
    exists order. unfold cmd_init. rewrite Hroot, Hidx, Hbfs.
    simpl. auto. }
  split.
  { intros root inv mtl msg H.
    pose proof (index_tree_overflow inv mtl root) as Ho. rewrite H in Ho.
    destruct Ho as [[_ ->]|[_ ->]]; auto. }
  intros payload ui path inv mtl. cbv zeta. unfold cmd_init.
  destruct (select_root_node payload) as [root|msg];
    [|right; split; [reflexivity | eexists; reflexivity]].
  destruct (index_tree root inv mtl) as [[rid N]|msg];
    [|right; split; [reflexivity | eexists; reflexivity]].
  destruct (bfs_order_total N rid) as [order Hbfs]. rewrite Hbfs.
  left. split; reflexivity.
Qed.

(** *** The geometric-constraint hint *)

Lemma hints_inv (N : node_map) nid pid hint :
  compute_constraint_hints N nid (Some pid) = Some hint ->
  exists n p layout frame pframe constraints,
    pid <> EmptyString
    /\ Dict.get nid N = Some n /\ Dict.get pid N = Some p
    /\ get_or "layout" (JObj []) (NodeRecord.facts n) = JObj layout
    /\ get_or "frame" (JObj []) (NodeRecord.facts n) = JObj frame
    /\ get_or "frame" (JObj []) (NodeRecord.facts p) = JObj pframe
    /\ driven_by_parent (get_or "layout" (JObj []) (NodeRecord.facts p)) layout
       = false
    /\ getn "constraints" layout = JObj constraints
    /\ (is_number (getn "x" frame) && is_number (getn "y" frame)
        && is_number (getn "width" frame) && is_number (getn "height" frame)
        && is_number (getn "width" pframe) && is_number (getn "height" pframe)
        = true)
    /\ hint = "pins=" ^^
              String.concat ":"
                (uniq_pins
                   (collect_pins layout constraints
                      (py_float (getn "x" frame)) (py_float (getn "y" frame))
                      (py_float (getn "width" frame))
                      (py_float (getn "height" frame))
                      (py_float (getn "width" pframe))
                      (py_float (getn "height" pframe))) []).
Proof.
  unfold compute_constraint_hints.
  destruct (Str.is_empty pid) eqn:Hpid; [discriminate|].
  destruct (Dict.get nid N) as [n|]; [|discriminate].
  destruct (Dict.get pid N) as [p|]; [|discriminate].
  destruct (get_or "layout" (JObj []) (NodeRecord.facts n))
    as [| | | | | |layout] eqn:Hl; try discriminate.
  destruct (get_or "frame" (JObj []) (NodeRecord.facts n))
    as [| | | | | |frame] eqn:Hf; try discriminate.
  destruct (get_or "frame" (JObj []) (NodeRecord.facts p))
    as [| | | | | |pframe] eqn:Hpf; try discriminate.
  destruct (driven_by_parent _ layout) eqn:Hdr; [discriminate|].
  destruct (getn "constraints" layout) as [| | | | | |constraints] eqn:Hcs;
    try discriminate.
  match goal with
  | |- context [if ?b then _ else _] => destruct b eqn:Hnum
  end; [|discriminate].
  match goal with
  | |- context [match ?c with [] => _ | _ => _ end] => destruct c eqn:Hpins
  end; [discriminate|].
  intros [= <-]. exists n, p, layout, frame, pframe, constraints.
  apply is_empty_false in Hpid. repeat split; auto.
  rewrite Hpins. reflexivity.
Qed.

Lemma add_pin_app pins key value :
  exists text, add_pin pins key value = pins ++ [key ^^ "=" ^^ text].
Proof. unfold add_pin. destruct (Flt.to_Z value); eauto. Qed.

Lemma axis_pins_app pins mode lead trail mid off size extent :
  exists extra,
    axis_pins pins mode lead trail mid off size extent = pins ++ extra.
Proof.
  unfold axis_pins.
  repeat match goal with
         | |- context [if ?b then _ else _] => destruct b
         end;
    try (destruct (add_pin_app pins lead off) as [t ->]; eauto; fail);
    try (destruct (add_pin_app pins trail (- (extent - (off + size)))%float)
           as [t ->]; eauto; fail);
    try (destruct (add_pin_app pins mid ((off + size / 2) - extent / 2)%float)
           as [t ->]; eauto; fail).
  - destruct (add_pin_app pins lead off) as [t ->].
    destruct (add_pin_app (pins ++ [lead ^^ "=" ^^ t]) trail
                (- (extent - (off + size)))%float) as [t' ->].
    rewrite <- app_assoc. eauto.
  - exists []. now rewrite app_nil_r.
Qed.

Lemma collect_pins_head layout constraints x y w h pw ph first :
  axis_pins [] (Str.upper (py_str (get_or "horizontal" (JStr "") constraints)))
    "L" "R" "CX" x w pw = [first] ->
  exists rest, collect_pins layout constraints x y w h pw ph = first :: rest.
Proof.
  intros Hh. unfold collect_pins. rewrite Hh.
  destruct (axis_pins_app [first]
              (Str.upper (py_str (get_or "vertical" (JStr "") constraints)))
              "T" "B" "CY" y h ph) as [e1 ->].
  destruct (add_pin_app ([first] ++ e1) "W" w) as [tw Hw].
  repeat match goal with
         | |- context [if ?b then _ else _] => destruct b
         end;
    rewrite ?Hw;
    try match goal with
        | |- context [add_pin ?p "H" h] =>
            destruct (add_pin_app p "H" h) as [th ->]
        end;
    simpl; eauto.
Qed.

Lemma concat_head (sep first : string) (rest : list string) :
  exists tail,
    String.concat sep (first :: rest) = first ^^ tail
    /\ (tail = EmptyString \/ exists r, tail = sep ^^ r).
Proof.
  destruct rest as [|x rest]; simpl.
  - exists EmptyString. split; [|now left].
    induction first; simpl; congruence.
  - eexists. split; [reflexivity|]. right. eauto.
Qed.

(** C5. A child at x = 20 with width 100, under a parent of width 300
    and with horizontal constraint MAX: whenever the hint is produced it
    begins with the pin R=-180 (the pins are joined by colons after
    [pins=], and the horizontal pin comes first), and it is produced as
    soon as the other preconditions hold. *)
Theorem C5_trailing_pin (N : node_map) (nid pid : string) :
  frame_number N nid "x" = Some 20%float ->
  frame_number N nid "width" = Some 100%float ->
  frame_number N pid "width" = Some 300%float ->
  axis_constraint N nid "horizontal" = Some "MAX" ->
  (forall hint,
      compute_constraint_hints N nid (Some pid) = Some hint ->
      exists rest,
        hint = "pins=R=-180" ^^ rest
        /\ (rest = EmptyString \/ exists r, rest = ":" ^^ r))
  /\ (has_parent N (Some pid) = true ->
      has_number N nid "y" = true -> has_number N nid "height" = true ->
      has_number N pid "height" = true ->
      auto_layout N pid = false \/ positioned_absolute N nid = true ->
      exists hint, compute_constraint_hints N nid (Some pid) = Some hint).
Proof.
  intros Hx Hw Hpw Hc.
  assert (Hfirst : forall constraints,
             Str.upper (py_str (get_or "horizontal" (JStr "") constraints))
             = "MAX" ->
             axis_pins [] (Str.upper
                             (py_str (get_or "horizontal" (JStr "") constraints)))
               "L" "R" "CX" 20 100 300 = ["R=-180"]).
  { intros constraints ->. vm_compute. reflexivity. }
  unfold frame_number in Hx, Hw, Hpw.
  unfold axis_constraint, constraints_of, layout_of in Hc.
  split.
  - intros hint Hh. apply hints_inv in Hh.
    destruct Hh as (n & p & layout & frame & pframe & constraints & _ & Hn & Hp
                    & Hl & Hf & Hpf & _ & Hcs & _ & ->).
    rewrite Hn, Hf in Hx, Hw. rewrite Hp, Hpf in Hpw. rewrite Hn, Hl, Hcs in Hc.
    destruct (is_number (getn "x" frame)); [|discriminate].
    destruct (is_number (getn "width" frame)); [|discriminate].
    destruct (is_number (getn "width" pframe)); [|discriminate].
    injection Hx as ->. injection Hw as ->. injection Hpw as ->.
    injection Hc as Hc.
    destruct (collect_pins_head layout constraints 20
                (py_float (getn "y" frame)) 100 (py_float (getn "height" frame))
                300 (py_float (getn "height" pframe)) "R=-180" (Hfirst _ Hc))
      as [rest ->].
    cbn [uniq_pins]. replace (Str.mem (pin_key "R=-180") []) with false
      by reflexivity.
    destruct (concat_head ":" "R=-180"
                (uniq_pins rest [pin_key "R=-180"])) as (tail & -> & Ht).
    exists tail. split; [reflexivity | exact Ht].
  - intros Hpar Hy Hh Hph Hauto.
    unfold has_parent in Hpar. apply andb_true_iff in Hpar.
    destruct Hpar as [Hpid Hpm]. apply negb_true_iff in Hpid.
    unfold has_number, frame_number in Hy, Hh, Hph.
    unfold auto_layout, positioned_absolute, layout_of in Hauto.
    unfold compute_constraint_hints. rewrite Hpid.
    destruct (Dict.get nid N) as [n|]; [|discriminate].
    destruct (Dict.get pid N) as [p|]; [|discriminate].
    destruct (get_or "layout" (JObj []) (NodeRecord.facts n))
      as [| | | | | |layout]; try discriminate.
    destruct (get_or "frame" (JObj []) (NodeRecord.facts n))
      as [| | | | | |frame]; try discriminate.
    destruct (get_or "frame" (JObj []) (NodeRecord.facts p))
      as [| | | | | |pframe]; try discriminate.
    destruct (getn "constraints" layout) as [| | | | | |constraints];
      try discriminate.
    assert (Hdr : driven_by_parent
                    (get_or "layout" (JObj []) (NodeRecord.facts p)) layout
                  = false).
    { unfold driven_by_parent.
      destruct (get_or "layout" (JObj []) (NodeRecord.facts p));
        try reflexivity.
      destruct Hauto as [-> | ->]; [reflexivity | apply andb_false_r]. }
    rewrite Hdr.
    destruct (is_number (getn "x" frame)); [|discriminate].
    destruct (is_number (getn "width" frame)); [|discriminate].
    destruct (is_number (getn "width" pframe)); [|discriminate].
    destruct (is_number (getn "y" frame)); [|discriminate].
    destruct (is_number (getn "height" frame)); [|discriminate].
    destruct (is_number (getn "height" pframe)); [|discriminate].
    injection Hx as ->. injection Hw as ->. injection Hpw as ->.
    injection Hc as Hc. cbn [andb].
    destruct (collect_pins_head layout constraints 20
                (py_float (getn "y" frame)) 100 (py_float (getn "height" frame))
                300 (py_float (getn "height" pframe)) "R=-180" (Hfirst _ Hc))
      as [rest ->].
    eauto.
Qed.

(** C6 (as amended). No pins hint is produced unless the node has a
    parent, the node's frame has numeric x, y, width and height, the
    parent's frame has numeric width and height, the node's constraints
    object is present, and the parent is not an auto-layout container or
    the node's layoutPositioning is ABSOLUTE. *)
Theorem C6_pins_hint_conditions (N : node_map) (nid : string)
    (parent_id : option string) :
  pins_conditions N nid parent_id = false ->
  compute_constraint_hints N nid parent_id = None.
Proof.
  intros Hc. destruct parent_id as [pid|]; [|reflexivity].
  destruct (compute_constraint_hints N nid (Some pid)) as [hint|] eqn:Hh;
    [|reflexivity].
  exfalso. apply hints_inv in Hh.
  destruct Hh as (n & p & layout & frame & pframe & constraints & Hpid & Hn & Hp
                  & Hl & Hf & Hpf & Hdr & Hcs & Hnum & _).
  repeat (apply andb_true_iff in Hnum; destruct Hnum as [Hnum ?]).
  assert (Hcond : pins_conditions N nid (Some pid) = true); [|congruence].
  unfold pins_conditions, has_parent, complete_frame, sized_frame,
    has_constraints, constraints_of, auto_layout, positioned_absolute,
    layout_of, has_number, frame_number, parent_or_empty, Dict.mem.
  rewrite Hn, Hp, Hl, Hf, Hpf, Hcs.
  apply is_empty_false in Hpid. rewrite Hpid.
  repeat match goal with
         | H : is_number _ = true |- _ => rewrite H; clear H
         end.
  cbn [negb andb]. unfold driven_by_parent in Hdr.
  destruct (get_or "layout" (JObj []) (NodeRecord.facts p));
    try reflexivity.
  apply andb_false_iff in Hdr. destruct Hdr as [-> | Hdr]; [reflexivity|].
  apply negb_false_iff in Hdr. rewrite Hdr. apply orb_true_r.
Qed.

(** *** Text facts *)

Lemma get_cons {V : Type} (k k' : string) (v : V) (d : Dict.t V) :
  Dict.get k ((k', v) :: d)
  = if String.eqb k k' then Some v else Dict.get k d.
Proof. reflexivity. Qed.

Lemma get_entry_if_nonempty (k k' : string) (d : dict) :
  Dict.get k (entry_if_nonempty k' d)
  = match d with
    | [] => None
    | _ => if String.eqb k k' then Some (JObj d) else None
    end.
Proof. destruct d; reflexivity. Qed.

Lemma get_opt_entry (k k' : string) (o : option json) :
  Dict.get k (opt_entry k' o)
  = if String.eqb k k' then o else None.
Proof. destruct o; simpl; now destruct (String.eqb k k'). Qed.

Lemma facts_text node mtl facts :
  is_text_node node = true ->
  node_facts node mtl = Ok facts ->
  exists text,
    text_facts node mtl = Ok text /\ stored_text facts = text.
Proof.
  unfold is_text_node. intros Htype H. apply node_facts_ok in H.
  destruct H as (frame & style & text & image & _ & Ht & ->).
  rewrite Htype in Ht. exists text. split; [exact Ht|].
  unfold stored_text, getn.
  rewrite !get_app, !get_cons, !get_entry_if_nonempty.
  replace (String.eqb "text" "nameTokens") with false by reflexivity.
  replace (String.eqb "text" "visible") with false by reflexivity.
  replace (String.eqb "text" "locked") with false by reflexivity.
  replace (String.eqb "text" "frame") with false by reflexivity.
  replace (String.eqb "text" "layout") with false by reflexivity.
  replace (String.eqb "text" "style") with false by reflexivity.
  replace (String.eqb "text" "text") with true by reflexivity.
  cbn [Dict.get].
  repeat match goal with
         | |- context [match ?l with [] => None | _ :: _ => None end] =>
             replace (match l with [] => None | _ :: _ => @None json end)
               with (@None json) by (destruct l; reflexivity)
         end.
  rewrite get_opt_entry.
  replace (String.eqb "text" "image") with false by reflexivity.
  now destruct text.
Qed.

Lemma text_facts_characters node mtl s text :
  node_characters node = Some s ->
  text_facts node mtl = Ok text ->
  exists rest,
    text
    = (if over_limit mtl s
       then [("characters", JStr (Str.take (Z.to_nat mtl) s ^^ "..."));
             ("charactersTruncated", JBool true)]
       else [("characters", JStr s)])
      ++ rest
    /\ Dict.get "characters" rest = None
    /\ Dict.get "charactersTruncated" rest = None.
Proof.
  unfold node_characters, text_facts, text_characters, over_limit.
  intros -> H. cbv zeta in H.
  apply bind_ok in H. destruct H as (font & _ & H).
  apply bind_ok in H. destruct H as (fill & _ & H).
  injection H as <-.
  eexists. split; [reflexivity|].
  rewrite !get_app, !get_opt_entry.
  replace (String.eqb "characters" "font") with false by reflexivity.
  replace (String.eqb "charactersTruncated" "font") with false by reflexivity.
  destruct fill; split; reflexivity.
Qed.

(** C8 (as amended). For a TEXT node whose characters are a non-empty
    string [s], the facts extracted are as follows: when the configured
    maximum is non-negative and [s] is longer, they hold the first [max]
    characters of [s] followed by three dots, with the truncation flag
    set; otherwise they hold [s] unchanged and no flag; with a negative
    maximum nothing is ever truncated. Extraction gives no facts at all
    in one case only, a number of the node that [float] refuses. *)
Theorem C8_text_truncation (node : dict) (mtl : Z) (s : string) :
  is_text_node node = true ->
  node_characters node = Some s ->
  match node_facts node mtl with
  | Ok facts =>
      let text := stored_text facts in
      (over_limit mtl s = true ->
       Dict.get "characters" text
       = Some (JStr (Str.take (Z.to_nat mtl) s ^^ "..."))
       /\ Dict.get "charactersTruncated" text = Some (JBool true))
      /\ (over_limit mtl s = false ->
          Dict.get "characters" text = Some (JStr s)
          /\ Dict.get "charactersTruncated" text = None)
      /\ ((mtl < 0)%Z ->
          Dict.get "characters" text = Some (JStr s)
          /\ Dict.get "charactersTruncated" text = None)
  | Raise msg => msg = INT_TOO_LARGE
  end.
Proof.
  intros Htext Hs.
  pose proof (node_facts_overflow node mtl) as Hover.
  destruct (node_facts node mtl) as [facts|msg] eqn:Hfacts; [|exact Hover].
  destruct (facts_text node mtl facts Htext Hfacts) as (text & Htf & Hst).
  destruct (text_facts_characters node mtl s text Hs Htf)
    as (rest & Heq & Hr1 & Hr2).
  cbv zeta. rewrite Hst, Heq.
  assert (Hno : over_limit mtl s = false ->
                Dict.get "characters" ([("characters", JStr s)] ++ rest)
                = Some (JStr s)
                /\ Dict.get "charactersTruncated"
                     ([("characters", JStr s)] ++ rest) = None).
  { intros _. split; [reflexivity|]. rewrite get_app. exact Hr2. }
  split; [|split].
  - intros ->. split; reflexivity.
  - intros H. rewrite H. now apply Hno.
  - intros Hneg.
    assert (H : over_limit mtl s = false).
    { unfold over_limit. apply andb_false_iff. left. apply Z.leb_gt. exact Hneg. }
    rewrite H. now apply Hno.
Qed.

(** *** Export-time absorption *)

Lemma absorb_obj ui fields :
  absorb_children_in_export_tree ui (JObj fields)
  = JObj (absorb_node ui (Dict.update "children" (absorb_children ui) fields)).
Proof. reflexivity. Qed.

Lemma getn_update (k k' : string) (f : json -> json) (d : dict) :
  getn k' (Dict.update k f d)
  = if String.eqb k' k
    then match Dict.get k d with Some v => f v | None => JNull end
    else getn k' d.
Proof.
  unfold getn. rewrite get_update.
  destruct (String.eqb k' k); [|reflexivity]. now destruct (Dict.get k d).
Qed.








Lemma get_set_if_absent k k' v props :
  Dict.get k' (set_if_absent k v props)
  = if String.eqb k' k
    then match Dict.get k props with Some x => Some x | None => v end
    else Dict.get k' props.
Proof.
  unfold set_if_absent, Dict.mem. destruct v as [v|].
  - destruct (Dict.get k props) eqn:E.
    + destruct (String.eqb_spec k' k); congruence.
    + rewrite get_set. destruct (String.eqb_spec k' k); congruence.
  - destruct (String.eqb_spec k' k); [subst|reflexivity].
    now destruct (Dict.get k props).
Qed.

Lemma get_copy_with_source_other key v c props k :
  String.eqb k key = false -> String.eqb k (key ^^ "From") = false ->
  Dict.get k (copy_with_source key v c props) = Dict.get k props.
Proof.
  intros H1 H2. unfold copy_with_source. destruct v; [|reflexivity].
  destruct (Dict.mem key props); [reflexivity|].
  destruct (child_source_id c); rewrite ?get_set, ?H1, ?H2; reflexivity.
Qed.





Lemma get_button_properties_other cl ci props k :
  Str.mem k ["title"; "titleFrom"; "titleColor"; "titleFont"; "image";
             "imageFrom"; "imageContentMode"] = false ->
  Dict.get k (uikit_button_properties cl ci props) = Dict.get k props.
Proof.
  cbn [Str.mem]. intros H. repeat (apply orb_false_iff in H; destruct H as [? H]).
  unfold uikit_button_properties. cbv zeta.
  rewrite get_set_if_absent.
  replace (String.eqb k "imageContentMode") with false by congruence.
  rewrite get_copy_with_source_other by assumption.
  rewrite !get_set_if_absent.
  replace (String.eqb k "titleFont") with false by congruence.
  replace (String.eqb k "titleColor") with false by congruence.
  now apply get_copy_with_source_other.
Qed.






(** *** Name tokens *)

Lemma all_chars_app (p : ascii -> bool) (a b : string) :
  all_chars p (a ^^ b) = all_chars p a && all_chars p b.
Proof.
  induction a as [|c a IH]; simpl; [reflexivity|].
  now rewrite IH, andb_assoc.
Qed.

Lemma alnum_runs_tokens (s : string) :
  forall cur,
    all_chars is_token_char cur = true ->
    Forall (fun t => is_token t = true) (alnum_runs s cur).
Proof.
  assert (Hflush : forall cur,
             all_chars is_token_char cur = true ->
             Forall (fun t => is_token t = true)
               (if Str.is_empty cur then [] else [cur])).
  { intros cur Hcur. destruct cur as [|c cur]; simpl; [constructor|].
    constructor; [|constructor]. unfold is_token. simpl. exact Hcur. }
  induction s as [|c s IH]; intros cur Hcur; simpl.
  - now apply Hflush.
  - destruct (Str.is_lower c || Str.is_digit c) eqn:Hc.
    + apply IH. rewrite all_chars_app, Hcur. simpl.
      unfold is_token_char. now rewrite Hc.
    + apply Forall_app. split; [now apply Hflush | now apply IH].
Qed.

(** X1. Every name token is a non-empty run of lower-case ASCII letters
    and digits, whatever value the node's name is; a missing name gives
    no token. *)
Theorem name_tokens_alphanumeric (raw : json) :
  Forall (fun t => is_token t = true) (name_tokens raw)
  /\ name_tokens JNull = [].
Proof.
  split; [|reflexivity].
  destruct raw; try (apply alnum_runs_tokens; reflexivity). constructor.
Qed.

(** *** Frame facts *)

Lemma get_number_entry (k k' : string) (v : json) :
  Dict.get k (if is_number v then [(k', JFloat (py_float v))] else [])
  = if String.eqb k k' && is_number v then Some (JFloat (py_float v)) else None.
Proof.
  destruct (is_number v); simpl.
  - now destruct (String.eqb k k').
  - now rewrite andb_false_r.
Qed.

Lemma num_entry_ok (k : string) (v : json) (e : dict) :
  num_entry k v = Ok e ->
  e = (if is_number v then [(k, JFloat (py_float v))] else [])
  /\ float_overflows v = false.
Proof.
  unfold num_entry. destruct (is_number v) eqn:Hn.
  - intros H. apply bind_ok in H. destruct H as (f & Hf & H).
    apply checked_float_ok in Hf. destruct Hf as [Ho ->].
    injection H as <-. auto.
  - intros [= <-]. split; [reflexivity|]. now destruct v.
Qed.

Lemma number_entries_ok (ks : list string) (node : dict) (frame : dict) :
  number_entries ks node = Ok frame ->
  frame
  = flat_map
      (fun k => if is_number (getn k node)
                then [(k, JFloat (py_float (getn k node)))] else [])
      ks
  /\ forall k, In k ks -> float_overflows (getn k node) = false.
Proof.
  revert frame. induction ks as [|k0 ks IH]; intros frame; simpl.
  - intros [= <-]. split; [reflexivity | intros k []].
  - intros H. apply bind_ok in H. destruct H as (e & He & H).
    apply bind_ok in H. destruct H as (rest & Hrest & H).
    injection H as <-. apply num_entry_ok in He. destruct He as [-> Ho].
    destruct (IH rest Hrest) as [-> Hall]. split; [reflexivity|].
    intros k [<-|Hk]; auto.
Qed.

Lemma number_entries_raise (ks : list string) (node : dict) (k : string) :
  In k ks -> float_overflows (getn k node) = true ->
  number_entries ks node = Raise INT_TOO_LARGE.
Proof.
  intros Hin Ho. induction ks as [|k0 ks IH]; [contradiction|]. simpl.
  pose proof (num_entry_overflow k0 (getn k0 node)) as Hover.
  destruct (num_entry k0 (getn k0 node)) as [e|msg] eqn:He;
    [|simpl; now rewrite Hover].
  destruct Hin as [->|Hin].
  - apply num_entry_ok in He. destruct He as [_ He]. congruence.
  - simpl. now rewrite (IH Hin).
Qed.

Lemma frame_entry_found (head : json * json * json) (F L S T : dict)
    (I : option json) :
  Dict.get "frame"
    ([("nameTokens", fst (fst head)); ("visible", snd (fst head));
      ("locked", snd head)]
     ++ entry_if_nonempty "frame" F
     ++ entry_if_nonempty "layout" L
     ++ entry_if_nonempty "style" S
     ++ entry_if_nonempty "text" T
     ++ opt_entry "image" I)
  = match F with [] => None | _ => Some (JObj F) end.
Proof.
  rewrite !get_app. destruct F; [|reflexivity].
  destruct L, S, T, I; reflexivity.
Qed.

Lemma facts_frame node mtl facts :
  node_facts node mtl = Ok facts ->
  number_entries frame_keys node = Ok (stored_frame facts).
Proof.
  intros H. apply node_facts_ok in H.
  destruct H as (frame & style & text & image & Hframe & _ & ->).
  rewrite Hframe. f_equal.
  unfold stored_frame. unfold getn at 1.
  match goal with
  | |- context [Dict.get "frame" ([(_, ?a); (_, ?b); (_, ?c)] ++ _)] =>
      rewrite (frame_entry_found (a, b, c))
  end.
  now destruct frame.
Qed.

(** X2. The [frame] facts of a node hold, under each of x, y, width,
    height and rotation, the node's value as a float when that value is a
    number, and nothing otherwise: a missing or non-numeric field is left
    out, never given a default, and no other key is stored. When facts
    are returned, none of the five values is an integer beyond the range
    of a float; when one is, [node_facts] raises and there are no facts,
    which is the only exception it raises. *)
Theorem frame_facts_numeric (node : dict) (mtl : Z) :
  match node_facts node mtl with
  | Ok facts =>
      forall k,
        Dict.get k (stored_frame facts)
        = (if Str.mem k frame_keys && is_number (getn k node)
           then Some (JFloat (py_float (getn k node)))
           else None)
        /\ (Str.mem k frame_keys = true ->
            float_overflows (getn k node) = false)
  | Raise msg => msg = INT_TOO_LARGE
  end
  /\ (forall k,
         Str.mem k frame_keys = true ->
         float_overflows (getn k node) = true ->
         node_facts node mtl = Raise INT_TOO_LARGE).
Proof.
  split.
  - pose proof (node_facts_overflow node mtl) as Hover.
    destruct (node_facts node mtl) as [facts|msg] eqn:Hfacts; [|exact Hover].
    apply facts_frame in Hfacts. apply number_entries_ok in Hfacts.
    destruct Hfacts as [-> Hall]. intros k. split.
    + unfold frame_keys. cbn [flat_map Str.mem].
      rewrite !get_app, !get_number_entry. cbn [Dict.get].
      destruct (String.eqb_spec k "x") as [->|_]; cbn [andb orb];
        [now destruct (is_number (getn "x" node))|].
      destruct (String.eqb_spec k "y") as [->|_]; cbn [andb orb];
        [now destruct (is_number (getn "y" node))|].
      destruct (String.eqb_spec k "width") as [->|_]; cbn [andb orb];
        [now destruct (is_number (getn "width" node))|].
      destruct (String.eqb_spec k "height") as [->|_]; cbn [andb orb];
        [now destruct (is_number (getn "height" node))|].
      destruct (String.eqb_spec k "rotation") as [->|_]; cbn [andb orb];
        [now destruct (is_number (getn "rotation" node))|].
      reflexivity.
    + intros Hk. apply Hall. now apply str_mem_In.
  - intros k Hk Ho. apply str_mem_In in Hk.
    unfold node_facts. cbv zeta.
    now rewrite (number_entries_raise frame_keys node k Hk Ho).
Qed.

(** *** The pins parser *)

Lemma keys_set {V : Type} (k : string) (v : V) (d : Dict.t V) :
  Dict.keys (Dict.set k v d)
  = if Dict.mem k d then Dict.keys d else Dict.keys d ++ [k].
Proof.
  unfold Dict.mem, Dict.keys. induction d as [|[k' v'] d IH]; simpl; auto.
  destruct (String.eqb k k'); simpl; [reflexivity|].
  rewrite IH. now destruct (Dict.get k d).
Qed.

Lemma in_keys_set {V : Type} (k k' : string) (v : V) (d : Dict.t V) :
  In k' (Dict.keys (Dict.set k v d)) <-> k' = k \/ In k' (Dict.keys d).
Proof.
  rewrite keys_set. destruct (Dict.mem k d) eqn:E.
  - apply mem_keys in E. split; [auto | intros [->|H]; auto].
  - rewrite in_app_iff. simpl. split.
    + intros [H|[<-|[]]]; auto.
    + intros [->|H]; auto.
Qed.

Lemma nodup_keys_set {V : Type} (k : string) (v : V) (d : Dict.t V) :
  NoDup (Dict.keys d) -> NoDup (Dict.keys (Dict.set k v d)).
Proof.
  intros H. rewrite keys_set. destruct (Dict.mem k d) eqn:E; [exact H|].
  apply mem_false_keys in E. apply NoDup_app; [exact H | repeat constructor; auto|].
  intros x Hx [<-|[]]. contradiction.
Qed.

Lemma parse_pin_part_key part key val :
  parse_pin_part part = inl (key, val) -> Str.mem key PINS_ALLOWED_KEYS = true.
Proof.
  unfold parse_pin_part. destruct (Str.split1 "=" part) as [[k raw]|];
    [|discriminate].
  destruct (Str.mem (Str.upper (Str.strip k)) PINS_ALLOWED_KEYS) eqn:E;
    [|discriminate].
  cbn [negb]. destruct (py_parse_float (Str.strip raw)); [|discriminate].
  intros [= <- _]. exact E.
Qed.

Lemma parse_pin_parts_inv (parts : list string) :
  forall out errs out' errs',
    parse_pin_parts parts out errs = (out', errs') ->
    Forall (fun k => Str.mem k PINS_ALLOWED_KEYS = true) (Dict.keys out) ->
    Forall (fun k => Str.mem k PINS_ALLOWED_KEYS = true) (Dict.keys out')
    /\ exists more, errs' = errs ++ more.
Proof.
  induction parts as [|part parts IH]; intros out errs out' errs'; simpl.
  - intros [= <- <-] H. split; [exact H|]. exists []. now rewrite app_nil_r.
  - destruct (Str.is_empty (Str.strip part)); [apply IH|].
    destruct (parse_pin_part (Str.strip part)) as [[key val]|e] eqn:E.
    + intros Hp Hk. apply (IH _ _ _ _ Hp).
      apply Forall_forall. intros k Hin. apply in_keys_set in Hin.
      destruct Hin as [->|Hin].
      * eapply parse_pin_part_key; eauto.
      * rewrite Forall_forall in Hk. exact (Hk k Hin).
    + intros Hp Hk. destruct (IH _ _ _ _ Hp Hk) as [H1 [more ->]].
      split; [exact H1|]. exists (e :: more). now rewrite <- app_assoc.
Qed.

(** X3. [parse_pins] answers in one of two ways, whatever it is
    given: a non-empty mapping and no error, every key of the mapping
    being one of L, R, T, B, CX, CY, W, H; or no mapping and at least one
    error. It never returns a mapping together with an error, and never
    neither. *)
Theorem parse_pins_outcome (pins : json) :
  (exists out,
      parse_pins pins = (Some out, [])
      /\ List.length out <> 0
      /\ Forall (fun k => Str.mem k PINS_ALLOWED_KEYS = true) (Dict.keys out))
  \/ (exists errs, parse_pins pins = (None, errs) /\ List.length errs <> 0).
Proof.
  unfold parse_pins.
  destruct (stripped_str pins) as [s|]; [|right; eexists; split; [reflexivity | discriminate]].
  destruct (negb (Str.startswith "pins=" s));
    [right; eexists; split; [reflexivity | discriminate]|].
  destruct (Str.is_empty (Str.strip (Str.drop 5 s)));
    [right; eexists; split; [reflexivity | discriminate]|].
  destruct (parse_pin_parts (Str.split ":" (Str.strip (Str.drop 5 s))) [] [])
    as [out errs] eqn:E.
  apply parse_pin_parts_inv in E; [|constructor].
  destruct E as [Hk _].
  destruct errs as [|e errs];
    [|right; eexists; split; [reflexivity | discriminate]].
  destruct out as [|kv out];
    [right; eexists; split; [reflexivity | discriminate]|].
  left. eexists. split; [reflexivity|]. split; [discriminate | exact Hk].
Qed.

(** *** The pins of a hint *)

Lemma add_pin_eq (pins : list string) (key : string) (value : float) :
  add_pin pins key value = pins ++ [pin_of key value].
Proof. unfold add_pin, pin_of. now destruct (Flt.to_Z value). Qed.

Lemma pin_key_of (key : string) (value : float) :
  Str.mem key PINS_ALLOWED_KEYS = true -> pin_key (pin_of key value) = key.
Proof.
  intros H. apply str_mem_In in H. unfold pin_of.
  destruct (Flt.to_Z value);
    repeat (destruct H as [<-|H]; [reflexivity|]); destruct H.
Qed.

Lemma uniq_pins_distinct (pins : list string) :
  forall seen,
    NoDup (List.map pin_key pins) ->
    (forall p, In p pins -> ~ In (pin_key p) seen) ->
    uniq_pins pins seen = pins.
Proof.
  induction pins as [|p pins IH]; intros seen Hnd Hseen; simpl; [reflexivity|].
  inversion Hnd as [|? ? Hp Hnd']; subst.
  assert (Hm : Str.mem (pin_key p) seen = false).
  { apply str_mem_not_In. apply Hseen. now left. }
  rewrite Hm. f_equal. apply IH; [exact Hnd'|].
  intros q Hq [Heq|Hin].
  - apply Hp. rewrite Heq. now apply in_map.
  - apply (Hseen q); [now right | exact Hin].
Qed.

(** The keys of the pins of one axis: one of the three keys of the
    axis, or the two edges, or none. *)
Lemma axis_pins_keys pins mode lead trail mid off size extent :
  Str.mem lead PINS_ALLOWED_KEYS = true ->
  Str.mem trail PINS_ALLOWED_KEYS = true ->
  Str.mem mid PINS_ALLOWED_KEYS = true ->
  exists extra,
    axis_pins pins mode lead trail mid off size extent = pins ++ extra
    /\ (List.map pin_key extra = [] \/ List.map pin_key extra = [lead]
        \/ List.map pin_key extra = [trail] \/ List.map pin_key extra = [mid]
        \/ List.map pin_key extra = [lead; trail]).
Proof.
  intros Hl Ht Hm. unfold axis_pins. rewrite !add_pin_eq.
  destruct (String.eqb mode "MIN");
    [eexists; split; [reflexivity|]; simpl; rewrite pin_key_of; auto|].
  destruct (String.eqb mode "MAX");
    [eexists; split; [reflexivity|]; simpl; rewrite pin_key_of; auto|].
  destruct (String.eqb mode "CENTER");
    [eexists; split; [reflexivity|]; simpl; rewrite pin_key_of; auto 6|].
  destruct (String.eqb mode "STRETCH").
  { exists [pin_of lead off; pin_of trail (- (extent - (off + size)))%float].
    split; [now rewrite <- app_assoc|]. simpl. rewrite !pin_key_of; auto 6. }
  destruct (String.eqb mode "SCALE");
    [eexists; split; [reflexivity|]; simpl; rewrite pin_key_of; auto|].
  exists []. split; [now rewrite app_nil_r | auto].
Qed.

Lemma collect_pins_keys layout constraints x y w h pw ph :
  exists hp vp sp,
    collect_pins layout constraints x y w h pw ph = hp ++ vp ++ sp
    /\ (List.map pin_key hp = [] \/ List.map pin_key hp = ["L"]
        \/ List.map pin_key hp = ["R"] \/ List.map pin_key hp = ["CX"]
        \/ List.map pin_key hp = ["L"; "R"])
    /\ (List.map pin_key vp = [] \/ List.map pin_key vp = ["T"]
        \/ List.map pin_key vp = ["B"] \/ List.map pin_key vp = ["CY"]
        \/ List.map pin_key vp = ["T"; "B"])
    /\ (List.map pin_key sp = [] \/ List.map pin_key sp = ["W"]
        \/ List.map pin_key sp = ["H"] \/ List.map pin_key sp = ["W"; "H"]).
Proof.
  unfold collect_pins.
  destruct (axis_pins_keys []
              (Str.upper (py_str (get_or "horizontal" (JStr "") constraints)))
              "L" "R" "CX" x w pw eq_refl eq_refl eq_refl) as (hp & -> & Hh).
  destruct (axis_pins_keys ([] ++ hp)
              (Str.upper (py_str (get_or "vertical" (JStr "") constraints)))
              "T" "B" "CY" y h ph eq_refl eq_refl eq_refl) as (vp & -> & Hv).
  rewrite !add_pin_eq. cbn [app].
  exists hp, vp.
  destruct (_ || _); destruct (_ || _).
  - exists [pin_of "W" w; pin_of "H" h]. rewrite <- !app_assoc.
    split; [reflexivity|]. split; [exact Hh|]. split; [exact Hv|].
    simpl. rewrite !pin_key_of by reflexivity. auto.
  - exists [pin_of "H" h]. rewrite <- !app_assoc.
    split; [reflexivity|]. split; [exact Hh|]. split; [exact Hv|].
    simpl. rewrite !pin_key_of by reflexivity. auto.
  - exists [pin_of "W" w]. rewrite <- !app_assoc.
    split; [reflexivity|]. split; [exact Hh|]. split; [exact Hv|].
    simpl. rewrite !pin_key_of by reflexivity. auto.
  - exists []. rewrite app_nil_r.
    split; [reflexivity|]. split; [exact Hh|]. split; [exact Hv|]. auto.
Qed.

Lemma distinct_keys_nodup (ks : list string) :
  distinct_keys ks = true -> NoDup ks.
Proof.
  unfold distinct_keys.
  assert (H : forall l seen,
             (fix go (l seen : list string) : bool :=
                match l with
                | [] => true
                | k :: l' => negb (Str.mem k seen) && go l' (k :: seen)
                end) l seen = true ->
             NoDup l /\ forall k, In k l -> ~ In k seen).
  { induction l as [|k l IH]; intros seen; [split; [constructor | intros k []]|].
    intros Hgo. apply andb_true_iff in Hgo. destruct Hgo as [Hk Hgo].
    apply negb_true_iff, str_mem_not_In in Hk.
    destruct (IH _ Hgo) as [Hnd Hseen]. split.
    - constructor; [|exact Hnd]. intros Hin. apply (Hseen k Hin). now left.
    - intros k' [<-|Hin]; [exact Hk|]. intros Hs. apply (Hseen k' Hin). now right. }
  intros Hd. now apply H in Hd.
Qed.

Lemma collect_pins_facts (layout constraints : dict)
    (x y w h pw ph : float) :
  let pins := collect_pins layout constraints x y w h pw ph in
  NoDup (List.map pin_key pins)
  /\ Forall (fun p => Str.mem (pin_key p) PINS_ALLOWED_KEYS = true) pins
  /\ List.length pins <= 6
  /\ uniq_pins pins [] = pins.
Proof.
  cbv zeta.
  destruct (collect_pins_keys layout constraints x y w h pw ph)
    as (hp & vp & sp & -> & Hh & Hv & Hs).
  assert (Hkeys : distinct_keys (List.map pin_key (hp ++ vp ++ sp)) = true
                  /\ forallb (fun k => Str.mem k PINS_ALLOWED_KEYS)
                       (List.map pin_key (hp ++ vp ++ sp)) = true
                  /\ List.length (List.map pin_key (hp ++ vp ++ sp)) <= 6).
  { rewrite !map_app.
    destruct Hh as [->|[->|[->|[->| ->]]]];
      destruct Hv as [->|[->|[->|[->| ->]]]];
      destruct Hs as [->|[->|[->| ->]]];
      (split; [reflexivity | split; [reflexivity | simpl; lia]]). }
  destruct Hkeys as (Hd & Hall & Hlen).
  apply distinct_keys_nodup in Hd.
  split; [exact Hd|]. split; [|split].
  - apply Forall_forall. intros p Hp.
    rewrite forallb_forall in Hall. apply Hall. now apply in_map.
  - now rewrite length_map in Hlen.
  - apply uniq_pins_distinct; [exact Hd | intros p _ []].
Qed.

(** X4. The pins collected for a hint never repeat a key and use no
    key outside L, R, T, B, CX, CY, W, H: an axis gives one pin, its two
    edges or nothing, and the sizes W and H come once each. The
    deduplication that follows therefore removes nothing, and the hint is
    the collected pins joined by colons. *)
Theorem pins_never_repeat_a_key (layout constraints : dict)
    (x y w h pw ph : float) :
  let pins := collect_pins layout constraints x y w h pw ph in
  NoDup (List.map pin_key pins)
  /\ Forall (fun p => Str.mem (pin_key p) PINS_ALLOWED_KEYS = true) pins
  /\ List.length pins <= 6
  /\ uniq_pins pins [] = pins.
Proof. apply collect_pins_facts. Qed.

(** *** Patches and the decision store, further *)

Lemma patch_of_item_shape item kd :
  patch_of_item item = Some kd ->
  fst kd <> EmptyString /\ exists o, snd kd = JObj o.
Proof.
  unfold patch_of_item. destruct item; try discriminate.
  destruct (nonempty_str (getn "id" fields)) as [nid|] eqn:E; [|discriminate].
  intros [= <-]. apply nonempty_str_Some in E. destruct E as [_ E].
  simpl. split; [exact E | eauto].
Qed.

Lemma patch_of_entry_shape e kd :
  patch_of_entry e = Some kd ->
  fst kd <> EmptyString /\ exists o, snd kd = JObj o.
Proof.
  destruct e as [k v]. unfold patch_of_entry. destruct v; try discriminate.
  destruct (Str.is_empty k) eqn:E; [discriminate|].
  intros [= <-]. apply is_empty_false in E. simpl. eauto.
Qed.

Lemma filter_map_Forall {A B : Type} (f : A -> option B) (Q : B -> Prop)
    (l : list A) :
  (forall a b, f a = Some b -> Q b) -> Forall Q (filter_map f l).
Proof.
  intros Hf. induction l as [|a l IH]; simpl; [constructor|].
  destruct (f a) eqn:E; [constructor; eauto | exact IH].
Qed.

(** X5. Every patch [normalize_patch_payload] returns carries a
    non-empty id and an object as its decision, whichever of the three
    payload shapes it was read from; items that have no such id, and
    entries of a [decisions] object that are not objects, are dropped. *)
Theorem normalized_patches_wellformed (payload : json)
    (P : list (string * json)) :
  normalize_patch_payload payload = Ok P ->
  Forall (fun kd => fst kd <> EmptyString /\ exists o, snd kd = JObj o) P.
Proof.
  unfold normalize_patch_payload. destruct payload; try discriminate.
  - intros [= <-]. apply filter_map_Forall. apply patch_of_item_shape.
  - destruct (Dict.get "decisions" fields) as [[| | | | | |decs]|];
      try (destruct (patch_of_item (JObj fields)) eqn:E; [|discriminate];
           intros [= <-]; constructor;
           [eapply patch_of_item_shape; eauto | constructor]).
    intros [= <-]. apply filter_map_Forall. apply patch_of_entry_shape.
Qed.

Lemma apply_patches_lists (N : node_map) (P : list (string * json)) :
  Forall (fun kd => exists o, snd kd = JObj o) P ->
  forall D A W,
    snd (fst (apply_patches N P D A W)) = A ++ known_ids N P
    /\ snd (apply_patches N P D A W)
       = W ++ List.map unknown_id_warning (unknown_ids N P).
Proof.
  unfold known_ids, unknown_ids.
  induction 1 as [|[k dec] P [o Ho] _ IH]; intros D A W.
  - simpl. now rewrite !app_nil_r.
  - simpl in Ho. subst dec. cbn [apply_patches List.map filter fst].
    change ("warning: patch references unknown node id " ^^ k ^^ "; skipped")
      with (unknown_id_warning k).
    destruct (Dict.mem k N); cbn [negb List.map].
    + destruct (IH (Dict.set k (JObj o) D) (A ++ [k]) W) as [-> ->].
      now rewrite <- app_assoc.
    + destruct (IH D A (W ++ [unknown_id_warning k])) as [-> ->].
      now rewrite <- app_assoc.
Qed.

Lemma filter_split_length {A : Type} (f : A -> bool) (l : list A) :
  List.length (filter f l) + List.length (filter (fun x => negb (f x)) l)
  = List.length l.
Proof.
  induction l as [|x l IH]; simpl; [reflexivity|].
  destruct (f x); simpl; lia.
Qed.

(** X6. A [cmd_apply] whose payload has one of the supported shapes
    exits with status 0, reports as applied exactly the patch ids that
    have a node record, in patch order, and prints one unknown-node
    warning for each of the other patches, in patch order, and nothing
    else: every patch is either applied or warned about, and the warning
    for a decision that is not an object is never printed. *)
Theorem apply_accounts_for_every_patch (s : State) (payload : json)
    (P : list (string * json)) :
  normalize_patch_payload payload = Ok P ->
  let r := cmd_apply s payload in
  exit_code r = 0%Z
  /\ stdout r
     = Some (JObj [("ok", JBool true);
                   ("applied", JArr (List.map JStr (known_ids (nodes s) P)));
                   ("appliedCount",
                    JInt (Z.of_nat (List.length (known_ids (nodes s) P))))])
  /\ stderr r = List.map unknown_id_warning (unknown_ids (nodes s) P)
  /\ List.length (known_ids (nodes s) P) + List.length (stderr r)
     = List.length P.
Proof.
  intros HP. cbv zeta. unfold cmd_apply. rewrite HP.
  pose proof (normalize_objects payload P HP) as Hobj.
  destruct (apply_patches_lists (nodes s) P Hobj (decisions s) [] [])
    as [Ha Hw].
  destruct (apply_patches (nodes s) P (decisions s) [] []) as [[D A] W].
  simpl in Ha, Hw. subst A W. simpl.
  repeat split. rewrite length_map. unfold known_ids, unknown_ids.
  rewrite <- (length_map fst P). apply filter_split_length.
Qed.

(** X7. An object payload that has no [decisions] object and no
    non-empty string id is rejected: [cmd_apply] exits with status 2,
    prints the unsupported-shape error and saves nothing. The same object
    inside a list is passed over silently: the command exits with status
    0, applies nothing and saves the state as it was. *)
Theorem apply_object_without_id (s : State) (p : dict) :
  lacks_patch_id p = true ->
  cmd_apply s (JObj p)
  = fail 2 "error: apply failed: unsupported patch JSON shape"
  /\ cmd_apply s (JArr [JObj p])
     = mkRun 0 []
         (Some (JObj [("ok", JBool true); ("applied", JArr []);
                      ("appliedCount", JInt 0)]))
         (Some s).
Proof.
  unfold lacks_patch_id, cmd_apply, normalize_patch_payload, patch_of_item.
  cbn [filter_map].
  destruct (nonempty_str (getn "id" p)) eqn:Hid.
  - destruct (Dict.get "decisions" p) as [[]|]; discriminate.
  - intros H. split.
    + destruct (Dict.get "decisions" p) as [[]|]; try discriminate; reflexivity.
    + simpl. now destruct s.
Qed.

Lemma in_set {V : Type} (k k' : string) (v v' : V) (d : Dict.t V) :
  In (k', v') (Dict.set k v d) -> (k' = k /\ v' = v) \/ In (k', v') d.
Proof.
  induction d as [|[k0 v0] d IH]; simpl.
  - intros [[= <- <-]|[]]. auto.
  - destruct (String.eqb_spec k k0) as [->|Hne]; simpl.
    + intros [[= <- <-]|H]; auto.
    + intros [H|H]; auto. destruct (IH H); auto.
Qed.

Lemma apply_patches_store_ok (N : node_map) (P : list (string * json)) :
  forall D A W,
    NoDup (Dict.keys D) ->
    (forall k v, In (k, v) D -> Dict.mem k N = true /\ exists o, v = JObj o) ->
    NoDup (Dict.keys (fst (fst (apply_patches N P D A W))))
    /\ forall k v, In (k, v) (fst (fst (apply_patches N P D A W))) ->
                   Dict.mem k N = true /\ exists o, v = JObj o.
Proof.
  induction P as [|[k dec] P IH]; intros D A W Hnd Hin; simpl; [auto|].
  destruct (Dict.mem k N) eqn:Hk; simpl; [|now apply IH].
  destruct dec; try (now apply IH).
  apply IH; [now apply nodup_keys_set|].
  intros k' v' H. apply in_set in H. destruct H as [[-> ->]|H]; eauto.
Qed.

Lemma apply_store_ok s payload s' :
  apply_saves s payload s' -> store_ok s -> store_ok s'.
Proof.
  unfold apply_saves, cmd_apply, store_ok.
  destruct (normalize_patch_payload payload) as [P|]; [|discriminate].
  pose proof (apply_patches_store_ok (nodes s) P (decisions s) [] []) as H.
  destruct (apply_patches (nodes s) P (decisions s) [] []) as [[D A] W].
  simpl in H. simpl. intros [= <-] [H1 H2]. simpl. now apply H.
Qed.

Lemma store_entries_ok (s : State) : reachable s -> store_ok s.
Proof.
  induction 1 as [payload ui path inv mtl s Hinit|s payload s' _ IH Happ].
  - apply init_saves_inv in Hinit.
    destruct Hinit as (root & _ & _ & _ & HD & _).
    unfold store_ok. rewrite HD. split; [constructor | intros k v []].
  - eapply apply_store_ok; eauto.
Qed.

(** X8. In every state of a workflow the decision store holds no key
    twice, and each of its entries is an object stored under the id of a
    node that has a record: [cmd_init] starts from the empty store and
    [cmd_apply] only ever writes an object under a known id. *)
Theorem store_entries_are_decisions_of_nodes (s : State) :
  reachable s ->
  NoDup (Dict.keys (decisions s))
  /\ forall k v, In (k, v) (decisions s) ->
                 Dict.mem k (nodes s) = true /\ exists o, v = JObj o.
Proof. apply store_entries_ok. Qed.

Lemma dict_ext {V : Type} (d d' : Dict.t V) :
  Dict.keys d = Dict.keys d' -> NoDup (Dict.keys d) ->
  (forall k, Dict.get k d = Dict.get k d') -> d = d'.
Proof.
  revert d'. induction d as [|[k v] d IH]; intros [|[k' v'] d'];
    simpl; try discriminate; [reflexivity|].
  intros [= <- Hkeys] Hnd Hget. inversion Hnd as [|? ? Hk Hnd']; subst.
  pose proof (Hget k) as Hk0. rewrite String.eqb_refl in Hk0.
  injection Hk0 as <-. f_equal. apply IH; [exact Hkeys | exact Hnd'|].
  intros x. specialize (Hget x).
  destruct (String.eqb x k) eqn:Hx; [|exact Hget].
  apply String.eqb_eq in Hx. subst x.
  assert (H1 : Dict.get k d = None).
  { destruct (Dict.get k d) eqn:E; [|reflexivity].
    apply get_Some_mem, mem_keys in E. contradiction. }
  assert (H2 : Dict.get k d' = None).
  { destruct (Dict.get k d') eqn:E; [|reflexivity].
    apply get_Some_mem, mem_keys in E. rewrite <- Hkeys in E.
    contradiction. }
  congruence.
Qed.

Lemma apply_patches_same_keys (N : node_map) (P : list (string * json)) :
  forall D A W,
    (forall id, In id (touched N P) -> Dict.mem id D = true) ->
    Dict.keys (fst (fst (apply_patches N P D A W))) = Dict.keys D.
Proof.
  induction P as [|[k dec] P IH]; intros D A W Hin; simpl; [reflexivity|].
  pose proof (touched_cons N k dec P) as Ht.
  destruct (Dict.mem k N) eqn:Hk; simpl.
  - destruct dec;
      try (apply IH; intros id Hid; apply Hin; rewrite Ht; exact Hid).
    rewrite IH.
    + rewrite keys_set. rewrite Hin; [reflexivity|]. rewrite Ht. now left.
    + intros id Hid. rewrite mem_set. rewrite Hin, orb_true_r; [reflexivity|].
      rewrite Ht. now right.
  - apply IH. intros id Hid. apply Hin. rewrite Ht.
    now destruct dec.
Qed.

(** X9. [cmd_apply] is idempotent: on a store without repeated keys,
    applying a payload a second time saves the very state the first apply
    saved, and reports the same applied ids. *)
Theorem apply_twice_is_apply_once (s s1 s2 : State) (payload : json) :
  NoDup (Dict.keys (decisions s)) ->
  apply_saves s payload s1 -> apply_saves s1 payload s2 ->
  s2 = s1 /\ stdout (cmd_apply s1 payload) = stdout (cmd_apply s payload).
Proof.
  intros Hnd Hs1 Hs2.
  destruct (apply_saves_normalizes _ _ _ Hs1) as [P HP].
  destruct (cmd_apply_saves _ _ _ _ HP Hs1)
    as (Hu1 & Hr1 & HN1 & HB1 & Hst1 & Hout1).
  destruct (cmd_apply_saves _ _ _ _ HP Hs2)
    as (Hu2 & Hr2 & HN2 & HB2 & Hst2 & Hout2).
  rewrite HN1 in Hst2, Hout2.
  split; [|now rewrite Hout1, Hout2].
  assert (HD : decisions s2 = decisions s1).
  { assert (Hnd1 : NoDup (Dict.keys (decisions s1))).
    { revert Hs1. unfold apply_saves, cmd_apply. rewrite HP.
      assert (Hk : forall P D A W,
                 NoDup (Dict.keys D) ->
                 NoDup (Dict.keys (fst (fst (apply_patches (nodes s) P D A W))))).
      { induction P0 as [|[k dec] P0 IHP]; intros D A W HD; simpl; [exact HD|].
        destruct (Dict.mem k (nodes s)); simpl; [|now apply IHP].
        destruct dec; try (now apply IHP).
        apply IHP. now apply nodup_keys_set. }
      specialize (Hk P (decisions s) [] [] Hnd).
      destruct (apply_patches (nodes s) P (decisions s) [] []) as [[D A] W].
      simpl in Hk. intros [= <-]. exact Hk. }
    assert (Hkeys : Dict.keys (decisions s2) = Dict.keys (decisions s1)).
    { revert Hs2. unfold apply_saves, cmd_apply. rewrite HP, HN1.
      pose proof (apply_patches_same_keys (nodes s) P (decisions s1) [] [])
        as Hk.
      destruct (apply_patches (nodes s) P (decisions s1) [] []) as [[D A] W].
      simpl in Hk. intros [= <-]. simpl. apply Hk.
      intros id Hid. apply patch_entry_touched in Hid. destruct Hid as [d Hd].
      unfold Dict.mem. now rewrite Hst1, Hd. }
    apply dict_ext; [exact Hkeys | now rewrite Hkeys|].
    intros k. rewrite Hst2, Hst1.
    now destruct (patch_entry (nodes s) P k). }
  destruct s1, s2. simpl in *. congruence.
Qed.

(** *** The links between records, for every tree *)

Section IndexLinks.
Variables (inv : bool) (mtl : Z) (rid : string).

Lemma links_ok_set N nid fields pid d :
  links_ok N rid -> called_ok inv rid N (JObj fields) pid ->
  listed_child_id inv (JObj fields) = Some nid ->
  Dict.mem nid N = false ->
  links_ok (Dict.set nid (node_record inv mtl fields nid pid d) N) rid.
Proof.
  intros (Hnd & Hid & Hlist & Hroot) Hcall Hl Hfresh.
  pose proof (kept_set N nid (node_record inv mtl fields nid pid d) Hfresh)
    as Hkept.
  split; [now apply nodup_keys_set|]. split; [|split].
  - intros x r. rewrite get_set.
    destruct (String.eqb_spec x nid) as [->|_]; [|apply Hid].
    now intros [= <-].
  - intros x r p. rewrite get_set.
    destruct (String.eqb_spec x nid) as [->|_].
    + intros [= <-] Hp. simpl in Hp. subst pid.
      destruct Hcall as (rp & Hrp & Hin). exists rp. split; auto.
    + intros Hx Hp. destruct (Hlist x r p Hx Hp) as (rp & Hrp & Hin).
      exists rp. split; auto.
  - intros x r. rewrite get_set.
    destruct (String.eqb_spec x nid) as [->|_]; [|apply Hroot].
    intros [= <-] Hp. simpl in Hp. subst pid. now apply Hcall.
Qed.

Lemma visit_links :
  forall node pid d N,
    links_ok N rid -> called_ok inv rid N node pid ->
    links_ok (visit_map inv mtl node pid d N) rid.
Proof.
  induction node as [node IH] using node_tree_ind.
  intros pid d N HN Hcall.
  destruct node as [| | | | | |fields]; try exact HN.
  rewrite visit_map_obj.
  destruct (should_include_node fields inv) eqn:Hinc; [|exact HN].
  cbn [negb].
  destruct (nonempty_str (getn "id" fields)) as [nid|] eqn:Hid; [|exact HN].
  destruct (Dict.mem nid N) eqn:Hfresh; [exact HN|].
  assert (Hl : listed_child_id inv (JObj fields) = Some nid).
  { unfold listed_child_id. now rewrite Hinc. }
  set (rec := node_record inv mtl fields nid pid d).
  assert (Hloop : forall cs M,
             (forall c, In c cs -> In c (children_of fields)) ->
             links_ok M rid -> Dict.get nid M = Some rec ->
             links_ok (visit_map_children inv mtl nid d cs M) rid).
  { induction cs as [|c cs IHcs]; intros M Hsub HM Hrec; simpl; [exact HM|].
    assert (Hc : In c (children_of fields)) by (apply Hsub; now left).
    destruct (child_in_tree fields c Hc) as (items & Hch & Hci).
    apply IHcs.
    - intros c' Hc'. apply Hsub. now right.
    - apply (IH fields items c eq_refl Hch Hci); [exact HM|].
      exists rec. split; [exact Hrec|]. intros x Hx.
      simpl. apply listed_child_ids_spec. eauto.
    - now apply visit_map_kept. }
  apply Hloop; [auto | now apply links_ok_set | apply get_set_eq].
Qed.

(** Once [visit] returns, the node it was called on has its record
    (when it contributes an id), and every record added lists only ids
    that have a record. *)
Lemma visit_closed :
  forall node pid d N,
    (forall x, listed_child_id inv node = Some x ->
               Dict.mem x (visit_map inv mtl node pid d N) = true)
    /\ (forall p rp c,
           Dict.get p (visit_map inv mtl node pid d N) = Some rp ->
           Dict.mem p N = false -> In c (NodeRecord.child_ids rp) ->
           Dict.mem c (visit_map inv mtl node pid d N) = true).
Proof.
  induction node as [node IH] using node_tree_ind.
  intros pid d N.
  assert (Hold : forall p rp, Dict.get p N = Some rp -> Dict.mem p N = false ->
                              False).
  { intros p rp H1 H2. apply get_Some_mem in H1. congruence. }
  destruct node as [| | | | | |fields];
    try (split; [discriminate | intros p rp c H1 H2; destruct (Hold p rp H1 H2)]).
  rewrite visit_map_obj. unfold listed_child_id.
  destruct (should_include_node fields inv) eqn:Hinc; cbn [negb];
    [|split; [discriminate | intros p rp c H1 H2; destruct (Hold p rp H1 H2)]].
  destruct (nonempty_str (getn "id" fields)) as [nid|] eqn:Hid;
    [|split; [discriminate | intros p rp c H1 H2; destruct (Hold p rp H1 H2)]].
  destruct (Dict.mem nid N) eqn:Hfresh;
    [split; [now intros x [= <-]
            | intros p rp c H1 H2; destruct (Hold p rp H1 H2)]|].
  set (rec := node_record inv mtl fields nid pid d).
  assert (Hloop : forall cs M,
             (forall c, In c cs -> In c (children_of fields)) ->
             (forall c x, In c cs -> listed_child_id inv c = Some x ->
                          Dict.mem x (visit_map_children inv mtl nid d cs M) = true)
             /\ (forall p rp c,
                    Dict.get p (visit_map_children inv mtl nid d cs M) = Some rp ->
                    Dict.mem p M = false -> In c (NodeRecord.child_ids rp) ->
                    Dict.mem c (visit_map_children inv mtl nid d cs M) = true)
             /\ kept M (visit_map_children inv mtl nid d cs M)).
  { induction cs as [|c cs IHcs]; intros M Hsub; simpl.
    - split; [intros c x []|]. split; [|apply kept_refl].
      intros p rp c H1 H2. apply get_Some_mem in H1. congruence.
    - assert (Hc : In c (children_of fields)) by (apply Hsub; now left).
      destruct (child_in_tree fields c Hc) as (items & Hch & Hci).
      destruct (IH fields items c eq_refl Hch Hci (Some nid) (S d) M)
        as [Hc1 Hc2].
      set (M1 := visit_map inv mtl c (Some nid) (S d) M) in *.
      destruct (IHcs M1) as (Hr1 & Hr2 & Hr3);
        [intros c' Hc'; apply Hsub; now right|].
      assert (Hmem : forall x, Dict.mem x M1 = true ->
                Dict.mem x (visit_map_children inv mtl nid d cs M1) = true).
      { intros x Hx. unfold Dict.mem in Hx.
        destruct (Dict.get x M1) as [r|] eqn:E; [|discriminate].
        eapply get_Some_mem. apply Hr3. exact E. }
      split; [|split].
      + intros c' x [<-|Hin] Hx; [apply Hmem; now apply Hc1 | eapply Hr1; eauto].
      + intros p rp c' Hp HpM Hin.
        destruct (Dict.get p M1) as [r1|] eqn:E.
        * pose proof (Hr3 p r1 E) as Hp'. rewrite Hp in Hp'. injection Hp' as ->.
          apply Hmem. eapply Hc2; eauto.
        * eapply Hr2; eauto. unfold Dict.mem. now rewrite E.
      + eapply kept_trans; [apply visit_map_kept | exact Hr3]. }
  destruct (Hloop (children_of fields) (Dict.set nid rec N)) as (H1 & H2 & H3);
    [auto|].
  assert (Hrec : Dict.get nid (visit_map_children inv mtl nid d (children_of fields)
                                 (Dict.set nid rec N)) = Some rec)
    by (apply H3, get_set_eq).
  split.
  - intros x [= <-]. eapply get_Some_mem; eauto.
  - intros p rp c Hp HpN Hin.
    destruct (String.eqb_spec p nid) as [->|Hne].
    + rewrite Hrec in Hp. injection Hp as <-. simpl in Hin.
      apply listed_child_ids_spec in Hin. destruct Hin as (c' & Hc' & Hl).
      eapply H1; eauto.
    + eapply H2; eauto. rewrite mem_set, HpN.
      destruct (String.eqb_spec p nid); [contradiction | reflexivity].
Qed.

Lemma index_tree_links root N :
  index_tree root inv mtl = Ok (rid, N) ->
  links_ok N rid /\ children_closed N /\ parents_exact N /\ keys_nonempty N.
Proof.
  intros Hidx.
  assert (Hrid : nonempty_str (getn "id" root) = Some rid).
  { exact (proj1 (index_tree_root _ _ _ _ _ Hidx)). }
  apply index_tree_ok in Hidx. destruct Hidx as (_ & [Hk Hp] & ->).
  split; [|split; [|split; [exact Hp | exact Hk]]].
  - apply visit_links.
    + split; [constructor|]. split; [intros x r; discriminate|].
      split; [intros x r p; discriminate | intros x r; discriminate].
    + intros x. unfold listed_child_id.
      destruct (should_include_node root inv); congruence.
  - intros p rp c Hp' Hin.
    eapply (proj2 (visit_closed (JObj root) None 0 [])); eauto.
Qed.
End IndexLinks.

(** X10. For every tree the indexer accepts, repeated ids or not: no
    id has two records and a record is stored under its own id, which is
    not empty; every id a record lists among its [childIds] has a record;
    a record with a [parentId] is listed among the [childIds] of that
    parent's record; and the only record without a [parentId] is the
    root's. *)
Theorem index_links_are_consistent (root : dict) (inv : bool) (mtl : Z)
    (rid : string) (N : node_map) :
  index_tree root inv mtl = Ok (rid, N) ->
  NoDup (Dict.keys N)
  /\ (forall x r, Dict.get x N = Some r ->
                  NodeRecord.id r = x /\ x <> EmptyString)
  /\ (forall p rp c,
         Dict.get p N = Some rp -> In c (NodeRecord.child_ids rp) ->
         exists rc, Dict.get c N = Some rc)
  /\ (forall x r p,
         Dict.get x N = Some r -> NodeRecord.parent_id r = Some p ->
         exists rp, Dict.get p N = Some rp /\ In x (NodeRecord.child_ids rp))
  /\ (forall x r,
         Dict.get x N = Some r -> NodeRecord.parent_id r = None -> x = rid).
Proof.
  intros Hidx.
  destruct (index_tree_links inv mtl rid root N Hidx)
    as ((Hnd & Hid & Hlist & Hroot) & Hclosed & _ & Hne).
  split; [exact Hnd|]. split; [|split; [|split; [exact Hlist | exact Hroot]]].
  - intros x r Hx. split; [now apply Hid|].
    apply Hne. apply mem_keys. eapply get_Some_mem; eauto.
  - intros p rp c Hp Hin. pose proof (Hclosed p rp c Hp Hin) as Hm.
    unfold Dict.mem in Hm. destruct (Dict.get c N); [eauto | discriminate].
Qed.

Lemma bfs_covers_index (root : dict) (inv : bool) (mtl : Z) (rid : string)
    (N : node_map) (order : list string) :
  index_tree root inv mtl = Ok (rid, N) ->
  bfs_order N rid = Some order ->
  NoDup order
  /\ (forall x, In x order <-> Dict.mem x N = true)
  /\ List.length order = List.length N.
Proof.
  intros Hidx Hbfs.
  destruct (index_tree_links inv mtl rid root N Hidx)
    as ((Hnd & _ & Hlist & Hroot) & _ & Hpar & _).
  apply bfs_order_inv in Hbfs. destruct Hbfs as [seen Hinv].
  pose proof (inv_nodup _ _ _ _ _ Hinv) as Hndo.
  assert (Hrid : Dict.mem rid N = true -> In rid order).
  { intros Hm. apply (inv_order _ _ _ _ _ Hinv); [|exact Hm].
    destruct (inv_root _ _ _ _ _ Hinv) as [[]|H]; exact H. }
  assert (Hall : forall n x r,
             NodeRecord.depth r = n -> Dict.get x N = Some r -> In x order).
  { induction n as [|n IHn]; intros x r Hd Hx;
      destruct (NodeRecord.parent_id r) as [p|] eqn:Hp.
    - destruct (Hpar x r p Hx Hp) as (rp & _ & Hd'). lia.
    - rewrite (Hroot x r Hx Hp). apply Hrid.
      rewrite <- (Hroot x r Hx Hp). eapply get_Some_mem; eauto.
    - destruct (Hpar x r p Hx Hp) as (rp & Hrp & Hd').
      destruct (Hlist x r p Hx Hp) as (rp' & Hrp' & Hin).
      assert (Hpo : In p order) by (apply (IHn p rp); [lia | exact Hrp]).
      apply (inv_order _ _ _ _ _ Hinv); [|eapply get_Some_mem; eauto].
      destruct (inv_closed _ _ _ _ _ Hinv p x Hpo) as [H|[]]; [|exact H].
      exists rp'. split; [exact Hrp' | exact Hin].
    - rewrite (Hroot x r Hx Hp). apply Hrid.
      rewrite <- (Hroot x r Hx Hp). eapply get_Some_mem; eauto. }
  assert (Hiff : forall x, In x order <-> Dict.mem x N = true).
  { intros x. split.
    - intros Hx. now apply (inv_seen _ _ _ _ _ Hinv).
    - unfold Dict.mem. destruct (Dict.get x N) as [r|] eqn:E; [|discriminate].
      intros _. eapply Hall; eauto. }
  split; [exact Hndo|]. split; [exact Hiff|].
  rewrite <- (length_map fst N). apply Nat.le_antisymm.
  - apply NoDup_incl_length; [exact Hndo|].
    intros x Hx. apply mem_keys. now apply Hiff.
  - apply NoDup_incl_length; [exact Hnd|].
    intros x Hx. apply Hiff. now apply mem_keys.
Qed.

(** X11. For every tree the indexer accepts, repeated ids or not, the
    breadth-first order lists every record exactly once and nothing else:
    it has no repeated id, an id is in it exactly when it has a record,
    and it is as long as the node map, so the [bfsCount] and the
    [nodeCount] that [cmd_init] reports are equal. *)
Theorem bfs_order_lists_every_record (root : dict) (inv : bool) (mtl : Z)
    (rid : string) (N : node_map) (order : list string) :
  index_tree root inv mtl = Ok (rid, N) ->
  bfs_order N rid = Some order ->
  NoDup order
  /\ (forall x, In x order <-> Dict.mem x N = true)
  /\ List.length order = List.length N.
Proof. apply bfs_covers_index. Qed.

(** *** The states of a workflow and the tree they index *)

Lemma reachable_index (s : State) :
  reachable s ->
  exists root inv mtl,
    index_tree root inv mtl = Ok (rootId s, nodes s)
    /\ bfs_order (nodes s) (rootId s) = Some (bfs s).
Proof.
  induction 1 as [payload ui path inv mtl s Hinit|s payload s' _ IH Happ].
  - apply init_saves_inv in Hinit.
    destruct Hinit as (root & _ & Hidx & Hbfs & _ & _).
    exists root, inv, mtl. auto.
  - destruct (apply_saves_normalizes _ _ _ Happ) as [P HP].
    destruct (cmd_apply_saves _ _ _ _ HP Happ) as (_ & HR & HN & HB & _).
    now rewrite HR, HN, HB.
Qed.

Lemma store_keys_known (s : State) :
  store_ok s -> incl (Dict.keys (decisions s)) (Dict.keys (nodes s)).
Proof.
  intros [_ H] k Hk. unfold Dict.keys in Hk. apply in_map_iff in Hk.
  destruct Hk as ([k' v] & <- & Hin). apply mem_keys.
  now destruct (H _ _ Hin).
Qed.

(** X12. In every state of a workflow, [cmd_status] reports as many
    ids in the order as nodes, no more decisions than nodes, and a
    [remainingCount] that is the number of nodes less the number of
    decisions, the clamp at zero never being needed; the remaining count
    is zero exactly when [next] has no node left to return. *)
Theorem status_counts_agree_with_next (s : State) :
  reachable s ->
  let total := List.length (nodes s) in
  let decided_count := List.length (decisions s) in
  List.length (bfs s) = total
  /\ decided_count <= total
  /\ (total - decided_count = 0 <-> _next_node_id s = None)
  /\ stdout (cmd_status s)
     = Some (JObj
         [("uiSystem", JStr (uiSystem s));
          ("rootId", JStr (rootId s));
          ("nodeCount", JInt (Z.of_nat total));
          ("decidedCount", JInt (Z.of_nat decided_count));
          ("remainingCount", JInt (Z.of_nat (total - decided_count)));
          ("bfsCount", JInt (Z.of_nat total));
          ("nextNodeId",
           match _next_node_id s with
           | Some nid => JStr nid
           | None => JNull
           end)]).
Proof.
  intros Hr. cbv zeta.
  destruct (reachable_index s Hr) as (root & inv & mtl & Hidx & Hbfs).
  destruct (bfs_covers_index _ _ _ _ _ _ Hidx Hbfs) as (_ & Hiff & Hlen).
  destruct (index_tree_links inv mtl _ _ _ Hidx) as ((HndN & _) & _).
  pose proof (store_entries_ok s Hr) as Hst.
  pose proof (store_keys_known s Hst) as Hincl. destruct Hst as [HndD _].
  pose proof (reachable_wf s Hr) as Hwf.
  assert (Hle : List.length (decisions s) <= List.length (nodes s)).
  { rewrite <- (length_map fst (decisions s)), <- (length_map fst (nodes s)).
    now apply NoDup_incl_length. }
  split; [exact Hlen|]. split; [exact Hle|]. split.
  - rewrite (next_None s Hwf). split.
    + intros H0. apply Forall_forall. intros x Hx. unfold decided.
      apply mem_keys. apply Hiff, mem_keys in Hx.
      revert x Hx. apply NoDup_length_incl; [exact HndD | | exact Hincl].
      unfold Dict.keys. rewrite !length_map. lia.
    + intros Hall. rewrite Forall_forall in Hall.
      assert (H : List.length (nodes s) <= List.length (decisions s)); [|lia].
      rewrite <- (length_map fst (decisions s)), <- (length_map fst (nodes s)).
      apply NoDup_incl_length; [exact HndN|].
      intros x Hx. apply mem_keys. apply (Hall x). apply Hiff.
      now apply mem_keys.
  - unfold cmd_status. simpl. rewrite Hlen.
    replace (Z.max 0 (Z.of_nat (List.length (nodes s))
                      - Z.of_nat (List.length (decisions s))))
      with (Z.of_nat (List.length (nodes s) - List.length (decisions s)))
      by lia.
    reflexivity.
Qed.

(** *** What [next] shows of the parent *)

Lemma applies_frame (s s' : State) :
  applies s s' ->
  nodes s' = nodes s /\ bfs s' = bfs s /\ rootId s' = rootId s
  /\ uiSystem s' = uiSystem s /\ (reachable s -> reachable s').
Proof.
  induction 1 as [s|s payload s' s'' Hs _ IH]; [repeat split; auto|].
  destruct (apply_saves_normalizes _ _ _ Hs) as [P HP].
  destruct (cmd_apply_saves _ _ _ _ HP Hs) as (HU & HR & HN & HB & _).
  destruct IH as (H1 & H2 & H3 & H4 & H5).
  repeat split; try congruence.
  intros Hr. apply H5. eapply reach_apply; eauto.
Qed.

Lemma nodup_split_unique {A : Type} (x : A) (a b a' b' : list A) :
  NoDup (a ++ x :: b) -> a ++ x :: b = a' ++ x :: b' -> a = a'.
Proof.
  revert a'. induction a as [|y a IH]; intros [|y' a'] Hnd Heq; simpl in *.
  - reflexivity.
  - injection Heq as <- Heq. inversion Hnd as [|? ? Hx _]; subst.
    exfalso. apply Hx. apply in_or_app. right. now left.
  - injection Heq as -> Heq. inversion Hnd as [|? ? Hx _]; subst.
    exfalso. apply Hx. apply in_or_app. right. now left.
  - injection Heq as <- Heq. inversion Hnd as [|? ? _ Hnd']; subst.
    f_equal. now apply IH.
Qed.

Lemma next_after_parent (s : State) (nid : string) (n : NodeRecord.t)
    (p : string) :
  reachable s -> parents_first (nodes s) (bfs s) ->
  _next_node_id s = Some nid -> Dict.get nid (nodes s) = Some n ->
  NodeRecord.parent_id n = Some p ->
  exists d, Dict.get p (decisions s) = Some (JObj d).
Proof.
  intros Hr Hpf Hnext Hn Hp.
  destruct (reachable_wf s Hr) as [Hnd Hwf].
  destruct (store_entries_ok s Hr) as [_ Hobj].
  apply first_undecided_Some in Hnext.
  destruct Hnext as (before & after & Hb & Hdec & _ & _).
  destruct (Hpf nid n p Hn Hp) as (l1 & l2 & l3 & Hsb).
  assert (Hbefore : before = l1 ++ p :: l2).
  { apply (nodup_split_unique nid before after (l1 ++ p :: l2) l3).
    - rewrite <- Hb. exact Hnd.
    - rewrite <- Hb, Hsb. now rewrite <- app_assoc. }
  rewrite Forall_forall in Hdec.
  destruct (Hdec p) as [Hempty|Hmem].
  - rewrite Hbefore. apply in_or_app. right. now left.
  - exfalso. apply (Hwf p); [|exact Hempty].
    rewrite Hsb. apply in_or_app. right. now left.
  - unfold Dict.mem in Hmem.
    destruct (Dict.get p (decisions s)) as [v|] eqn:E; [|discriminate].
    destruct (Hobj p v (get_In _ _ _ E)) as [_ [d ->]]. eauto.
Qed.

(** X13. Parents are decided first. In a workflow started from a tree
    without repeated ids, the node [next] returns has a record, and when
    that record names a parent the decision store already holds an object
    for the parent: the context [cmd_next] prints carries it as
    [parentDecision], and the requirements shown are those of that
    decision. *)
Theorem next_shows_the_parent_decision (payload : json)
    (ui path : string) (inv : bool) (mtl : Z) (root : dict) (s0 s : State)
    (nid : string) :
  init_saves payload ui path inv mtl s0 ->
  select_root_node payload = Ok root ->
  NoDup (tree_ids inv (JObj root)) ->
  applies s0 s ->
  _next_node_id s = Some nid ->
  exists n,
    Dict.get nid (nodes s) = Some n
    /\ stdout (cmd_next_run s) = Some (JObj (next_context s nid n))
    /\ forall p,
        NodeRecord.parent_id n = Some p ->
        exists d,
          Dict.get p (decisions s) = Some (JObj d)
          /\ Dict.get "parentDecision" (next_context s nid n) = Some (JObj d)
          /\ Dict.get "requirements" (next_context s nid n)
             = Some (JObj (requirements_for_child (JObj d))).
Proof.
  intros Hinit Hroot Hnd Happ Hnext.
  assert (Hr0 : reachable s0) by (eapply reach_init; eauto).
  destruct (applies_frame _ _ Happ) as (HN & HB & _ & _ & Hr).
  specialize (Hr Hr0).
  apply init_saves_inv in Hinit.
  destruct Hinit as (root' & Hroot' & Hidx & Hbfs & _ & _).
  assert (root' = root) by congruence. subst root'.
  pose proof (unique_ids_parents_first inv mtl root _ _ _ Hidx Hbfs Hnd) as Hpf.
  rewrite <- HN, <- HB in Hpf.
  destruct (reachable_wf s Hr) as [_ Hwf].
  destruct (next_in_bfs _ _ Hnext) as [Hin _].
  destruct (Hwf nid Hin) as [_ Hmem]. unfold Dict.mem in Hmem.
  destruct (Dict.get nid (nodes s)) as [n|] eqn:Hn; [|discriminate].
  exists n. split; [reflexivity|]. split.
  - unfold cmd_next_run. now rewrite Hnext, Hn.
  - intros p Hp.
    destruct (next_after_parent s nid n p Hr Hpf Hnext Hn Hp) as [d Hd].
    exists d. split; [exact Hd|].
    unfold next_context. rewrite Hp. unfold getn. rewrite Hd.
    split; reflexivity.
Qed.

(** *** The validator: findings are only ever appended *)

Section ValidatorSteps.
Variable decided_ : dict.
Variable Q : json -> Prop.
Hypothesis HQ :
  forall nid msg detail,
    String.eqb msg "decision_not_object" = false ->
    Q (error_item nid msg detail).
Hypothesis Hdno :
  forall nid,
    malformed_entry decided_ nid = true ->
    Q (error_item nid "decision_not_object" None).

Definition step_adds (g : Findings -> Findings) : Prop :=
  forall f, adds Q f (g f).

Lemma adds_refl f : adds Q f f.
Proof. exists [], []. now rewrite !app_nil_r. Qed.

Lemma adds_trans f1 f2 f3 : adds Q f1 f2 -> adds Q f2 f3 -> adds Q f1 f3.
Proof.
  intros (e1 & w1 & He1 & Hw1 & Hq1) (e2 & w2 & He2 & Hw2 & Hq2).
  exists (e1 ++ e2), (w1 ++ w2). rewrite He2, Hw2, He1, Hw1, <- !app_assoc.
  repeat split. apply Forall_app. now split.
Qed.

Lemma adds_err nid msg detail f :
  Q (error_item nid msg detail) -> adds Q f (err nid msg detail f).
Proof.
  intros H. exists [error_item nid msg detail], []. simpl.
  rewrite app_nil_r. repeat split. now constructor.
Qed.

Lemma adds_warn nid msg detail f : adds Q f (warn nid msg detail f).
Proof.
  eexists [], [_]. simpl. rewrite app_nil_r. repeat split. constructor.
Qed.

Lemma adds_when b g : step_adds g -> step_adds (when b g).
Proof. intros H f. unfold when. destruct b; [apply H | apply adds_refl]. Qed.

Lemma adds_fold {A : Type} (body : A -> Findings -> Findings) (l : list A) :
  (forall a, step_adds (body a)) ->
  step_adds (fun f => fold_left (fun f a => body a f) l f).
Proof.
  intros H. induction l as [|a l IH]; intros f; simpl.
  - apply adds_refl.
  - eapply adds_trans; [apply H | apply IH].
Qed.

Lemma adds_for_each child_ids body :
  (forall cid, step_adds (body cid)) -> step_adds (for_each child_ids body).
Proof. intros H. unfold for_each. now apply adds_fold. Qed.

Ltac adds_chain :=
  lazymatch goal with
  | |- adds _ ?f ?f => apply adds_refl
  | |- adds _ ?f (err _ _ _ ?x) =>
      apply adds_trans with x;
      [adds_chain | apply adds_err; apply HQ; reflexivity]
  | |- adds _ ?f (warn _ _ _ ?x) =>
      apply adds_trans with x; [adds_chain | apply adds_warn]
  end.

Ltac split_matches :=
  repeat match goal with
         | |- context [match ?x with _ => _ end] => destruct x eqn:?
         end.

Lemma adds_check_layout nid layout : step_adds (check_layout nid layout).
Proof using HQ. intros f. unfold check_layout, when. split_matches; adds_chain. Qed.

Lemma adds_check_cell nid base layout : step_adds (check_cell nid base layout).
Proof using HQ. intros f. unfold check_cell, when. split_matches; adds_chain. Qed.

Lemma adds_check_decision ui_system nid :
  step_adds (check_decision ui_system decided_ nid).
Proof using HQ Hdno.
  intros f. unfold check_decision.
  pose proof (Hdno nid) as Hm. unfold malformed_entry in Hm.
  destruct (getn nid decided_) as [| | | | | |dec] eqn:E;
    try (apply adds_err; now apply Hm).
  - apply adds_warn.
  - destruct (getn "component" dec) as [| | | | | |comp];
      try (adds_chain; fail).
    set (f1 := when _ _ f).
    assert (H1 : adds Q f f1).
    { subst f1. unfold when. split_matches; adds_chain. }
    set (f2 := match getn "layout" dec with
               | JNull | JObj _ => f1
               | _ => err nid "layout_not_object" None f1
               end).
    assert (H2 : adds Q f1 f2).
    { subst f2. split_matches; adds_chain. }
    set (lay := match getn "layout" dec with JObj l => Some l | _ => None end).
    set (f3 := match lay with Some l => check_layout nid l f2 | None => f2 end).
    assert (H3 : adds Q f2 f3).
    { subst f3. destruct lay; [apply adds_check_layout | apply adds_refl]. }
    apply adds_trans with f3;
      [eapply adds_trans; [exact H1 | eapply adds_trans; eauto]|].
    destruct (getn "base" comp); try apply adds_refl.
    apply adds_when. apply adds_check_cell.
Qed.

Lemma adds_check_cell_child node_id must cid :
  step_adds (check_cell_child decided_ node_id must cid).
Proof using HQ.
  intros f. unfold check_cell_child, when, detail_of.
  split_matches; adds_chain.
Qed.

Lemma adds_check_allowed_child msg allowed node_id cid :
  step_adds (check_allowed_child decided_ msg allowed node_id cid).
Proof using HQ.
  intros f. unfold check_allowed_child, when. split_matches; adds_chain.
Qed.

Lemma adds_check_children ui_system entry :
  step_adds (check_children ui_system decided_ entry).
Proof using HQ.
  intros f. unfold check_children.
  destruct (NodeRecord.child_ids (snd entry)) as [|c cs] eqn:E;
    [apply adds_refl|].
  eapply adds_trans.
  - apply adds_when. intros f0. eapply adds_trans.
    + apply adds_when, adds_for_each. intros cid.
      apply adds_check_cell_child.
    + apply adds_when, adds_for_each. intros cid.
      apply adds_check_allowed_child.
  - apply adds_when. intros f0. eapply adds_trans.
    + apply adds_when, adds_for_each. intros cid.
      apply adds_check_allowed_child.
    + apply adds_when, adds_for_each. intros cid.
      apply adds_check_allowed_child.
Qed.

(** An error one step of a loop appends is still there when the loop
    ends. *)
Lemma fold_keeps_error {A : Type} (body : A -> Findings -> Findings)
    (l : list A) (a : A) (item : json) :
  (forall a, step_adds (body a)) ->
  In a l -> (forall f, In item (errors (body a f))) ->
  forall f, In item (errors (fold_left (fun f a => body a f) l f)).
Proof.
  intros Hstep Hin Hitem. induction l as [|x l IH]; intros f; simpl;
    [contradiction|].
  destruct Hin as [->|Hin]; [|now apply IH].
  destruct (adds_fold body l Hstep (body a f)) as (e & _ & -> & _).
  apply in_or_app. left. apply Hitem.
Qed.
End ValidatorSteps.

Lemma validate_adds (Q : json -> Prop) (state : State) :
  (forall nid msg detail,
      String.eqb msg "decision_not_object" = false ->
      Q (error_item nid msg detail)) ->
  (forall nid,
      malformed_entry (decisions state) nid = true ->
      Q (error_item nid "decision_not_object" None)) ->
  Forall Q (errors (validate state)).
Proof.
  intros HQ Hdno. unfold validate.
  set (f1 := fold_left _ (Dict.keys (nodes state)) _).
  assert (H1 : adds Q (mkFindings [] []) f1).
  { apply (adds_fold Q (check_decision (uiSystem state) (decisions state))).
    intros a. now apply adds_check_decision. }
  assert (H2 : adds Q f1
                 (fold_left
                    (fun f entry =>
                       check_children (uiSystem state) (decisions state) entry f)
                    (nodes state) f1)).
  { apply (adds_fold Q (check_children (uiSystem state) (decisions state))).
    intros a. now apply adds_check_children. }
  destruct (adds_trans Q _ _ _ H1 H2) as (e & _ & -> & _ & He). exact He.
Qed.

(** X14. In every state of a workflow the validator never reports
    [decision_not_object]: the store only holds objects, so the check
    for an entry that is not one cannot fail. Every error it reports
    carries one of its other messages. *)
Theorem validate_never_reports_a_non_object (s : State) :
  reachable s ->
  Forall (fun item =>
            exists msg, error_message item = Some msg
                        /\ String.eqb msg "decision_not_object" = false)
    (errors (validate s)).
Proof.
  intros Hr. destruct (store_entries_ok s Hr) as [_ Hobj].
  apply validate_adds.
  - intros nid msg detail Hmsg. exists msg. split; [reflexivity | exact Hmsg].
  - intros nid Hm. exfalso. unfold malformed_entry, getn in Hm.
    destruct (Dict.get nid (decisions s)) as [v|] eqn:E; [|discriminate].
    destruct (Hobj nid v (get_In _ _ _ E)) as [_ [o ->]]. discriminate.
Qed.

Lemma must_use_is_a_cell (pd : json) (m : json) :
  Dict.get "mustUseComponentBase" (requirements_for_child pd) = Some m ->
  (base_component_from_decision pd = Some "UICollectionView"
   /\ m = JStr "UICollectionViewCell")
  \/ (base_component_from_decision pd = Some "UITableView"
      /\ m = JStr "UITableViewCell").
Proof.
  unfold requirements_for_child.
  destruct (base_component_from_decision pd) as [base|]; [|discriminate].
  destruct (String.eqb_spec base "UICollectionView") as [->|_];
    [intros [= <-]; now left|].
  destruct (String.eqb_spec base "UITableView") as [->|_];
    [intros [= <-]; now right|].
  destruct (String.eqb base "UIButton"); [discriminate|].
  destruct (String.eqb base "List"); [discriminate|].
  destruct (String.eqb base "Button"); discriminate.
Qed.

(** X15. The requirement [next] shows for the children of a list
    container is the one the validator enforces. Under UIKit, when the
    decision of a parent makes [requirements_for_child] demand the
    component base [m], a child listed in the parent's record and decided
    with another base gets the error [child_component_must_be_cell], with
    the parent, [m] and the actual base as detail, and [cmd_validate]
    exits with status 1. *)
Theorem cell_requirement_is_enforced (s : State) (pid cid b m : string)
    (rp : NodeRecord.t) :
  uiSystem s = "UIKit" ->
  In (pid, rp) (nodes s) ->
  In cid (NodeRecord.child_ids rp) ->
  Dict.get "mustUseComponentBase"
    (requirements_for_child (getn pid (decisions s))) = Some (JStr m) ->
  base_component_from_decision (getn cid (decisions s)) = Some b ->
  String.eqb b m = false ->
  In (error_item cid "child_component_must_be_cell"
        (Some (JObj [("parent", JStr pid); ("mustBe", JStr m);
                     ("actual", JStr b)])))
     (errors (validate s))
  /\ exit_code (cmd_validate s) = 1%Z.
Proof.
  intros Hui Hp Hc Hreq Hb Hbm.
  set (item := error_item cid "child_component_must_be_cell"
                 (Some (JObj [("parent", JStr pid); ("mustBe", JStr m);
                              ("actual", JStr b)]))).
  assert (Hin : In item (errors (validate s))).
  { unfold validate.
    apply (fold_keeps_error (fun _ => True)
             (check_children (uiSystem s) (decisions s)) (nodes s) (pid, rp)).
    - intros a. apply adds_check_children; intros; exact I.
    - exact Hp.
    - intros f. unfold check_children. cbn [fst snd].
      destruct (NodeRecord.child_ids rp) as [|c0 cs0] eqn:Hcs;
        [contradiction|].
      rewrite Hui.
      assert (Hstep : forall must f0,
                 JStr must = JStr m ->
                 In item
                   (errors (for_each (c0 :: cs0)
                              (check_cell_child (decisions s) pid must) f0))).
      { intros must f0 [= ->]. unfold for_each.
        apply (fold_keeps_error (fun _ => True)
                 (check_cell_child (decisions s) pid m) (c0 :: cs0) cid).
        - intros a. apply adds_check_cell_child; intros; exact I.
        - exact Hc.
        - intros f1. unfold check_cell_child. rewrite Hb, Hbm. simpl.
          apply in_or_app. right. now left. }
      destruct (must_use_is_a_cell _ _ Hreq) as [[-> Hm]|[-> Hm]];
        unfold when; simpl; now apply Hstep. }
  split; [exact Hin|].
  unfold cmd_validate. simpl. fold item in Hin.
  destruct (errors (validate s)); [destruct Hin | reflexivity].
Qed.

(** *** Hints and requirements *)

(** X16. The component hint always names exactly one class, with one
    reason, out of a fixed list for the UI system, and that class is never
    a cell: whenever the parent's decision makes [requirements_for_child]
    demand a component base, the hint shown next to the requirement names
    another class. *)
Theorem component_hint_is_never_a_cell (n : NodeRecord.t) (ui : string) :
  exists base reason,
    component_hint_from_node_record n ui = hint base [reason]
    /\ Str.mem base (if String.eqb ui "UIKit" then UIKIT_HINT_BASES
                     else SWIFTUI_HINT_BASES) = true
    /\ forall pd m,
        Dict.get "mustUseComponentBase" (requirements_for_child pd)
        = Some (JStr m) ->
        String.eqb base m = false.
Proof.
  assert (Hcell : forall base,
             Str.mem base (UIKIT_HINT_BASES ++ SWIFTUI_HINT_BASES) = true ->
             forall pd m,
               Dict.get "mustUseComponentBase" (requirements_for_child pd)
               = Some (JStr m) ->
               String.eqb base m = false).
  { intros base Hb pd m Hm. apply must_use_is_a_cell in Hm.
    apply str_mem_In in Hb.
    destruct Hm as [[_ [= ->]]|[_ [= ->]]];
      repeat (destruct Hb as [<-|Hb]; [reflexivity|]); destruct Hb. }
  unfold component_hint_from_node_record. cbv zeta.
  destruct (String.eqb ui "UIKit");
    repeat match goal with
           | |- context [if ?b then _ else _] => destruct b
           end;
    (eexists; eexists; split; [reflexivity|]; split; [reflexivity|];
     apply Hcell; reflexivity).
Qed.

(** X17. The cell sizing hint against the validator's cell rules. The
    hint always names [selfSizing] or [fixed]. A cell whose layout takes
    its [cellSizing] and [fixedSize] from the hint passes the cell checks
    when the hint is [selfSizing] or carries a [fixedSize]; the hint
    [fixed] without a [fixedSize], given when no axis hugs and the frame
    lacks a numeric width or height, fails them with
    [fixed_cell_requires_fixedSize_width_height]. *)
Theorem cell_sizing_hint_against_the_validator (n : NodeRecord.t)
    (h layout : dict) (nid base : string) (f : Findings) :
  cell_sizing_hint_from_node_record n = Some h ->
  Str.mem (Str.strip base) ["UITableViewCell"; "UICollectionViewCell"] = true ->
  follows_cell_hint layout h ->
  (getn "cellSizing" h = JStr "selfSizing" /\ Dict.mem "fixedSize" h = false
   /\ check_cell nid base (Some layout) f = f)
  \/ (getn "cellSizing" h = JStr "fixed" /\ Dict.mem "fixedSize" h = true
      /\ check_cell nid base (Some layout) f = f)
  \/ (getn "cellSizing" h = JStr "fixed" /\ Dict.mem "fixedSize" h = false
      /\ check_cell nid base (Some layout) f
         = err nid "fixed_cell_requires_fixedSize_width_height" None f).
Proof.
  unfold cell_sizing_hint_from_node_record, follows_cell_hint, check_cell.
  intros Hh -> [Hcs Hfs]. rewrite Hcs, Hfs. clear Hcs Hfs.
  destruct (or_empty_dict (getn "layout" (NodeRecord.facts n))) as [lay|];
    [|discriminate].
  destruct (or_empty_dict (getn "frame" (NodeRecord.facts n))) as [frame|];
    [|discriminate].
  cbv zeta in Hh.
  destruct (_ || _) in Hh.
  - injection Hh as <-. left. repeat split.
  - destruct (is_number (getn "width" frame) && is_number (getn "height" frame))
      in Hh; injection Hh as <-.
    + right. left. repeat split.
    + right. right. repeat split.
Qed.

(** *** Skeletons *)












Lemma child_skeletons_closed (N : node_map) (ids : list string) :
  ids_match N -> (forall c, In c ids -> Dict.mem c N = true) ->
  List.map skeleton_id (child_skeletons N ids) = List.map Some ids.
Proof.
  intros Hid. unfold child_skeletons, node_skeleton.
  induction ids as [|c ids IH]; intros Hall; simpl; [reflexivity|].
  pose proof (Hall c (or_introl eq_refl)) as Hc. unfold Dict.mem in Hc.
  destruct (Dict.get c N) as [r|] eqn:E; [|discriminate].
  simpl. rewrite (Hid c r E). f_equal. apply IH.
  intros c' Hc'. apply Hall. now right.
Qed.

(** X19. In every state of a workflow, [cmd_children] lists one
    skeleton for each id in the node's [childIds], in that order, none
    being dropped for want of a record; for an id without a record it
    fails with status 2 and the message naming the id. *)
Theorem children_are_all_listed (s : State) (nid : string) :
  reachable s ->
  match Dict.get nid (nodes s) with
  | None =>
      cmd_children s nid
      = fail 2 ("error: children failed: unknown node id: " ^^ nid)
  | Some n =>
      exists cs,
        cmd_children s nid
        = mkRun 0 []
            (Some (JObj [("nodeId", JStr nid); ("children", JArr cs)])) None
        /\ List.map skeleton_id cs = List.map Some (NodeRecord.child_ids n)
  end.
Proof.
  intros Hr. destruct (reachable_index s Hr) as (root & inv & mtl & Hidx & _).
  destruct (index_tree_links inv mtl _ _ _ Hidx)
    as ((_ & Hid & _) & Hclosed & _).
  unfold cmd_children.
  destruct (Dict.get nid (nodes s)) as [n|] eqn:Hn; [|reflexivity].
  eexists. split; [reflexivity|].
  apply child_skeletons_closed; [exact Hid|].
  intros c Hc. eapply Hclosed; eauto.
Qed.

(** *** Export *)

Lemma export_count_node (children : list json) (head : dict) :
  export_count (JObj (Dict.set "children" (JArr children) head))
  = S (list_sum (List.map export_count children)).
Proof. cbn [export_count]. now rewrite with_field_get, get_set_eq. Qed.

Lemma all_some_map_Some {A : Type} (ts : list A) :
  all_some (List.map Some ts) = Some ts.
Proof. induction ts as [|t ts IH]; simpl; [reflexivity | now rewrite IH]. Qed.

Lemma all_some_None {A B : Type} (f : A -> option B) (l : list A) (a : A) :
  In a l -> f a = None -> all_some (List.map f l) = None.
Proof.
  intros Hin Hf. induction l as [|x l IH]; simpl; [contradiction|].
  destruct Hin as [->|Hin]; [now rewrite Hf|].
  destruct (f x); [|reflexivity]. now rewrite IH.
Qed.

Lemma listed_child_ids_children (inv : bool) (fields : dict) :
  listed_child_ids inv (getn "children" fields)
  = filter_map (listed_child_id inv) (children_of fields).
Proof.
  unfold listed_child_ids, children_of, getn.
  destruct (Dict.get "children" fields) as [[]|]; reflexivity.
Qed.

Section ExportFacts.
Variables (inv : bool) (mtl : Z) (s : State).

(** On the records of a document, [build_export_tree] ends, and gives
    one export node for each record. *)
Lemma export_document :
  forall node pid d nid,
    listed_child_id inv node = Some nid ->
    (forall x r, In (x, r) (tree_records inv mtl node pid d) ->
                 Dict.get x (nodes s) = Some r) ->
    exists fuel t,
      (forall k, build_export_tree (fuel + k) s nid = Some t)
      /\ export_count t = List.length (tree_records inv mtl node pid d).
Proof.
  induction node as [node IH] using node_tree_ind.
  intros pid d nid Hl Hrec.
  destruct node as [| | | | | |fields]; try discriminate.
  rewrite tree_records_obj in *. unfold listed_child_id in Hl.
  destruct (should_include_node fields inv); [|discriminate].
  cbn [negb] in *. rewrite Hl in *.
  set (rec := node_record inv mtl fields nid pid d) in *.
  assert (Hnid : Dict.get nid (nodes s) = Some rec)
    by (apply Hrec; now left).
  assert (Hloop : forall cs,
             (forall c, In c cs -> In c (children_of fields)) ->
             (forall x r,
                 In (x, r)
                    (flat_map
                       (fun c => tree_records inv mtl c (Some nid) (S d)) cs) ->
                 Dict.get x (nodes s) = Some r) ->
             exists fuel ts,
               (forall k,
                   List.map (build_export_tree (fuel + k) s)
                     (filter (fun cid => Dict.mem cid (nodes s))
                        (filter_map (listed_child_id inv) cs))
                   = List.map Some ts)
               /\ list_sum (List.map export_count ts)
                  = List.length
                      (flat_map
                         (fun c => tree_records inv mtl c (Some nid) (S d))
                         cs)).
  { induction cs as [|c cs IHcs]; intros Hsub Hin.
    - exists 0, []. split; reflexivity.
    - destruct IHcs as (fuel2 & ts2 & Hb2 & Hc2).
      { intros c' Hc'. apply Hsub. now right. }
      { intros x r Hx. apply Hin. simpl. apply in_or_app. now right. }
      pose proof (records_head inv mtl c (Some nid) (S d)) as Hhead.
      cbn [filter_map flat_map].
      destruct (listed_child_id inv c) as [cx|] eqn:Hcx.
      + destruct Hhead as (cf & rest & -> & Hcrec).
        assert (Hc : In (JObj cf) (children_of fields))
          by (apply Hsub; now left).
        destruct (child_in_tree fields _ Hc) as (items & Hch & Hci).
        destruct (IH fields items (JObj cf) eq_refl Hch Hci (Some nid) (S d)
                    cx Hcx) as (fuel1 & t1 & Hb1 & Hc1).
        { intros x r Hx. apply Hin. simpl. apply in_or_app. now left. }
        assert (Hmem : Dict.mem cx (nodes s) = true).
        { eapply get_Some_mem. apply Hin. cbn [flat_map]. apply in_or_app.
          left. rewrite Hcrec. now left. }
        exists (Nat.max fuel1 fuel2), (t1 :: ts2). split.
        * intros k. cbn [filter]. rewrite Hmem. cbn [List.map]. f_equal.
          -- replace (Nat.max fuel1 fuel2 + k)
               with (fuel1 + (Nat.max fuel1 fuel2 - fuel1 + k)) by lia.
             apply Hb1.
          -- replace (Nat.max fuel1 fuel2 + k)
               with (fuel2 + (Nat.max fuel1 fuel2 - fuel2 + k)) by lia.
             apply Hb2.
        * cbn [List.map list_sum fold_right]. rewrite length_app, <- Hc1, <- Hc2.
          reflexivity.
      + rewrite Hhead. cbn [app]. exists fuel2, ts2. split; assumption. }
  destruct (Hloop (children_of fields)) as (fuel & ts & Hb & Hc); [auto| |].
  { intros x r Hx. apply Hrec. now right. }
  exists (S fuel), (JObj (Dict.set "children" (JArr ts) (export_head s nid))).
  split.
  - intros k. cbn [plus build_export_tree]. rewrite Hnid.
    change (NodeRecord.child_ids rec)
      with (listed_child_ids inv (getn "children" fields)).
    rewrite listed_child_ids_children, Hb, all_some_map_Some. reflexivity.
  - rewrite export_count_node. cbn [List.length]. now rewrite Hc.
Qed.

Lemma export_none_up (p c : string) (rp : NodeRecord.t) :
  Dict.get p (nodes s) = Some rp -> In c (NodeRecord.child_ids rp) ->
  Dict.mem c (nodes s) = true ->
  (forall fuel, build_export_tree fuel s c = None) ->
  forall fuel, build_export_tree fuel s p = None.
Proof.
  intros Hp Hc Hm Hnone [|fuel]; [reflexivity|].
  cbn [build_export_tree]. rewrite Hp.
  rewrite (all_some_None (build_export_tree fuel s) _ c); [reflexivity | |].
  - apply filter_In. split; [exact Hc | exact Hm].
  - apply Hnone.
Qed.
End ExportFacts.

(** X20. In a workflow started from a tree without repeated ids and
    with an included root, [build_export_tree] on the root ends, with the
    same result for any larger recursion budget, and the tree it builds
    has exactly one node for each record of the node map, whatever
    decisions have been applied. *)
Theorem export_has_one_node_per_record (payload : json) (ui path : string)
    (inv : bool) (mtl : Z) (root : dict) (s0 s : State) :
  init_saves payload ui path inv mtl s0 ->
  select_root_node payload = Ok root ->
  NoDup (tree_ids inv (JObj root)) ->
  should_include_node root inv = true ->
  applies s0 s ->
  exists fuel t,
    (forall k, build_export_tree (fuel + k) s (rootId s) = Some t)
    /\ export_count t = List.length (nodes s).
Proof.
  intros Hinit Hroot Hnd Hinc Happ.
  destruct (applies_frame _ _ Happ) as (HN & _ & HR & _).
  apply init_saves_inv in Hinit.
  destruct Hinit as (root' & Hroot' & Hidx & _).
  assert (root' = root) by congruence. subst root'.
  assert (Hrid : nonempty_str (getn "id" root) = Some (rootId s0)).
  { exact (proj1 (index_tree_root _ _ _ _ _ Hidx)). }
  apply index_tree_ok in Hidx. destruct Hidx as (_ & _ & HN0).
  rewrite visit_map_fresh in HN0 by (auto; intros; reflexivity).
  cbn [app] in HN0.
  assert (Hkeys : NoDup (Dict.keys (nodes s)))
    by (rewrite HN, HN0, keys_tree_records; exact Hnd).
  rewrite HR, HN, HN0.
  apply export_document.
  - unfold listed_child_id. now rewrite Hinc.
  - intros x r Hx. apply In_get; [exact Hkeys|]. now rewrite HN, HN0.
Qed.

Lemma all_some_inv {A B : Type} (f : A -> option B) (l : list A)
    (bs : list B) :
  all_some (List.map f l) = Some bs ->
  forall a, In a l -> exists b, f a = Some b.
Proof.
  revert bs. induction l as [|x l IH]; intros bs; simpl; [intros _ a []|].
  destruct (f x) as [b|] eqn:E; [|discriminate].
  destruct (all_some (List.map f l)) as [r|]; [|discriminate].
  intros _ a [<-|Ha]; [eauto | eapply IH; eauto].
Qed.

Lemma all_some_total {A B : Type} (f : A -> option B) (l : list A) :
  (forall a, In a l -> exists b, f a = Some b) ->
  exists bs, all_some (List.map f l) = Some bs.
Proof.
  induction l as [|x l IH]; intros H; simpl; [eauto|].
  destruct (H x (or_introl eq_refl)) as (b & ->).
  destruct IH as (bs & ->); [intros a Ha; apply H; now right|]. eauto.
Qed.

(** Whether the recursion of [build_export_tree] ends within a budget
    depends on the node map alone. *)
Lemma export_ends_alike (s s' : State) :
  nodes s' = nodes s ->
  forall fuel x t,
    build_export_tree fuel s x = Some t ->
    exists t', build_export_tree fuel s' x = Some t'.
Proof.
  intros HN. induction fuel as [|fuel IH]; intros x t; [discriminate|].
  cbn [build_export_tree]. rewrite HN.
  destruct (all_some (List.map (build_export_tree fuel s) _)) as [cs|] eqn:E;
    [|discriminate].
  intros _.
  destruct (all_some_total (build_export_tree fuel s')
              (filter (fun cid => Dict.mem cid (nodes s))
                 match Dict.get x (nodes s) with
                 | Some n => NodeRecord.child_ids n
                 | None => []
                 end)) as (cs' & ->); [|eauto].
  intros a Ha. destruct (all_some_inv _ _ _ E a Ha) as (b & Hb).
  eapply IH; eauto.
Qed.

(** X21. A patch that carries an id and nothing else stores an empty
    object for the node. The node then counts as decided, so [next] never
    returns it again, but [build_export_tree] treats the empty object as
    no decision: with any recursion budget within which the export of the
    node ended before the patch, it ends after it too, and the node is
    exported with the component base [__UNDECIDED__] and the warning
    [missing_decision]; with a budget too small before, it is too small
    after. *)
Theorem id_only_patch_is_exported_as_undecided (s s' : State)
    (nid : string) :
  Str.is_empty nid = false -> Dict.mem nid (nodes s) = true ->
  apply_saves s (JObj [("id", JStr nid)]) s' ->
  Dict.get nid (decisions s') = Some (JObj [])
  /\ (forall x, _next_node_id s' = Some x -> String.eqb x nid = false)
  /\ forall fuel,
      match build_export_tree fuel s nid with
      | Some _ =>
          exists t,
            build_export_tree fuel s' nid = Some t
            /\ get_component_base_from_spec t = Some "__UNDECIDED__"
            /\ Dict.get "warnings" (export_fields t)
               = Some (JArr [JStr "missing_decision"])
      | None => build_export_tree fuel s' nid = None
      end.
Proof.
  intros Hne Hmem Hs.
  assert (HP : normalize_patch_payload (JObj [("id", JStr nid)])
               = Ok [(nid, JObj [])]).
  { unfold normalize_patch_payload, patch_of_item, getn. simpl.
    rewrite Hne. reflexivity. }
  destruct (cmd_apply_saves _ _ _ _ HP Hs) as (_ & _ & HN & _ & Hst & _).
  assert (Hd : Dict.get nid (decisions s') = Some (JObj [])).
  { rewrite Hst. simpl. now rewrite String.eqb_refl, Hmem. }
  split; [exact Hd|]. split.
  - intros x Hx. apply next_in_bfs in Hx. destruct Hx as [_ Hx].
    destruct (String.eqb_spec x nid) as [->|]; [|reflexivity].
    unfold decided, Dict.mem in Hx. now rewrite Hd in Hx.
  - intros fuel.
    assert (Hshape : forall t,
               build_export_tree fuel s' nid = Some t ->
               get_component_base_from_spec t = Some "__UNDECIDED__"
               /\ Dict.get "warnings" (export_fields t)
                  = Some (JArr [JStr "missing_decision"])).
    { destruct fuel as [|fuel]; intros t; [discriminate|].
      cbn [build_export_tree].
      destruct (all_some _) as [cs|]; [|discriminate].
      intros [= <-]. unfold export_head, getn. rewrite Hd.
      split; reflexivity. }
    destruct (build_export_tree fuel s nid) as [t0|] eqn:E.
    + destruct (export_ends_alike s s' HN fuel nid t0 E) as (t & Ht).
      exists t. split; [exact Ht | now apply Hshape].
    + destruct (build_export_tree fuel s' nid) as [t|] eqn:E'; [|reflexivity].
      destruct (export_ends_alike s' s (eq_sym HN) fuel nid t E') as (t0 & Ht0).
      congruence.
Qed.

(** X22. When a record lists its own id among its [childIds], which
    [cmd_init] produces for a node that has a child carrying the node's
    id, the recursion of [build_export_tree] never ends, from that node
    or from the root, whatever the recursion budget: in such a state of a
    workflow [cmd_export] never prints a tree. *)
Theorem export_never_ends_on_a_self_child (s : State) (x : string)
    (r : NodeRecord.t) :
  reachable s ->
  Dict.get x (nodes s) = Some r -> In x (NodeRecord.child_ids r) ->
  forall fuel no_absorb,
    build_export_tree fuel s x = None /\ cmd_export fuel s no_absorb = None.
Proof.
  intros Hr Hx Hself.
  assert (Hnone : forall fuel, build_export_tree fuel s x = None).
  { induction fuel as [|fuel IH]; [reflexivity|].
    cbn [build_export_tree]. rewrite Hx.
    rewrite (all_some_None (build_export_tree fuel s) _ x); auto.
    apply filter_In. split; [exact Hself | eapply get_Some_mem; eauto]. }
  destruct (reachable_index s Hr) as (root & inv & mtl & Hidx & _).
  destruct (index_tree_links inv mtl _ _ _ Hidx)
    as ((_ & _ & Hlist & Hroot) & _ & Hpar & _).
  assert (Hup : forall n y ry,
             NodeRecord.depth ry = n -> Dict.get y (nodes s) = Some ry ->
             (forall fuel, build_export_tree fuel s y = None) ->
             forall fuel, build_export_tree fuel s (rootId s) = None).
  { induction n as [|n IHn]; intros y ry Hd Hy Hny;
      destruct (NodeRecord.parent_id ry) as [p|] eqn:Hp.
    - destruct (Hpar y ry p Hy Hp) as (rp & _ & Hd'). lia.
    - now rewrite <- (Hroot y ry Hy Hp).
    - destruct (Hpar y ry p Hy Hp) as (rp & Hrp & Hd').
      destruct (Hlist y ry p Hy Hp) as (rp' & Hrp' & Hin).
      apply (IHn p rp); [lia | exact Hrp|].
      eapply export_none_up; eauto. eapply get_Some_mem; eauto.
    - now rewrite <- (Hroot y ry Hy Hp). }
  intros fuel no_absorb. split; [apply Hnone|].
  unfold cmd_export. now rewrite (Hup _ x r eq_refl Hx Hnone fuel).
Qed.

(** *** [cmd_init] at its edges *)

(** X23. A root that is hidden, indexed without [--include-invisible],
    is not an error: [cmd_init] exits with status 0 and saves a state with
    no node and an empty order, whose root id has no record. On that
    state [next] answers done at once, the validator finds nothing,
    [cmd_skeleton] fails for want of the root's record, and
    [build_export_tree] returns a lone undecided node without a source
    identity. *)
Theorem hidden_root_gives_an_empty_workflow (payload : json)
    (ui path : string) (mtl : Z) (root : dict) (rid : string) :
  select_root_node payload = Ok root ->
  nonempty_str (getn "id" root) = Some rid ->
  should_include_node root false = false ->
  let r := cmd_init payload ui path false mtl in
  let s := mkState ui rid [] [] [] in
  exit_code r = 0%Z
  /\ saved r = Some s
  /\ stdout r
     = Some (JObj [("ok", JBool true); ("state", JStr path);
                   ("rootId", JStr rid); ("nodeCount", JInt 0);
                   ("bfsCount", JInt 0)])
  /\ cmd_next s = NextDone
  /\ validate s = mkFindings [] []
  /\ cmd_skeleton s None 2
     = fail 2 ("error: skeleton failed: unknown node id: " ^^ rid)
  /\ build_export_tree 1 s rid
     = Some (JObj [("source",
                    JObj [("id", JNull); ("name", JNull); ("type", JNull)]);
                   ("component", JObj [("base", JStr "__UNDECIDED__")]);
                   ("warnings", JArr [JStr "missing_decision"]);
                   ("children", JArr [])]).
Proof.
  intros Hroot Hid Hinc. cbv zeta.
  assert (Hrun : cmd_init payload ui path false mtl
                 = mkRun 0 []
                     (Some (JObj [("ok", JBool true); ("state", JStr path);
                                  ("rootId", JStr rid); ("nodeCount", JInt 0);
                                  ("bfsCount", JInt 0)]))
                     (Some (mkState ui rid [] [] []))).
  { unfold cmd_init, index_tree. rewrite Hroot, Hid.
    rewrite visit_obj, Hinc. reflexivity. }
  rewrite Hrun. repeat split.
Qed.

(** X24. [cmd_init] fails in three cases only, each with status 2, one
    line on stderr, nothing printed and nothing saved: the input is not
    an object; its root (the [document] when that is an object, the input
    itself otherwise) has no non-empty string id; or indexing meets an
    integer beyond the range of a float where it converts a number, as it
    does when the root is included and one of its frame values is such an
    integer. In every other case it exits with status 0 and saves a state
    with the indexed nodes and an empty decision store, and the
    [nodeCount] and [bfsCount] it prints are the number of records. *)
Theorem init_fails_in_three_cases (payload : json) (ui path : string)
    (inv : bool) (mtl : Z) :
  let r := cmd_init payload ui path inv mtl in
  match select_root_node payload with
  | Raise _ =>
      r = fail 2 "error: init failed: input JSON root must be an object"
      /\ is_object payload = false
  | Ok root =>
      match nonempty_str (getn "id" root) with
      | None =>
          r = fail 2 "error: init failed: root node is missing a string 'id'"
      | Some rid =>
          match index_tree root inv mtl with
          | Raise _ =>
              r = fail 2
                    "error: init failed: int too large to convert to float"
          | Ok (_, N) =>
              exists s,
                r = mkRun 0 []
                      (Some (JObj
                         [("ok", JBool true); ("state", JStr path);
                          ("rootId", JStr rid);
                          ("nodeCount", JInt (Z.of_nat (List.length N)));
                          ("bfsCount", JInt (Z.of_nat (List.length N)))]))
                      (Some s)
                /\ rootId s = rid /\ uiSystem s = ui /\ nodes s = N
                /\ decisions s = []
          end
          /\ (should_include_node root inv = true ->
              forall k,
                Str.mem k frame_keys = true ->
                float_overflows (getn k root) = true ->
                r = fail 2
                      "error: init failed: int too large to convert to float")
      end
  end.
Proof.
  cbv zeta. unfold cmd_init.
  destruct (select_root_node payload) as [root|msg] eqn:Hroot.
  - pose proof (index_tree_overflow inv mtl root) as Hover.
    destruct (nonempty_str (getn "id" root)) as [rid|] eqn:Hid.
    + split.
      * destruct (index_tree root inv mtl) as [[rid' N]|msg] eqn:Hidx.
        -- assert (rid' = rid).
           { apply index_tree_root in Hidx. destruct Hidx as [H _].
             congruence. }
           subst rid'.
           destruct (bfs_order_total N rid) as [order Hbfs]. rewrite Hbfs.
           destruct (bfs_covers_index _ _ _ _ _ _ Hidx Hbfs) as (_ & _ & Hlen).
           exists (mkState ui rid N order []). rewrite Hlen. repeat split.
        -- destruct Hover as [[H _]|[_ ->]]; [congruence | reflexivity].
      * intros Hinc k Hk Ho.
        assert (Hf : node_facts root mtl = Raise INT_TOO_LARGE).
        { apply str_mem_In in Hk. unfold node_facts. cbv zeta.
          now rewrite (number_entries_raise frame_keys root k Hk Ho). }
        unfold index_tree. rewrite Hid, visit_obj, Hinc, Hid, Hf.
        reflexivity.
    + destruct (index_tree root inv mtl) as [[rid' N]|msg] eqn:Hidx.
      * apply index_tree_root in Hidx. destruct Hidx as [H _]. congruence.
      * destruct Hover as [[_ ->]|[H _]]; [reflexivity | congruence].
  - unfold select_root_node in Hroot. destruct payload; try discriminate;
      try (injection Hroot as <-; split; reflexivity).
    destruct (getn "document" fields); discriminate.
Qed.

(** *** Absorption leaves the rest alone *)

Lemma absorb_node_step ui fields :
  absorb_node ui fields
  = match get_component_base_from_spec (JObj fields) with
    | None => fields
    | Some base =>
        match getn "children" fields with
        | JArr ((_ :: _) as children) =>
            let pr := absorb_step ui base children (get_properties_dict fields) in
            let spec_node := Dict.set "properties" (JObj (fst pr)) fields in
            match snd pr with
            | [] => spec_node
            | _ =>
                Dict.set "children"
                  (JArr (remove_indices 0 (snd pr) children)) spec_node
            end
        | _ => fields
        end
    end.
Proof.
  unfold absorb_node, absorb_step.
  destruct (get_component_base_from_spec (JObj fields)); [|reflexivity].
  destruct (getn "children" fields) as [| | | | |[|c cs]|]; try reflexivity.
  match goal with
  | |- context [let '(_, _) := ?e in _] => destruct e as [props removed]
  end.
  reflexivity.
Qed.

Lemma kept_copy_with_source key val c props k v :
  String.eqb k (key ^^ "From") = false ->
  Dict.get k props = Some v ->
  Dict.get k (copy_with_source key val c props) = Some v.
Proof.
  intros Hk Hget. unfold copy_with_source. destruct val; [|exact Hget].
  destruct (Dict.mem key props) eqn:Hm; [exact Hget|].
  assert (Hne : String.eqb k key = false).
  { destruct (String.eqb_spec k key) as [->|]; [|reflexivity].
    apply get_Some_mem in Hget. congruence. }
  destruct (child_source_id c); rewrite ?get_set, ?Hk, ?Hne; exact Hget.
Qed.

Lemma kept_set_if_absent key val props k v :
  Dict.get k props = Some v ->
  Dict.get k (set_if_absent key val props) = Some v.
Proof.
  intros Hget. rewrite get_set_if_absent.
  destruct (String.eqb_spec k key) as [->|]; [now rewrite Hget | exact Hget].
Qed.

Lemma kept_absorb_into_button uikit lb ib children props k v :
  replaceable k v = false -> Dict.get k props = Some v ->
  Dict.get k (fst (absorb_into_button uikit lb ib children props)) = Some v.
Proof.
  unfold replaceable. intros Hr Hget.
  apply orb_false_iff in Hr. destruct Hr as [Hr _].
  apply orb_false_iff in Hr. destruct Hr as [Ht Hi].
  unfold absorb_into_button.
  destruct (first_index (has_base lb) children);
    destruct (first_index (has_base ib) children);
    destruct uikit; cbn [fst];
    repeat first [ apply kept_set_if_absent
                 | apply kept_copy_with_source; [assumption|] ];
    exact Hget.
Qed.

Lemma kept_absorb_into_image ib children props k v :
  replaceable k v = false -> Dict.get k props = Some v ->
  Dict.get k (fst (absorb_into_image ib children props)) = Some v.
Proof.
  unfold replaceable. intros Hr Hget.
  apply orb_false_iff in Hr. destruct Hr as [Hr Himg].
  apply orb_false_iff in Hr. destruct Hr as [_ Hfrom].
  unfold absorb_into_image.
  destruct (String.eqb_spec k "image") as [->|Hne].
  - unfold getn. rewrite Hget. cbn [andb] in Himg.
    apply negb_false_iff in Himg. destruct v; try discriminate. exact Hget.
  - assert (Hk : String.eqb k "image" = false)
      by (destruct (String.eqb_spec k "image"); congruence).
    destruct (getn "image" props); try exact Hget;
      (match goal with
       | |- context [first_index ?p children] =>
           destruct (first_index p children)
       end; [|exact Hget]; cbn [fst];
       match goal with
       | |- context [child_source_id ?c] => destruct (child_source_id c)
       end; rewrite ?get_set, ?Hk, ?Hfrom; exact Hget).
Qed.

Lemma kept_absorb_step ui base children props k v :
  replaceable k v = false -> Dict.get k props = Some v ->
  Dict.get k (fst (absorb_step ui base children props)) = Some v.
Proof.
  intros Hr Hget. unfold absorb_step.
  repeat match goal with
         | |- context [if ?b then _ else _] => destruct b
         end;
    first [ now apply kept_absorb_into_button
          | now apply kept_absorb_into_image
          | exact Hget ].
Qed.

Lemma properties_after_children ui fields :
  get_properties_dict (Dict.update "children" (absorb_children ui) fields)
  = get_properties_dict fields.
Proof. unfold get_properties_dict. now rewrite getn_update. Qed.

(** X25. Absorption never overwrites what the parent already has: a
    property present on a node before the export is absorbed is there
    afterwards with the same value, for every UI system and component
    base. The only exceptions are the source markers [titleFrom] and
    [imageFrom], and an [image] that is not an object. *)
Theorem absorption_keeps_the_parents_properties (ui : string)
    (fields : dict) (k : string) (v : json) :
  Dict.get k (get_properties_dict fields) = Some v ->
  replaceable k v = false ->
  export_property (absorb_children_in_export_tree ui (JObj fields)) k = Some v.
Proof.
  intros Hget Hr. rewrite absorb_obj. unfold export_property.
  rewrite <- (properties_after_children ui fields) in Hget.
  set (F := Dict.update "children" (absorb_children ui) fields) in *.
  rewrite absorb_node_step.
  destruct (get_component_base_from_spec (JObj F)); [|exact Hget].
  destruct (getn "children" F) as [| | | | |[|c cs]|]; try exact Hget.
  cbv zeta.
  assert (Hp : forall spec,
             get_properties_dict
               (Dict.set "properties"
                  (JObj (fst (absorb_step ui s (c :: cs)
                                (get_properties_dict F)))) spec)
             = fst (absorb_step ui s (c :: cs) (get_properties_dict F))).
  { intros spec. unfold get_properties_dict. now rewrite getn_set. }
  destruct (snd (absorb_step ui s (c :: cs) (get_properties_dict F))).
  - rewrite Hp. now apply kept_absorb_step.
  - unfold get_properties_dict at 1. rewrite getn_set.
    replace (String.eqb "properties" "children") with false by reflexivity.
    fold (get_properties_dict
            (Dict.set "properties"
               (JObj (fst (absorb_step ui s (c :: cs)
                             (get_properties_dict F)))) F)).
    rewrite Hp. now apply kept_absorb_step.
Qed.




(** *** From the hint to the pins parser *)

Lemma all_chars_impl (p q : ascii -> bool) (s : string) :
  (forall c, p c = true -> q c = true) ->
  all_chars p s = true -> all_chars q s = true.
Proof.
  intros Hpq. induction s as [|c s IH]; simpl; [reflexivity|].
  intros H. apply andb_true_iff in H. destruct H as [H1 H2].
  now rewrite (Hpq c H1), IH.
Qed.

Lemma plain_no_space (s : string) : plain s = true -> no_space s = true.
Proof.
  apply all_chars_impl. intros c H. unfold plain_char in H.
  now apply andb_true_iff in H.
Qed.

Lemma strip_no_space (s : string) : no_space s = true -> Str.strip s = s.
Proof.
  unfold no_space, Str.strip. intros H.
  assert (Hl : Str.lstrip s = s).
  { destruct s as [|c s]; [reflexivity|]. simpl in *.
    apply andb_true_iff in H. destruct H as [H _].
    apply negb_true_iff in H. now rewrite H. }
  rewrite Hl. induction s as [|c s IH]; [reflexivity|].
  simpl in H. apply andb_true_iff in H. destruct H as [H1 H2].
  apply negb_true_iff in H1. simpl. rewrite H1. simpl. f_equal. apply IH.
  - exact H2.
  - destruct s as [|c' s]; [reflexivity|]. simpl in *.
    apply andb_true_iff in H2. destruct H2 as [H2 _].
    apply negb_true_iff in H2. now rewrite H2.
Qed.

Lemma split_plain (a : string) : plain a = true -> Str.split ":" a = [a].
Proof.
  unfold plain. induction a as [|c a IH]; [reflexivity|].
  simpl. intros H. apply andb_true_iff in H. destruct H as [H1 H2].
  unfold plain_char in H1. apply andb_true_iff in H1. destruct H1 as [_ H1].
  apply negb_true_iff in H1. now rewrite H1, (IH H2).
Qed.

Lemma split_app_plain (a rest : string) :
  plain a = true ->
  Str.split ":" (a ^^ String ":" rest) = a :: Str.split ":" rest.
Proof.
  unfold plain. induction a as [|c a IH]; [reflexivity|].
  simpl. intros H. apply andb_true_iff in H. destruct H as [H1 H2].
  unfold plain_char in H1. apply andb_true_iff in H1. destruct H1 as [_ H1].
  apply negb_true_iff in H1. now rewrite H1, (IH H2).
Qed.

Lemma split_concat (pins : list string) :
  Forall (fun p => plain p = true) pins -> pins <> [] ->
  Str.split ":" (String.concat ":" pins) = pins.
Proof.
  induction 1 as [|p pins Hp Hall IH]; intros Hne; [contradiction|].
  destruct pins as [|q pins]; [now apply split_plain|].
  change (String.concat ":" (p :: q :: pins))
    with (p ^^ String ":" (String.concat ":" (q :: pins))).
  rewrite split_app_plain by exact Hp. f_equal. apply IH. discriminate.
Qed.

Lemma no_space_concat (pins : list string) :
  Forall (fun p => plain p = true) pins ->
  no_space (String.concat ":" pins) = true.
Proof.
  unfold no_space. induction 1 as [|p pins Hp Hall IH]; [reflexivity|].
  destruct pins as [|q pins]; [now apply plain_no_space|].
  change (String.concat ":" (p :: q :: pins))
    with (p ^^ ":" ^^ String.concat ":" (q :: pins)).
  rewrite !all_chars_app, IH. apply plain_no_space in Hp.
  unfold no_space in Hp. now rewrite Hp.
Qed.

Lemma uint_plain (d : Decimal.uint) :
  plain (NilEmpty.string_of_uint d) = true.
Proof. induction d; simpl; auto. Qed.

Lemma of_Z_plain (z : Z) : plain (Str.of_Z z) = true.
Proof.
  assert (Hu : forall d, plain (NilZero.string_of_uint d) = true).
  { intros d. unfold NilZero.string_of_uint.
    destruct d; try reflexivity; apply uint_plain. }
  unfold Str.of_Z, NilZero.string_of_int.
  destruct (Z.to_int z) as [d|d]; [apply Hu|].
  unfold plain. cbn [all_chars]. apply Hu.
Qed.

Lemma key_facts (key text : string) :
  Str.mem key PINS_ALLOWED_KEYS = true ->
  Str.split1 "=" (key ^^ "=" ^^ text) = Some (key, text)
  /\ Str.upper (Str.strip key) = key
  /\ plain key = true
  /\ Str.is_empty (key ^^ "=" ^^ text) = false.
Proof.
  intros H. apply str_mem_In in H.
  repeat (destruct H as [<-|H]; [repeat split|]); destruct H.
Qed.

Lemma readable_pin_plain (part : string) :
  readable_pin part -> plain part = true /\ Str.is_empty part = false.
Proof.
  intros (key & text & val & -> & Hk & Ht & _).
  destruct (key_facts key text Hk) as (_ & _ & Hp & He).
  split; [|exact He]. unfold plain in *. now rewrite !all_chars_app, Hp, Ht.
Qed.

Lemma parse_readable_pin (part : string) :
  readable_pin part ->
  exists key val, parse_pin_part part = inl (key, val).
Proof.
  intros (key & text & val & -> & Hk & Ht & Hf).
  destruct (key_facts key text Hk) as (Hs & Hu & _ & _).
  exists key, val. unfold parse_pin_part. rewrite Hs, Hu, Hk.
  rewrite (strip_no_space text (plain_no_space text Ht)), Hf. reflexivity.
Qed.

Lemma parse_readable_pins (pins : list string) :
  Forall readable_pin pins ->
  forall out errs,
    exists out',
      parse_pin_parts pins out errs = (out', errs)
      /\ (List.length out <> 0 \/ List.length pins <> 0 ->
          List.length out' <> 0).
Proof.
  induction 1 as [|p pins Hp Hall IH]; intros out errs.
  - exists out. split; [reflexivity|]. intros [H|H]; [exact H | now destruct H].
  - destruct (readable_pin_plain p Hp) as [Hpl He].
    destruct (parse_readable_pin p Hp) as (key & val & Hparse).
    cbn [parse_pin_parts].
    rewrite (strip_no_space p (plain_no_space p Hpl)), He, Hparse.
    destruct (IH (Dict.set key val out) errs) as (out' & Hout & Hne).
    exists out'. split; [exact Hout|]. intros _. apply Hne. left.
    destruct out as [|[k v] out]; simpl; [discriminate|].
    now destruct (String.eqb key k).
Qed.

Lemma axis_pins_readable pins mode lead trail mid off size extent :
  (forall v, plain (pin_text v) = true) ->
  (forall v, exists f, py_parse_float (pin_text v) = Some f) ->
  Str.mem lead PINS_ALLOWED_KEYS = true ->
  Str.mem trail PINS_ALLOWED_KEYS = true ->
  Str.mem mid PINS_ALLOWED_KEYS = true ->
  Forall readable_pin pins ->
  Forall readable_pin (axis_pins pins mode lead trail mid off size extent).
Proof.
  intros Hplain Hparse Hl Ht Hm Hpins.
  assert (Hpin : forall key v,
             Str.mem key PINS_ALLOWED_KEYS = true ->
             readable_pin (pin_of key v)).
  { intros key v Hk. destruct (Hparse v) as [f Hf].
    exists key, (pin_text v), f. split; [|auto].
    unfold pin_of, pin_text. now destruct (Flt.to_Z v). }
  unfold axis_pins. rewrite !add_pin_eq.
  repeat match goal with
         | |- context [if ?b then _ else _] => destruct b
         end;
    repeat (apply Forall_app; split);
    try assumption; repeat constructor; auto.
Qed.

Lemma collect_pins_readable layout constraints x y w h pw ph :
  (forall v, plain (pin_text v) = true) ->
  (forall v, exists f, py_parse_float (pin_text v) = Some f) ->
  Forall readable_pin (collect_pins layout constraints x y w h pw ph).
Proof.
  intros Hplain Hparse.
  assert (Hpin : forall key v,
             Str.mem key PINS_ALLOWED_KEYS = true ->
             readable_pin (pin_of key v)).
  { intros key v Hk. destruct (Hparse v) as [f Hf].
    exists key, (pin_text v), f. split; [|auto].
    unfold pin_of, pin_text. now destruct (Flt.to_Z v). }
  unfold collect_pins. rewrite !add_pin_eq.
  repeat match goal with
         | |- context [if ?b then _ else _] => destruct b
         end;
    repeat (apply Forall_app; split);
    try (apply axis_pins_readable; auto; apply axis_pins_readable; auto);
    repeat constructor; auto.
Qed.

Lemma hint_pins (N : node_map) nid parent_id hint :
  compute_constraint_hints N nid parent_id = Some hint ->
  exists layout constraints x y w h pw ph,
    List.length (collect_pins layout constraints x y w h pw ph) <> 0
    /\ hint = "pins=" ^^
              String.concat ":"
                (uniq_pins (collect_pins layout constraints x y w h pw ph) []).
Proof.
  unfold compute_constraint_hints.
  destruct parent_id as [pid|]; [|discriminate].
  destruct (Str.is_empty pid); [discriminate|].
  destruct (Dict.get nid N) as [n|]; [|discriminate].
  destruct (Dict.get pid N) as [p|]; [|discriminate].
  destruct (get_or "layout" (JObj []) (NodeRecord.facts n))
    as [| | | | | |layout]; try discriminate.
  destruct (get_or "frame" (JObj []) (NodeRecord.facts n))
    as [| | | | | |frame]; try discriminate.
  destruct (get_or "frame" (JObj []) (NodeRecord.facts p))
    as [| | | | | |pframe]; try discriminate.
  destruct (driven_by_parent _ layout); [discriminate|].
  destruct (getn "constraints" layout) as [| | | | | |constraints];
    try discriminate.
  match goal with
  | |- context [if ?b then _ else _] => destruct b
  end; [|discriminate].
  match goal with
  | |- context [match ?c with [] => _ | _ => _ end] => destruct c eqn:Hpins
  end; [discriminate|].
  intros [= <-]. do 8 eexists. rewrite Hpins. split; [discriminate|].
  reflexivity.
Qed.

Lemma prefix_of_append (a b : string) : String.prefix a (a ^^ b) = true.
Proof.
  induction a as [|c a IH]; simpl; [now destruct b|].
  destruct (ascii_dec c c); [exact IH | contradiction].
Qed.

Lemma drop_of_append (a b : string) : Str.drop (String.length a) (a ^^ b) = b.
Proof. induction a as [|c a IH]; simpl; [now destruct b | exact IH]. Qed.

(** X27. The hint the tool offers is one its validator accepts. Under
    the two facts about the interpreter that [repr] of a float holds no
    white space and no colon, and that [float] reads back the decimal text
    of an integer and the [repr] of a float, every [pinsCandidate] that
    [compute_constraint_hints] produces is parsed by [parse_pins] into
    a mapping, without an error; a layout of kind [pins] that carries
    the hint as its [pins] passes the layout checks with no finding. *)
Theorem pins_hint_passes_the_pins_check (N : node_map) (nid : string)
    (parent_id : option string) (hint : string) :
  (forall v, plain (py_repr (JFloat v)) = true) ->
  (forall z, exists f, py_parse_float (Str.of_Z z) = Some f) ->
  (forall v, exists f, py_parse_float (py_repr (JFloat v)) = Some f) ->
  compute_constraint_hints N nid parent_id = Some hint ->
  (exists out, parse_pins (JStr hint) = (Some out, []))
  /\ forall node_id layout f,
      getn "kind" layout = JStr "pins" -> getn "pins" layout = JStr hint ->
      check_layout node_id layout f = f.
Proof.
  intros Hrepr Hint Hfloat Hhint.
  assert (Hplain : forall v, plain (pin_text v) = true).
  { intros v. unfold pin_text.
    destruct (Flt.to_Z v); [apply of_Z_plain | apply Hrepr]. }
  assert (Hparse : forall v, exists f, py_parse_float (pin_text v) = Some f).
  { intros v. unfold pin_text.
    destruct (Flt.to_Z v); [apply Hint | apply Hfloat]. }
  apply hint_pins in Hhint.
  destruct Hhint as (layout & constraints & x & y & w & h & pw & ph & Hne & ->).
  destruct (collect_pins_facts layout constraints x y w h pw ph)
    as (_ & _ & _ & Huniq).
  rewrite Huniq.
  pose proof (collect_pins_readable layout constraints x y w h pw ph
                Hplain Hparse) as Hread.
  set (pins := collect_pins layout constraints x y w h pw ph) in *.
  assert (Hpl : Forall (fun p => plain p = true) pins).
  { eapply Forall_impl; [|exact Hread].
    intros p Hp. now apply readable_pin_plain in Hp. }
  assert (Hbody : no_space (String.concat ":" pins) = true)
    by now apply no_space_concat.
  assert (Hpins : exists out,
             parse_pins (JStr ("pins=" ^^ String.concat ":" pins))
             = (Some out, [])).
  { unfold parse_pins, stripped_str.
    assert (Hs : Str.strip ("pins=" ^^ String.concat ":" pins)
                 = "pins=" ^^ String.concat ":" pins).
    { apply strip_no_space. unfold no_space in *.
      now rewrite all_chars_app, Hbody. }
    rewrite Hs.
    replace (Str.is_empty ("pins=" ^^ String.concat ":" pins)) with false
      by reflexivity.
    unfold Str.startswith.
    rewrite prefix_of_append. cbn [negb].
    change 5 with (String.length "pins=").
    rewrite drop_of_append, (strip_no_space _ Hbody).
    assert (He : Str.is_empty (String.concat ":" pins) = false).
    { destruct pins as [|p pins']; [now destruct Hne|].
      inversion Hread as [|? ? Hp _]; subst.
      apply readable_pin_plain in Hp. destruct Hp as [_ Hp].
      destruct pins'; simpl; [exact Hp|].
      destruct p; [discriminate | reflexivity]. }
    rewrite He, split_concat; [|exact Hpl | intros ->; now destruct Hne].
    destruct (parse_readable_pins pins Hread [] []) as (out & -> & Hout).
    destruct out as [|kv out]; [exfalso; apply Hout; auto|].
    eexists. reflexivity. }
  split; [exact Hpins|].
  intros node_id lay f Hkind Hp. destruct Hpins as [out Hout].
  unfold check_layout. rewrite Hkind, Hp, Hout. reflexivity.
Qed.

(** *** The order goes level by level *)

Section LevelOrder.
Variable N : node_map.
Hypothesis Hlev : levelled N.

Lemma depth_sorted_snoc order x d :
  depth_sorted N order -> (forall y, In y order -> depth_of N y <= d) ->
  depth_of N x = d -> depth_sorted N (order ++ [x]).
Proof.
  intros Hs Hle Hx l1 a l2 b Heq Hb. apply snoc_split in Heq.
  destruct Heq as [(_ & _ & ->)|(l2' & -> & Heq)]; [destruct Hb|].
  apply in_app_or in Hb. destruct Hb as [Hb|[<-|[]]].
  - eapply Hs; eauto.
  - rewrite Hx. apply Hle. rewrite Heq. apply in_or_app. right. now left.
Qed.

Lemma level_inv_step nid q order :
  level_inv N (nid :: q) order ->
  level_inv N q order
  /\ forall rec,
      Dict.get nid N = Some rec ->
      level_inv N (q ++ NodeRecord.child_ids rec) (order ++ [nid]).
Proof using Hlev.
  intros (d & qa & qb & Hq & Hord & Hqa & Hqb & Hs).
  assert (Hnorm : exists d' qa' qb',
             q = qa' ++ qb'
             /\ (forall x, In x order -> depth_of N x <= d')
             /\ depth_of N nid = d'
             /\ (forall x, In x qa' -> depth_of N x = d')
             /\ (forall x, In x qb' -> depth_of N x = S d')).
  { destruct qa as [|a qa'].
    - simpl in Hq. subst qb. exists (S d), q, []. rewrite app_nil_r.
      split; [reflexivity|]. split; [intros x Hx; specialize (Hord x Hx); lia|].
      split; [apply Hqb; now left|].
      split; [intros x Hx; apply Hqb; now right | intros x []].
    - injection Hq as <- ->. exists d, qa', qb.
      split; [reflexivity|]. split; [exact Hord|].
      split; [apply Hqa; now left|].
      split; [intros x Hx; apply Hqa; now right | exact Hqb]. }
  destruct Hnorm as (d' & qa' & qb' & -> & Hord' & Hnid & Hqa' & Hqb').
  split.
  - exists d', qa', qb'. repeat split; auto.
  - intros rec Hrec. exists d', qa', (qb' ++ NodeRecord.child_ids rec).
    split; [now rewrite app_assoc|]. split; [|split; [exact Hqa'|split]].
    + intros x Hx. apply in_app_or in Hx.
      destruct Hx as [Hx|[<-|[]]]; [now apply Hord' | lia].
    + intros x Hx. apply in_app_or in Hx. destruct Hx as [Hx|Hx].
      * now apply Hqb'.
      * rewrite (Hlev nid rec x Hrec Hx). now rewrite Hnid.
    + eapply depth_sorted_snoc; eauto.
Qed.

Lemma bfs_loop_levels :
  forall fuel q seen order res,
    bfs_loop fuel N q seen order = Some res ->
    level_inv N q order -> depth_sorted N res.
Proof using Hlev.
  induction fuel as [|fuel IH]; intros q seen order res;
    destruct q as [|nid q]; simpl; try discriminate.
  - intros [= <-] (d & qa & qb & _ & _ & _ & _ & Hs). exact Hs.
  - intros [= <-] (d & qa & qb & _ & _ & _ & _ & Hs). exact Hs.
  - intros Hr Hi. destruct (level_inv_step nid q order Hi) as [Hskip Hexp].
    destruct (Str.mem nid seen); [eapply IH; eauto|].
    destruct (Dict.get nid N) as [rec|] eqn:Hn; eapply IH; eauto.
Qed.

Lemma bfs_order_levels rid order :
  bfs_order N rid = Some order -> depth_sorted N order.
Proof using Hlev.
  intros H. eapply bfs_loop_levels; [exact H|].
  exists (depth_of N rid), [rid], []. split; [reflexivity|].
  split; [intros x []|]. split; [intros x [<-|[]]; reflexivity|].
  split; [intros x []|]. intros l1 a l2 b Heq. now destruct l1.
Qed.
End LevelOrder.

Lemma unique_ids_levelled (root : dict) (inv : bool) (mtl : Z) (rid : string)
    (N : node_map) :
  index_tree root inv mtl = Ok (rid, N) ->
  NoDup (tree_ids inv (JObj root)) -> levelled N.
Proof.
  intros Hidx Hnd.
  destruct (index_tree_ok inv mtl _ _ _ Hidx) as (_ & [_ Hpar] & HN).
  rewrite visit_map_fresh in HN by (auto; intros; reflexivity).
  cbn [app] in HN.
  assert (Hkeys : NoDup (Dict.keys N))
    by (rewrite HN, keys_tree_records; exact Hnd).
  intros p rp c Hp Hc. pose proof (get_In _ _ _ Hp) as Hin.
  rewrite HN in Hin.
  destruct (records_children inv mtl _ _ _ _ _ _ Hin Hc) as (rc & Hrc & Hpc).
  rewrite <- HN in Hrc. apply In_get in Hrc; [|exact Hkeys].
  destruct (Hpar c rc p Hrc Hpc) as (rp' & Hrp' & Hd).
  unfold depth_of. rewrite Hrc, Hp. congruence.
Qed.

(** X28. On a tree without repeated ids the order is level by level:
    of two ids in the breadth-first order, the one that comes first has a
    record that is no deeper than the other's, so every node of a depth
    is presented before any node of a greater depth. *)
Theorem bfs_order_goes_level_by_level (root : dict) (inv : bool) (mtl : Z)
    (rid : string) (N : node_map) (order : list string) :
  index_tree root inv mtl = Ok (rid, N) ->
  bfs_order N rid = Some order ->
  NoDup (tree_ids inv (JObj root)) ->
  forall a b ra rb,
    strictly_before a b order ->
    Dict.get a N = Some ra -> Dict.get b N = Some rb ->
    NodeRecord.depth ra <= NodeRecord.depth rb.
Proof.
  intros Hidx Hbfs Hnd a b ra rb (l1 & l2 & l3 & Heq) Ha Hb.
  pose proof (bfs_order_levels N (unique_ids_levelled _ _ _ _ _ Hidx Hnd)
                rid order Hbfs) as Hs.
  specialize (Hs l1 a (l2 ++ b :: l3) b Heq).
  unfold depth_of in Hs. rewrite Ha, Hb in Hs. apply Hs.
  apply in_or_app. right. now left.
Qed.

(** *** Records and the nodes they come from *)

Section RecordSources.
Variables (inv : bool) (mtl : Z).

Lemma tree_nodes_obj fields :
  tree_nodes inv (JObj fields)
  = if negb (should_include_node fields inv) then []
    else match nonempty_str (getn "id" fields) with
         | None => []
         | Some node_id =>
             (node_id, fields) :: flat_map (tree_nodes inv) (children_of fields)
         end.
Proof.
  cbn [tree_nodes]. unfold children_of.
  destruct (negb (should_include_node fields inv)); [reflexivity|].
  destruct (nonempty_str (getn "id" fields)); [|reflexivity].
  rewrite with_field_get.
  destruct (Dict.get "children" fields) as [[]|]; reflexivity.
Qed.

Lemma tree_nodes_included :
  forall node x fields,
    In (x, fields) (tree_nodes inv node) ->
    should_include_node fields inv = true
    /\ nonempty_str (getn "id" fields) = Some x.
Proof.
  induction node as [node IH] using node_tree_ind. intros x fields.
  destruct node as [| | | | | |nf]; try contradiction.
  rewrite tree_nodes_obj.
  destruct (should_include_node nf inv) eqn:Hinc; [|contradiction].
  cbn [negb].
  destruct (nonempty_str (getn "id" nf)) as [nid|] eqn:Hid; [|contradiction].
  intros [[= <- <-]|Hin]; [auto|].
  apply in_flat_map in Hin. destruct Hin as (c & Hc & Hin).
  destruct (child_in_tree nf c Hc) as (items & Hch & Hci).
  exact (IH nf items c eq_refl Hch Hci x fields Hin).
Qed.

(** Whatever [visit] adds is the record of a node of the tree it
    walks. *)
Lemma visit_map_from_tree :
  forall node pid d N x r,
    Dict.get x (visit_map inv mtl node pid d N) = Some r ->
    Dict.get x N = Some r
    \/ exists fields pid' d',
        In (x, fields) (tree_nodes inv node)
        /\ r = node_record inv mtl fields x pid' d'.
Proof.
  induction node as [node IH] using node_tree_ind. intros pid d N x r.
  destruct node as [| | | | | |nf]; try (now left).
  rewrite visit_map_obj, tree_nodes_obj.
  destruct (negb (should_include_node nf inv)); [now left|].
  destruct (nonempty_str (getn "id" nf)) as [nid|]; [|now left].
  destruct (Dict.mem nid N); [now left|].
  assert (Hloop : forall cs M,
             (forall c, In c cs -> In c (children_of nf)) ->
             Dict.get x (visit_map_children inv mtl nid d cs M) = Some r ->
             Dict.get x M = Some r
             \/ exists fields pid' d',
                 In (x, fields) (flat_map (tree_nodes inv) cs)
                 /\ r = node_record inv mtl fields x pid' d').
  { induction cs as [|c cs IHcs]; intros M Hsub Hget; simpl in *; [now left|].
    destruct (IHcs _ (fun c' Hc' => Hsub c' (or_intror Hc')) Hget)
      as [H|(fields & pid' & d' & Hin & Hr)].
    - assert (Hc : In c (children_of nf)) by (apply Hsub; now left).
      destruct (child_in_tree nf c Hc) as (items & Hch & Hci).
      destruct (IH nf items c eq_refl Hch Hci _ _ _ _ _ H)
        as [H'|(fields & pid' & d' & Hin & Hr)]; [now left|].
      right. exists fields, pid', d'. split; [|exact Hr].
      apply in_or_app. now left.
    - right. exists fields, pid', d'. split; [|exact Hr].
      apply in_or_app. now right. }
  intros Hget. destruct (Hloop _ _ (fun c Hc => Hc) Hget)
    as [H|(fields & pid' & d' & Hin & Hr)].
  - rewrite get_set in H. destruct (String.eqb_spec x nid) as [->|_].
    + injection H as <-. right. exists nf, pid, d. split; [now left|].
      reflexivity.
    + now left.
  - right. exists fields, pid', d'. split; [now right | exact Hr].
Qed.

Lemma tree_nodes_records :
  forall node pid d x fields,
    In (x, fields) (tree_nodes inv node) ->
    exists pid' d',
      In (x, node_record inv mtl fields x pid' d')
         (tree_records inv mtl node pid d).
Proof.
  induction node as [node IH] using node_tree_ind. intros pid d x fields.
  destruct node as [| | | | | |nf]; try contradiction.
  rewrite tree_nodes_obj, tree_records_obj.
  destruct (negb (should_include_node nf inv)); [contradiction|].
  destruct (nonempty_str (getn "id" nf)) as [nid|]; [|contradiction].
  intros [[= <- <-]|Hin]; [exists pid, d; now left|].
  apply in_flat_map in Hin. destruct Hin as (c & Hc & Hin).
  destruct (child_in_tree nf c Hc) as (items & Hch & Hci).
  destruct (IH nf items c eq_refl Hch Hci (Some nid) (S d) x fields Hin)
    as (pid' & d' & Hrec).
  exists pid', d'. right. apply in_flat_map. eauto.
Qed.
End RecordSources.

Lemma index_records_sources (root : dict) (inv : bool) (mtl : Z)
    (rid : string) (N : node_map) :
  index_tree root inv mtl = Ok (rid, N) ->
  (forall x r,
      Dict.get x N = Some r ->
      exists fields,
        In (x, fields) (tree_nodes inv (JObj root))
        /\ should_include_node fields inv = true
        /\ record_of inv mtl fields r)
  /\ (NoDup (tree_ids inv (JObj root)) ->
      forall x fields,
        In (x, fields) (tree_nodes inv (JObj root)) ->
        exists r, Dict.get x N = Some r /\ record_of inv mtl fields r).
Proof.
  intros Hidx.
  pose proof (index_tree_extracted inv mtl _ _ _ Hidx) as Hext.
  destruct (index_tree_ok inv mtl _ _ _ Hidx) as (_ & _ & HN). split.
  - intros x r Hx. pose proof (Hext x r Hx) as He. rewrite HN in Hx.
    apply visit_map_from_tree in Hx.
    destruct Hx as [Hx|(fields & pid' & d' & Hin & ->)]; [discriminate|].
    exists fields. split; [exact Hin|].
    split; [exact (proj1 (tree_nodes_included inv _ x fields Hin))|].
    repeat split. now apply facts_of_extracted.
  - intros Hnd x fields Hin.
    rewrite visit_map_fresh in HN by (auto; intros; reflexivity).
    cbn [app] in HN.
    assert (Hkeys : NoDup (Dict.keys N))
      by (rewrite HN, keys_tree_records; exact Hnd).
    destruct (tree_nodes_records inv mtl _ None 0 _ _ Hin) as (pid' & d' & Hrec).
    rewrite <- HN in Hrec. apply In_get in Hrec; [|exact Hkeys].
    pose proof (Hext _ _ Hrec) as He.
    eexists. split; [exact Hrec|]. repeat split.
    now apply facts_of_extracted.
Qed.

(** In the states of a workflow every frame value is a float, as
    [node_facts] stored it: [float] is the identity on what the hints
    read, and raises nothing there. *)
Lemma workflow_frames_are_floats (s : State) (x k : string)
    (r : NodeRecord.t) (v : json) :
  reachable s ->
  Dict.get x (nodes s) = Some r ->
  Dict.get k (stored_frame (NodeRecord.facts r)) = Some v ->
  exists f, v = JFloat f /\ checked_float v = Ok f /\ py_float v = f.
Proof.
  intros Hr Hx Hk.
  destruct (reachable_index s Hr) as (root & inv & mtl & Hidx & _).
  destruct (index_records_sources _ _ _ _ _ Hidx) as [H _].
  destruct (H x r Hx) as (fields & _ & _ & _ & _ & _ & Hfacts).
  apply facts_frame, number_entries_ok in Hfacts.
  destruct Hfacts as [Heq _]. rewrite Heq in Hk.
  assert (Hin : In (k, v)
                  (flat_map
                     (fun k0 =>
                        if is_number (getn k0 fields)
                        then [(k0, JFloat (py_float (getn k0 fields)))]
                        else [])
                     frame_keys)) by (eapply get_In; eauto).
  apply in_flat_map in Hin. destruct Hin as (k0 & _ & Hin).
  destruct (is_number (getn k0 fields)); [|contradiction].
  destruct Hin as [[= _ <-]|[]]. eexists. repeat split.
Qed.

(** X29. The index is faithful to the document. Every record is made
    from a node of the tree that carries the record's id: its name, its
    type, its [childIds] and its facts are those computed from that node.
    When no id repeats, every node the traversal reaches has its own
    record, so the facts [cmd_facts] prints for an id are the facts of
    the node with that id. *)
Theorem records_come_from_their_nodes (root : dict) (inv : bool) (mtl : Z)
    (rid : string) (N : node_map) :
  index_tree root inv mtl = Ok (rid, N) ->
  (forall x r,
      Dict.get x N = Some r ->
      exists fields,
        In (x, fields) (tree_nodes inv (JObj root))
        /\ record_of inv mtl fields r)
  /\ (NoDup (tree_ids inv (JObj root)) ->
      forall x fields s,
        In (x, fields) (tree_nodes inv (JObj root)) -> nodes s = N ->
        exists facts,
          node_facts fields mtl = Ok facts
          /\ cmd_facts s x
             = mkRun 0 []
                 (Some (JObj [("nodeId", JStr x); ("facts", JObj facts)]))
                 None).
Proof.
  intros Hidx. destruct (index_records_sources _ _ _ _ _ Hidx) as [H1 H2].
  split.
  - intros x r Hx. destruct (H1 x r Hx) as (fields & Hin & _ & Hrec). eauto.
  - intros Hnd x fields s Hin HN.
    destruct (H2 Hnd x fields Hin) as (r & Hr & _ & _ & _ & Hfacts).
    exists (NodeRecord.facts r). split; [exact Hfacts|].
    unfold cmd_facts. now rewrite HN, Hr.
Qed.

(** X30. Hidden nodes are never indexed. Without [--include-invisible]
    every record of the node map comes from a node of the tree that is
    not hidden and sits below nodes that are not hidden either, so the
    facts of every record say [visible: true]. *)
Theorem hidden_nodes_have_no_record (root : dict) (mtl : Z) (rid : string)
    (N : node_map) :
  index_tree root false mtl = Ok (rid, N) ->
  forall x r,
    Dict.get x N = Some r ->
    Dict.get "visible" (NodeRecord.facts r) = Some (JBool true)
    /\ exists fields,
        In (x, fields) (tree_nodes false (JObj root))
        /\ truthy (get_or "visible" (JBool true) fields) = true.
Proof.
  intros Hidx x r Hx.
  destruct (index_records_sources _ _ _ _ _ Hidx) as [H1 _].
  destruct (H1 x r Hx) as (fields & Hin & Hinc & _ & _ & _ & Hfacts).
  unfold should_include_node in Hinc. split; [|eauto].
  apply node_facts_ok in Hfacts.
  destruct Hfacts as (frame & style & text & image & _ & _ & ->).
  cbn [app Dict.get String.eqb Ascii.eqb Bool.eqb]. now rewrite Hinc.
Qed.

End Tool.

(** ** Worked inputs *)

(** A stand-in for Python's [repr]. The inputs below hold no value it
    would be asked to render, except where a statement says so. *)
Definition no_repr : json -> string := fun _ => EmptyString.

Definition frame_node (id : string) (children : list json) : json :=
  JObj [("id", JStr id); ("name", JStr id); ("type", JStr "FRAME");
        ("children", JArr children)].

Definition fields_of (j : json) : dict :=
  match j with JObj d => d | _ => [] end.

(** A root [r] with the children [x] (which has the child [y]) and [z]. *)
Definition small_tree : json :=
  frame_node "r" [frame_node "x" [frame_node "y" []]; frame_node "z" []].

(** The id [a] occurs twice: three levels down, below [y], and as the
    second child of the root. *)
Definition duplicate_id_tree : json :=
  frame_node "r"
    [frame_node "x" [frame_node "y" [frame_node "a" []]]; frame_node "a" []].

(** The state [cmd_init] saves for [small_tree]. *)
Definition small_state : State :=
  mkState "UIKit" "r" (returned [] (visit no_repr false 200 small_tree None 0 []))
    ["r"; "x"; "z"; "y"] [].

Definition with_decisions (s : State) (d : dict) : State :=
  mkState (uiSystem s) (rootId s) (nodes s) (bfs s) d.

Definition decision (base : string) : dict :=
  [("component", JObj [("base", JStr base)])].

Lemma small_state_reachable : reachable no_repr small_state.
Proof.
  apply (reach_init no_repr small_tree "UIKit" "state.json" false 200).
  unfold init_saves. vm_compute. reflexivity.
Qed.

Lemma C1_witness :
  reachable no_repr small_state
  /\ first_without_entry small_state "r"
  /\ _next_node_id
       (fold_left decide_next
          [decision "UIView"; decision "UIStackView"; decision "UILabel";
           decision "UIButton"]
          small_state)
     = None.
Proof.
  destruct (C1_cursor_progress no_repr small_state small_state_reachable)
    as (H1 & _ & _ & _ & _ & H6).
  split; [exact small_state_reachable|].
  split; [apply H1; reflexivity | apply H6; reflexivity].
Defined.

Lemma C2_witness :
  NoDup (tree_ids false small_tree)
  /\ parents_shallower (nodes small_state)
  /\ parents_first (nodes small_state) (bfs small_state).
Proof.
  assert (Hnd : NoDup (tree_ids false small_tree)).
  { vm_compute. repeat (constructor; [simpl; intuition discriminate|]).
    constructor. }
  destruct (C2_parents_first no_repr (fields_of small_tree) false 200 "r"
              (nodes small_state) (bfs small_state)) as [H1 H2];
    [vm_compute; reflexivity | vm_compute; reflexivity |].
  split; [exact Hnd|]. split; [exact H1 | apply H2; exact Hnd].
Defined.

(** [duplicate_id_tree] is indexed with [a] under [y], at depth 3, and
    listed by the root as well; the breadth-first order reaches [a] from the
    root, before [y]. *)
Lemma C2_counterexample :
  tree_ids false duplicate_id_tree = ["r"; "x"; "y"; "a"; "a"]
  /\ forall py_repr,
      exists N,
        index_tree py_repr (fields_of duplicate_id_tree) false 200 = Ok ("r", N)
        /\ bfs_order N "r" = Some ["r"; "x"; "a"; "y"]
        /\ (exists ra, Dict.get "a" N = Some ra
                       /\ NodeRecord.parent_id ra = Some "y")
        /\ ~ parents_first N ["r"; "x"; "a"; "y"].
Proof.
  split; [reflexivity|]. intros py_repr. eexists.
  split; [vm_compute; reflexivity|].
  split; [vm_compute; reflexivity|].
  split; [eexists; split; vm_compute; reflexivity|].
  intros H.
  destruct (H "a" (NodeRecord.mk "a" "a" "FRAME" (Some "y") 3 []
                     [("nameTokens", JArr [JStr "a"]); ("visible", JBool true);
                      ("locked", JBool false)]) "y")
    as (l1 & l2 & l3 & Heq); [vm_compute; reflexivity | reflexivity |].
  destruct l1 as [|a1 l1]; simpl in Heq; [discriminate|]. injection Heq as _ Heq.
  destruct l1 as [|a2 l1]; simpl in Heq; [discriminate|]. injection Heq as _ Heq.
  destruct l1 as [|a3 l1]; simpl in Heq; [discriminate|]. injection Heq as _ Heq.
  destruct l1 as [|a4 l1]; simpl in Heq.
  - injection Heq as Heq. destruct l2; discriminate.
  - injection Heq as _ Heq. destruct l1; discriminate.
Qed.

(** Two patches on [small_state]: the first decides [x]; the second
    decides [x] again and [z]. *)
Definition first_patch : json :=
  JObj (("id", JStr "x") :: decision "UIView").

Definition second_patch : json :=
  JArr [JObj (("id", JStr "x") :: decision "UILabel");
        JObj (("id", JStr "z") :: decision "UIButton")].

Lemma C3_witness :
  apply_saves small_state first_patch
    (with_decisions small_state [("x", JObj (decision "UIView"))])
  /\ apply_saves (with_decisions small_state [("x", JObj (decision "UIView"))])
       second_patch
       (with_decisions small_state
          [("x", JObj (decision "UILabel")); ("z", JObj (decision "UIButton"))])
  /\ exists d,
      In ("x", d)
         [("x", JObj (decision "UILabel")); ("z", JObj (decision "UIButton"))]
      /\ patch_entry (nodes small_state)
           [("x", JObj (decision "UILabel")); ("z", JObj (decision "UIButton"))]
           "x" = Some d
      /\ Dict.get "x"
           (decisions
              (with_decisions small_state
                 [("x", JObj (decision "UILabel"));
                  ("z", JObj (decision "UIButton"))]))
         = Some d.
Proof.
  assert (H1 : apply_saves small_state first_patch
                 (with_decisions small_state [("x", JObj (decision "UIView"))]))
    by (vm_compute; reflexivity).
  assert (H2 : apply_saves
                 (with_decisions small_state [("x", JObj (decision "UIView"))])
                 second_patch
                 (with_decisions small_state
                    [("x", JObj (decision "UILabel"));
                     ("z", JObj (decision "UIButton"))]))
    by (vm_compute; reflexivity).
  split; [exact H1|]. split; [exact H2|].
  destruct (C3_patches_merge small_state _ _ first_patch second_patch
              [("x", JObj (decision "UIView"))]
              [("x", JObj (decision "UILabel")); ("z", JObj (decision "UIButton"))]
              eq_refl eq_refl H1 H2) as (_ & Hsame & _).
  apply Hsame. vm_compute. now left.
Defined.









(** A record with the given facts, and nothing else of interest. *)
Definition record_with (id : string) (parent : option string) (facts : dict)
    : string * NodeRecord.t :=
  (id, NodeRecord.mk id id "FRAME" parent 0 [] facts).

Definition number_frame (entries : list (string * Z)) : json :=
  JObj (List.map (fun e => (fst e, JFloat (Flt.of_Z (snd e)))) entries).

(** A child at x = 20, y = 10, 100 wide and 40 high, pinned to the right
    and to the top of a parent 300 wide and 200 high. The parent's frame
    facts hold its two sizes and no position. *)
Definition pinned_child : node_map :=
  [ record_with "p" None
      [("frame", number_frame [("width", 300); ("height", 200)])];
    record_with "c" (Some "p")
      [("frame",
        number_frame [("x", 20); ("y", 10); ("width", 100); ("height", 40)]);
       ("layout",
        JObj [("constraints",
               JObj [("horizontal", JStr "MAX"); ("vertical", JStr "MIN")])])]
  ]%Z.

(** The same child without a constraints object. *)
Definition unconstrained_child : node_map :=
  [ record_with "p" None
      [("frame", number_frame [("width", 300); ("height", 200)])];
    record_with "c" (Some "p")
      [("frame",
        number_frame [("x", 20); ("y", 10); ("width", 100); ("height", 40)])]
  ]%Z.

Lemma C5_witness :
  exists rest,
    compute_constraint_hints no_repr pinned_child "c" (Some "p")
    = Some ("pins=R=-180" ^^ rest).
Proof.
  destruct (C5_trailing_pin no_repr pinned_child "c" "p")
    as [Hpin Hmade]; try (vm_compute; reflexivity).
  destruct Hmade as [hint Hh]; try (vm_compute; reflexivity).
  { left. vm_compute. reflexivity. }
  destruct (Hpin hint Hh) as (rest & -> & _). exists rest. exact Hh.
Defined.

Lemma C6_witness :
  pins_conditions no_repr unconstrained_child "c" (Some "p") = false
  /\ compute_constraint_hints no_repr unconstrained_child "c" (Some "p") = None.
Proof.
  split; [vm_compute; reflexivity|].
  apply C6_pins_hint_conditions. vm_compute. reflexivity.
Defined.

(** The parent of [pinned_child] has no x and no y, and the hint is
    produced all the same. *)
Lemma C6_counterexample :
  (forall py_repr,
      compute_constraint_hints py_repr pinned_child "c" (Some "p")
      = Some "pins=R=-180:T=10:W=100:H=40")
  /\ complete_frame pinned_child "p" = false
  /\ (forall py_repr,
         pins_conditions_complete_parent py_repr pinned_child "c" (Some "p")
         = false).
Proof.
  split; [intros py_repr; vm_compute; reflexivity|].
  split; [|intros py_repr]; vm_compute; reflexivity.
Qed.

(** Indexing [duplicate_id_tree] prints nothing on stderr. *)
Lemma C7_counterexample :
  tree_ids false duplicate_id_tree = ["r"; "x"; "y"; "a"; "a"]
  /\ forall py_repr,
      let run :=
        cmd_init py_repr duplicate_id_tree "UIKit" ".ai_tmp/figma_ios_state.json"
          false 200 in
      stderr run = [] /\ exit_code run = 0%Z
      /\ option_map (fun s => Dict.keys (nodes s)) (saved run)
         = Some ["r"; "x"; "y"; "a"].
Proof.
  split; [reflexivity|]. intros py_repr. vm_compute. repeat split.
Qed.

Definition text_node (characters : string) : dict :=
  [("id", JStr "t"); ("name", JStr "Title"); ("type", JStr "TEXT");
   ("characters", JStr characters)].

Lemma C8_witness :
  exists facts,
    node_facts no_repr (text_node "abcdef") 3 = Ok facts
    /\ Dict.get "characters" (stored_text facts) = Some (JStr "abc...")
    /\ Dict.get "charactersTruncated" (stored_text facts) = Some (JBool true).
Proof.
  eexists. split; [vm_compute; reflexivity|].
  refine (proj1 (C8_text_truncation no_repr (text_node "abcdef") 3 "abcdef" _ _)
            _); reflexivity.
Defined.

(** With a maximum of 3, the six characters [abcdef] are stored as six
    characters again, the first three and three dots; and an empty
    characters string, which is within any limit, is not stored at all. *)
Lemma C8_counterexample :
  (forall py_repr,
      exists facts,
        node_facts py_repr (text_node "abcdef") 3 = Ok facts
        /\ Dict.get "characters" (stored_text facts) = Some (JStr "abc..."))
  /\ Str.take 3 "abcdef" = "abc"
  /\ (forall py_repr,
         exists facts,
           node_facts py_repr (text_node "") 3 = Ok facts
           /\ Dict.get "characters" (stored_text facts) = None).
Proof.
  split; [intros py_repr; eexists; split; vm_compute; reflexivity|].
  split; [reflexivity | intros py_repr; eexists; split; vm_compute; reflexivity].
Qed.





(** *** Further worked inputs *)

(** A stand-in for Python's [float] on strings, for inputs that hold
    no pins string. *)
Definition no_float : string -> option float := fun _ => None.

(** A recursion limit and the message of a [RecursionError], for the
    runs of [cmd_skeleton]. *)
Definition some_limit : nat := 990.

Definition recursion_message : string := "maximum recursion depth exceeded".

(** A list payload with an item that is not an object and an item
    without an id between two patches, the second for an id that has no
    record in [small_state]. *)
Definition mixed_patch : json :=
  JArr [JObj (("id", JStr "x") :: decision "UIView");
        JStr "stray";
        JObj (decision "UILabel");
        JObj (("id", JStr "q") :: decision "UIButton")].

Lemma normalized_patches_wellformed_witness :
  normalize_patch_payload mixed_patch
  = Ok [("x", JObj (decision "UIView")); ("q", JObj (decision "UIButton"))]
  /\ Forall (fun kd => fst kd <> EmptyString /\ exists o, snd kd = JObj o)
       [("x", JObj (decision "UIView")); ("q", JObj (decision "UIButton"))].
Proof.
  split; [reflexivity|].
  apply (normalized_patches_wellformed mixed_patch). reflexivity.
Defined.

Lemma apply_accounts_for_every_patch_witness :
  normalize_patch_payload mixed_patch
  = Ok [("x", JObj (decision "UIView")); ("q", JObj (decision "UIButton"))]
  /\ exit_code (cmd_apply small_state mixed_patch) = 0%Z
  /\ stdout (cmd_apply small_state mixed_patch)
     = Some (JObj [("ok", JBool true); ("applied", JArr [JStr "x"]);
                   ("appliedCount", JInt 1)])
  /\ stderr (cmd_apply small_state mixed_patch)
     = ["warning: patch references unknown node id q; skipped"].
Proof.
  split; [reflexivity|].
  destruct (apply_accounts_for_every_patch small_state mixed_patch
              [("x", JObj (decision "UIView"));
               ("q", JObj (decision "UIButton"))] eq_refl)
    as (H1 & H2 & H3 & _).
  split; [exact H1|]. split; [rewrite H2 | rewrite H3]; reflexivity.
Defined.

Lemma apply_object_without_id_witness :
  lacks_patch_id (decision "UIView") = true
  /\ cmd_apply small_state (JObj (decision "UIView"))
     = fail 2 "error: apply failed: unsupported patch JSON shape"
  /\ saved (cmd_apply small_state (JArr [JObj (decision "UIView")]))
     = Some small_state.
Proof.
  split; [reflexivity|].
  destruct (apply_object_without_id small_state (decision "UIView") eq_refl)
    as [H1 H2].
  split; [exact H1|]. rewrite H2. reflexivity.
Defined.

(** [small_state] once [x] has been decided, and once [r] has. *)
Definition x_decided : State :=
  with_decisions small_state [("x", JObj (decision "UIView"))].

Definition r_decided : State :=
  with_decisions small_state [("r", JObj (decision "UIView"))].

Lemma x_decided_reachable : reachable no_repr x_decided.
Proof.
  apply (reach_apply no_repr small_state first_patch);
    [exact small_state_reachable | vm_compute; reflexivity].
Qed.

Lemma store_entries_are_decisions_of_nodes_witness :
  reachable no_repr x_decided /\ store_ok x_decided.
Proof.
  split; [exact x_decided_reachable|].
  exact (store_entries_are_decisions_of_nodes no_repr x_decided
           x_decided_reachable).
Defined.

Definition twice_decided : State :=
  with_decisions small_state
    [("x", JObj (decision "UILabel")); ("z", JObj (decision "UIButton"))].

Lemma apply_twice_is_apply_once_witness :
  NoDup (Dict.keys (decisions small_state))
  /\ apply_saves small_state second_patch twice_decided
  /\ apply_saves twice_decided second_patch twice_decided
  /\ stdout (cmd_apply twice_decided second_patch)
     = stdout (cmd_apply small_state second_patch).
Proof.
  assert (H0 : NoDup (Dict.keys (decisions small_state))) by constructor.
  assert (H1 : apply_saves small_state second_patch twice_decided)
    by (vm_compute; reflexivity).
  assert (H2 : apply_saves twice_decided second_patch twice_decided)
    by (vm_compute; reflexivity).
  split; [exact H0|]. split; [exact H1|]. split; [exact H2|].
  exact (proj2 (apply_twice_is_apply_once small_state twice_decided
                  twice_decided second_patch H0 H1 H2)).
Defined.

(** The node map [cmd_init] builds for [duplicate_id_tree]. *)
Definition duplicate_id_nodes : node_map :=
  returned [] (visit no_repr false 200 duplicate_id_tree None 0 []).

Lemma index_links_are_consistent_witness :
  index_tree no_repr (fields_of duplicate_id_tree) false 200
  = Ok ("r", duplicate_id_nodes)
  /\ NoDup (Dict.keys duplicate_id_nodes)
  /\ (forall p rp c,
         Dict.get p duplicate_id_nodes = Some rp ->
         In c (NodeRecord.child_ids rp) ->
         exists rc, Dict.get c duplicate_id_nodes = Some rc).
Proof.
  assert (H : index_tree no_repr (fields_of duplicate_id_tree) false 200
              = Ok ("r", duplicate_id_nodes)) by (vm_compute; reflexivity).
  split; [exact H|].
  destruct (index_links_are_consistent no_repr _ _ _ _ _ H)
    as (H1 & _ & H3 & _).
  split; [exact H1 | exact H3].
Defined.

Lemma bfs_order_lists_every_record_witness :
  index_tree no_repr (fields_of duplicate_id_tree) false 200
  = Ok ("r", duplicate_id_nodes)
  /\ bfs_order duplicate_id_nodes "r" = Some ["r"; "x"; "a"; "y"]
  /\ NoDup ["r"; "x"; "a"; "y"]
  /\ List.length ["r"; "x"; "a"; "y"] = List.length duplicate_id_nodes.
Proof.
  assert (H : index_tree no_repr (fields_of duplicate_id_tree) false 200
              = Ok ("r", duplicate_id_nodes)) by (vm_compute; reflexivity).
  assert (Hb : bfs_order duplicate_id_nodes "r" = Some ["r"; "x"; "a"; "y"])
    by (vm_compute; reflexivity).
  split; [exact H|]. split; [exact Hb|].
  destruct (bfs_order_lists_every_record no_repr _ _ _ _ _ _ H Hb)
    as (H1 & _ & H3).
  split; [exact H1 | exact H3].
Defined.

Lemma status_counts_agree_with_next_witness :
  reachable no_repr x_decided
  /\ List.length (bfs x_decided) = List.length (nodes x_decided)
  /\ List.length (decisions x_decided) <= List.length (nodes x_decided)
  /\ (List.length (nodes x_decided) - List.length (decisions x_decided) = 0
      <-> _next_node_id x_decided = None).
Proof.
  split; [exact x_decided_reachable|].
  destruct (status_counts_agree_with_next no_repr x_decided
              x_decided_reachable) as (H1 & H2 & H3 & _).
  split; [exact H1|]. split; [exact H2 | exact H3].
Defined.

Lemma small_tree_ids_distinct : NoDup (tree_ids false small_tree).
Proof.
  vm_compute. repeat (constructor; [simpl; intuition discriminate|]).
  constructor.
Qed.

Lemma r_decided_applies : applies small_state r_decided.
Proof.
  apply (applies_more small_state
           (JObj (("id", JStr "r") :: decision "UIView")) r_decided);
    [vm_compute; reflexivity | apply applies_none].
Qed.

Lemma next_shows_the_parent_decision_witness :
  init_saves no_repr small_tree "UIKit" "state.json" false 200 small_state
  /\ select_root_node small_tree = Ok (fields_of small_tree)
  /\ NoDup (tree_ids false small_tree)
  /\ applies small_state r_decided
  /\ _next_node_id r_decided = Some "x"
  /\ exists n,
      Dict.get "x" (nodes r_decided) = Some n
      /\ stdout (cmd_next_run no_repr r_decided)
         = Some (JObj (next_context no_repr r_decided "x" n))
      /\ forall p,
          NodeRecord.parent_id n = Some p ->
          exists d,
            Dict.get p (decisions r_decided) = Some (JObj d)
            /\ Dict.get "parentDecision" (next_context no_repr r_decided "x" n)
               = Some (JObj d)
            /\ Dict.get "requirements" (next_context no_repr r_decided "x" n)
               = Some (JObj (requirements_for_child (JObj d))).
Proof.
  assert (H1 : init_saves no_repr small_tree "UIKit" "state.json" false 200
                 small_state) by (vm_compute; reflexivity).
  assert (H2 : select_root_node small_tree = Ok (fields_of small_tree))
    by reflexivity.
  assert (H5 : _next_node_id r_decided = Some "x") by (vm_compute; reflexivity).
  split; [exact H1|]. split; [exact H2|].
  split; [exact small_tree_ids_distinct|].
  split; [exact r_decided_applies|]. split; [exact H5|].
  exact (next_shows_the_parent_decision no_repr small_tree "UIKit"
           "state.json" false 200 (fields_of small_tree) small_state r_decided
           "x" H1 H2 small_tree_ids_distinct r_decided_applies H5).
Defined.

(** [small_state] after a patch for [x] that carries the id alone. *)
Definition x_emptied : State := with_decisions small_state [("x", JObj [])].

Lemma x_emptied_reachable : reachable no_repr x_emptied.
Proof.
  apply (reach_apply no_repr small_state (JObj [("id", JStr "x")]));
    [exact small_state_reachable | vm_compute; reflexivity].
Qed.

Lemma validate_never_reports_a_non_object_witness :
  reachable no_repr x_emptied
  /\ List.length (errors (validate no_float x_emptied)) = 1
  /\ Forall (fun item =>
               exists msg, error_message item = Some msg
                           /\ String.eqb msg "decision_not_object" = false)
       (errors (validate no_float x_emptied)).
Proof.
  split; [exact x_emptied_reachable|]. split; [reflexivity|].
  exact (validate_never_reports_a_non_object no_repr no_float x_emptied
           x_emptied_reachable).
Defined.

(** The root decided as a collection view, its child [x] as a label. *)
Definition label_in_collection : State :=
  with_decisions small_state
    [("r", JObj (decision "UICollectionView"));
     ("x", JObj (decision "UILabel"))].

Definition root_record : NodeRecord.t :=
  NodeRecord.mk "r" "r" "FRAME" None 0 ["x"; "z"]
    [("nameTokens", JArr [JStr "r"]); ("visible", JBool true);
     ("locked", JBool false)].

Lemma cell_requirement_is_enforced_witness :
  uiSystem label_in_collection = "UIKit"
  /\ In ("r", root_record) (nodes label_in_collection)
  /\ In "x" (NodeRecord.child_ids root_record)
  /\ Dict.get "mustUseComponentBase"
       (requirements_for_child (getn "r" (decisions label_in_collection)))
     = Some (JStr "UICollectionViewCell")
  /\ base_component_from_decision (getn "x" (decisions label_in_collection))
     = Some "UILabel"
  /\ exit_code (cmd_validate no_float label_in_collection) = 1%Z.
Proof.
  assert (H2 : In ("r", root_record) (nodes label_in_collection))
    by (vm_compute; left; reflexivity).
  assert (H3 : In "x" (NodeRecord.child_ids root_record))
    by (left; reflexivity).
  split; [reflexivity|]. split; [exact H2|]. split; [exact H3|].
  split; [reflexivity|]. split; [reflexivity|].
  exact (proj2 (cell_requirement_is_enforced no_float label_in_collection
                  "r" "x" "UILabel" "UICollectionViewCell" root_record
                  eq_refl H2 H3 eq_refl eq_refl eq_refl)).
Defined.

(** A cell record without frame facts, and the hint it gets. *)
Definition frameless_cell : NodeRecord.t :=
  NodeRecord.mk "c" "c" "FRAME" (Some "r") 1 [] [].

Definition frameless_hint : dict :=
  [("cellSizing", JStr "fixed");
   ("reason", JStr "no HUG sizing; missing frame width/height")].

Lemma cell_sizing_hint_against_the_validator_witness :
  cell_sizing_hint_from_node_record no_repr frameless_cell
  = Some frameless_hint
  /\ follows_cell_hint frameless_hint frameless_hint
  /\ check_cell "c" "UITableViewCell" (Some frameless_hint)
       (mkFindings [] [])
     = err "c" "fixed_cell_requires_fixedSize_width_height" None
         (mkFindings [] []).
Proof.
  assert (H2 : follows_cell_hint frameless_hint frameless_hint)
    by (split; reflexivity).
  split; [reflexivity|]. split; [exact H2|].
  destruct (cell_sizing_hint_against_the_validator no_repr
              frameless_cell frameless_hint frameless_hint "c"
              "UITableViewCell" (mkFindings [] []) eq_refl eq_refl H2)
    as [(H & _)|[(_ & H & _)|(_ & _ & H)]];
    [discriminate H | discriminate H | exact H].
Defined.

Lemma children_are_all_listed_witness :
  reachable no_repr small_state
  /\ exists cs,
      cmd_children small_state "r"
      = mkRun 0 []
          (Some (JObj [("nodeId", JStr "r"); ("children", JArr cs)])) None
      /\ List.map skeleton_id cs = [Some "x"; Some "z"].
Proof.
  split; [exact small_state_reachable|].
  exact (children_are_all_listed no_repr small_state "r"
           small_state_reachable).
Defined.

Lemma export_has_one_node_per_record_witness :
  init_saves no_repr small_tree "UIKit" "state.json" false 200 small_state
  /\ select_root_node small_tree = Ok (fields_of small_tree)
  /\ NoDup (tree_ids false small_tree)
  /\ should_include_node (fields_of small_tree) false = true
  /\ applies small_state r_decided
  /\ exists fuel t,
      (forall k, build_export_tree (fuel + k) r_decided (rootId r_decided)
                 = Some t)
      /\ export_count t = List.length (nodes r_decided).
Proof.
  assert (H1 : init_saves no_repr small_tree "UIKit" "state.json" false 200
                 small_state) by (vm_compute; reflexivity).
  assert (H2 : select_root_node small_tree = Ok (fields_of small_tree))
    by reflexivity.
  split; [exact H1|]. split; [exact H2|].
  split; [exact small_tree_ids_distinct|]. split; [reflexivity|].
  split; [exact r_decided_applies|].
  exact (export_has_one_node_per_record no_repr small_tree "UIKit"
           "state.json" false 200 (fields_of small_tree) small_state r_decided
           H1 H2 small_tree_ids_distinct eq_refl r_decided_applies).
Defined.

Lemma id_only_patch_is_exported_as_undecided_witness :
  Str.is_empty "x" = false
  /\ Dict.mem "x" (nodes small_state) = true
  /\ apply_saves small_state (JObj [("id", JStr "x")]) x_emptied
  /\ Dict.get "x" (decisions x_emptied) = Some (JObj [])
  /\ (exists t,
         build_export_tree 2 x_emptied "x" = Some t
         /\ get_component_base_from_spec t = Some "__UNDECIDED__"
         /\ Dict.get "warnings" (export_fields t)
            = Some (JArr [JStr "missing_decision"]))
  /\ build_export_tree 1 x_emptied "x" = None.
Proof.
  assert (H2 : Dict.mem "x" (nodes small_state) = true)
    by (vm_compute; reflexivity).
  assert (H3 : apply_saves small_state (JObj [("id", JStr "x")]) x_emptied)
    by (vm_compute; reflexivity).
  split; [reflexivity|]. split; [exact H2|]. split; [exact H3|].
  destruct (id_only_patch_is_exported_as_undecided small_state x_emptied "x"
              eq_refl H2 H3) as (H4 & _ & H6).
  split; [exact H4|]. split; [exact (H6 2) | exact (H6 1)].
Defined.

(** A node with a child that carries the node's own id, and the state
    [cmd_init] saves for it. *)
Definition self_child_tree : json := frame_node "a" [frame_node "a" []].

Definition self_child_state : State :=
  mkState "UIKit" "a"
    (returned [] (visit no_repr false 200 self_child_tree None 0 []))
    ["a"] [].

Definition self_child_record : NodeRecord.t :=
  NodeRecord.mk "a" "a" "FRAME" None 0 ["a"]
    [("nameTokens", JArr [JStr "a"]); ("visible", JBool true);
     ("locked", JBool false)].

Lemma self_child_state_reachable : reachable no_repr self_child_state.
Proof.
  apply (reach_init no_repr self_child_tree "UIKit" "state.json" false 200).
  unfold init_saves. vm_compute. reflexivity.
Qed.

Lemma export_never_ends_on_a_self_child_witness :
  reachable no_repr self_child_state
  /\ Dict.get "a" (nodes self_child_state) = Some self_child_record
  /\ In "a" (NodeRecord.child_ids self_child_record)
  /\ build_export_tree 1000 self_child_state "a" = None
  /\ cmd_export 1000 self_child_state false = None.
Proof.
  assert (H2 : Dict.get "a" (nodes self_child_state) = Some self_child_record)
    by (vm_compute; reflexivity).
  assert (H3 : In "a" (NodeRecord.child_ids self_child_record))
    by (left; reflexivity).
  split; [exact self_child_state_reachable|].
  split; [exact H2|]. split; [exact H3|].
  exact (export_never_ends_on_a_self_child no_repr self_child_state "a"
           self_child_record self_child_state_reachable H2 H3 1000 false).
Defined.

(** A root marked invisible. *)
Definition hidden_root : dict :=
  [("id", JStr "r"); ("name", JStr "Screen"); ("visible", JBool false)].

Lemma hidden_root_gives_an_empty_workflow_witness :
  select_root_node (JObj hidden_root) = Ok hidden_root
  /\ nonempty_str (getn "id" hidden_root) = Some "r"
  /\ should_include_node hidden_root false = false
  /\ saved (cmd_init no_repr (JObj hidden_root) "UIKit" "state.json" false 200)
     = Some (mkState "UIKit" "r" [] [] [])
  /\ cmd_next (mkState "UIKit" "r" [] [] []) = NextDone.
Proof.
  split; [reflexivity|]. split; [reflexivity|]. split; [reflexivity|].
  destruct (hidden_root_gives_an_empty_workflow no_repr no_float some_limit
              recursion_message (JObj hidden_root) "UIKit" "state.json" 200
              hidden_root "r" eq_refl eq_refl eq_refl) as (_ & H2 & _ & H4 & _).
  split; [exact H2 | exact H4].
Defined.

(** A button that has a title of its own, with a label child. *)
Definition titled_button : dict :=
  fields_of
    (export_node "btn" "Button" "FRAME" "UIButton"
       (Some [("title", JStr "Keep")])
       [export_node "lbl" "Title" "TEXT" "UILabel"
          (Some [("text", JStr "Go")]) []]).

Lemma absorption_keeps_the_parents_properties_witness :
  Dict.get "title" (get_properties_dict titled_button) = Some (JStr "Keep")
  /\ replaceable "title" (JStr "Keep") = false
  /\ export_property
       (absorb_children_in_export_tree "UIKit" (JObj titled_button)) "title"
     = Some (JStr "Keep")
  /\ export_children
       (absorb_children_in_export_tree "UIKit" (JObj titled_button)) = [].
Proof.
  split; [reflexivity|]. split; [reflexivity|].
  split; [|reflexivity].
  exact (absorption_keeps_the_parents_properties "UIKit" titled_button "title"
           (JStr "Keep") eq_refl eq_refl).
Defined.

(** A stand-in for Python's [float] on strings that reads every text
    as zero. *)
Definition every_float : string -> option float := fun _ => Some 0%float.

Lemma pins_hint_passes_the_pins_check_witness :
  (forall v, plain (no_repr (JFloat v)) = true)
  /\ (forall z, exists f, every_float (Str.of_Z z) = Some f)
  /\ (forall v, exists f, every_float (no_repr (JFloat v)) = Some f)
  /\ compute_constraint_hints no_repr pinned_child "c" (Some "p")
     = Some "pins=R=-180:T=10:W=100:H=40"
  /\ exists out,
      parse_pins every_float (JStr "pins=R=-180:T=10:W=100:H=40")
      = (Some out, []).
Proof.
  assert (H1 : forall v, plain (no_repr (JFloat v)) = true)
    by (intros v; reflexivity).
  assert (H2 : forall z, exists f, every_float (Str.of_Z z) = Some f)
    by (intros z; eexists; reflexivity).
  assert (H3 : forall v, exists f, every_float (no_repr (JFloat v)) = Some f)
    by (intros v; eexists; reflexivity).
  assert (H4 : compute_constraint_hints no_repr pinned_child "c" (Some "p")
               = Some "pins=R=-180:T=10:W=100:H=40")
    by (vm_compute; reflexivity).
  split; [exact H1|]. split; [exact H2|]. split; [exact H3|].
  split; [exact H4|].
  exact (proj1 (pins_hint_passes_the_pins_check no_repr every_float
                  pinned_child "c" (Some "p") _ H1 H2 H3 H4)).
Defined.

Lemma bfs_order_goes_level_by_level_witness :
  index_tree no_repr (fields_of small_tree) false 200
  = Ok ("r", nodes small_state)
  /\ bfs_order (nodes small_state) "r" = Some ["r"; "x"; "z"; "y"]
  /\ NoDup (tree_ids false small_tree)
  /\ strictly_before "z" "y" ["r"; "x"; "z"; "y"]
  /\ exists rz ry,
      Dict.get "z" (nodes small_state) = Some rz
      /\ Dict.get "y" (nodes small_state) = Some ry
      /\ NodeRecord.depth rz <= NodeRecord.depth ry.
Proof.
  assert (H1 : index_tree no_repr (fields_of small_tree) false 200
               = Ok ("r", nodes small_state)) by (vm_compute; reflexivity).
  assert (H2 : bfs_order (nodes small_state) "r" = Some ["r"; "x"; "z"; "y"])
    by (vm_compute; reflexivity).
  assert (H4 : strictly_before "z" "y" ["r"; "x"; "z"; "y"])
    by (exists ["r"; "x"], [], []; reflexivity).
  split; [exact H1|]. split; [exact H2|].
  split; [exact small_tree_ids_distinct|]. split; [exact H4|].
  eexists. eexists.
  split; [vm_compute; reflexivity|]. split; [vm_compute; reflexivity|].
  apply (bfs_order_goes_level_by_level no_repr (fields_of small_tree) false
           200 "r" (nodes small_state) ["r"; "x"; "z"; "y"] H1 H2
           small_tree_ids_distinct "z" "y" _ _ H4);
    vm_compute; reflexivity.
Defined.

Lemma records_come_from_their_nodes_witness :
  index_tree no_repr (fields_of small_tree) false 200
  = Ok ("r", nodes small_state)
  /\ exists facts,
      node_facts no_repr (fields_of (frame_node "y" [])) 200 = Ok facts
      /\ cmd_facts small_state "y"
         = mkRun 0 []
             (Some (JObj [("nodeId", JStr "y"); ("facts", JObj facts)]))
             None.
Proof.
  assert (H1 : index_tree no_repr (fields_of small_tree) false 200
               = Ok ("r", nodes small_state)) by (vm_compute; reflexivity).
  split; [exact H1|].
  apply (proj2 (records_come_from_their_nodes no_repr
                  (fields_of small_tree) false 200 "r" (nodes small_state)
                  H1) small_tree_ids_distinct);
    [|reflexivity].
  vm_compute. right. right. left. reflexivity.
Defined.

(** A root with a visible child [x] and a hidden child [h], which has
    a child [k] of its own. *)
Definition hidden_child_tree : json :=
  frame_node "r"
    [frame_node "x" [];
     JObj [("id", JStr "h"); ("name", JStr "h"); ("type", JStr "FRAME");
           ("visible", JBool false);
           ("children", JArr [frame_node "k" []])]].

Definition hidden_child_nodes : node_map :=
  returned [] (visit no_repr false 200 hidden_child_tree None 0 []).

Lemma hidden_nodes_have_no_record_witness :
  index_tree no_repr (fields_of hidden_child_tree) false 200
  = Ok ("r", hidden_child_nodes)
  /\ Dict.keys hidden_child_nodes = ["r"; "x"]
  /\ exists rx,
      Dict.get "x" hidden_child_nodes = Some rx
      /\ Dict.get "visible" (NodeRecord.facts rx) = Some (JBool true).
Proof.
  assert (H1 : index_tree no_repr (fields_of hidden_child_tree) false 200
               = Ok ("r", hidden_child_nodes)) by (vm_compute; reflexivity).
  split; [exact H1|]. split; [vm_compute; reflexivity|].
  eexists. split; [vm_compute; reflexivity|].
  apply (hidden_nodes_have_no_record no_repr (fields_of hidden_child_tree)
           200 "r" hidden_child_nodes H1 "x").
  vm_compute. reflexivity.
Defined.


(** A root whose [x] is an integer beyond the range of a float, and a
    node with an integer [x], a float [width] and a [y] that is no
    number. *)
Definition overflowing_root : dict :=
  [("id", JStr "r"); ("name", JStr "Screen"); ("type", JStr "FRAME");
   ("x", JInt (2 ^ 1024))].

Definition sized_node : dict :=
  [("id", JStr "n"); ("name", JStr "Box"); ("type", JStr "FRAME");
   ("x", JInt 20); ("y", JStr "top"); ("width", JFloat 100.5)].

Lemma frame_facts_numeric_witness :
  (exists facts,
      node_facts no_repr sized_node 200 = Ok facts
      /\ Dict.get "x" (stored_frame facts) = Some (JFloat 20)
      /\ Dict.get "y" (stored_frame facts) = None
      /\ Dict.get "width" (stored_frame facts) = Some (JFloat 100.5))
  /\ float_overflows (getn "x" overflowing_root) = true
  /\ node_facts no_repr overflowing_root 200
     = Raise "int too large to convert to float".
Proof.
  assert (Ho : float_overflows (getn "x" overflowing_root) = true)
    by (vm_compute; reflexivity).
  split; [|split; [exact Ho|]].
  - pose proof (proj1 (frame_facts_numeric no_repr sized_node 200)) as H.
    eexists. split; [vm_compute; reflexivity|].
    split; [exact (proj1 (H "x"))|].
    split; [exact (proj1 (H "y")) | exact (proj1 (H "width"))].
  - exact (proj2 (frame_facts_numeric no_repr overflowing_root 200) "x"
             eq_refl Ho).
Defined.

Lemma init_fails_in_three_cases_witness :
  should_include_node overflowing_root false = true
  /\ float_overflows (getn "x" overflowing_root) = true
  /\ cmd_init no_repr (JObj overflowing_root) "UIKit" "state.json" false 200
     = fail 2 "error: init failed: int too large to convert to float".
Proof.
  assert (Ho : float_overflows (getn "x" overflowing_root) = true)
    by (vm_compute; reflexivity).
  split; [reflexivity|]. split; [exact Ho|].
  pose proof (init_fails_in_three_cases no_repr (JObj overflowing_root)
                "UIKit" "state.json" false 200) as H.
  cbv zeta in H.
  change (select_root_node (JObj overflowing_root))
    with (@Ok dict overflowing_root) in H.
  cbv iota beta in H.
  change (nonempty_str (getn "id" overflowing_root)) with (Some "r") in H.
  cbv iota beta in H. destruct H as [_ H].
  exact (H eq_refl "x" eq_refl Ho).
Defined.
